(** * MaxRectsBinPack: the MAXRECTS bin packer of the sprite-sheet generator

    A shallow embedding of [Rect.h] and [MaxRectsBinPack.cpp] and the
    properties of the packer stated over it.

    - C++ [int] is a 32-bit two's-complement integer.  It is modelled as a
      [Z] in the range of [Int.in_range]; every arithmetic operation of the
      source goes through [Int.add], [Int.sub], [Int.mul], [Int.neg] or
      [Int.abs], which reduce the exact result modulo 2^32.
    - [std::vector<Rect>] is a [list]; [v[i]] is stdpp's lookup [v !! i],
      [v.erase(v.begin() + i)] is [delete i v], [v.push_back(r)] is
      [v ++ [r]].
    - Member functions that mutate the packer take the state (or the vector
      they mutate) as an argument and return the new one. *)

From Stdlib Require Import ZArith Lia Bool.
From stdpp Require Import base tactics option list.

Local Open Scope Z_scope.

(** ** Machine integers *)

Module Int.

Definition INT_MAX : Z := 2147483647.
Definition INT_MIN : Z := -2147483648.

Definition in_range (z : Z) : Prop := INT_MIN <= z <= INT_MAX.

(** Reduction of an exact result to the 32-bit two's-complement range. *)
Definition wrap (z : Z) : Z := (z + 2147483648) mod 4294967296 - 2147483648.

Definition add (a b : Z) : Z := wrap (a + b).
Definition sub (a b : Z) : Z := wrap (a - b).
Definition mul (a b : Z) : Z := wrap (a * b).
Definition neg (a : Z) : Z := wrap (- a).
Definition abs (a : Z) : Z := wrap (Z.abs a).

End Int.

(** ** Rect.h *)

Module RectSize.
Record t : Set := mk { width : Z; height : Z }.
End RectSize.

Module Rect.
Record t : Set := mk { x : Z; y : Z; width : Z; height : Z }.

(** [Rect r = {}]: value initialisation, every member zero. *)
Definition zero : t := mk 0 0 0 0.
End Rect.

#[global] Instance Rect_eq_dec : EqDecision Rect.t.
Proof. solve_decision. Defined.

(** Modelled from the spec: [isContainedIn] is declared in [Rect.h] ("Returns
    true if a is contained in b") but its definition is not among the
    sources; the specification describes it as "true if [a] lies entirely
    within [b]". *)
Definition isContainedIn (a b : Rect.t) : bool :=
  (Rect.x a >=? Rect.x b) && (Rect.y a >=? Rect.y b)
  && (Int.add (Rect.x a) (Rect.width a) <=? Int.add (Rect.x b) (Rect.width b))
  && (Int.add (Rect.y a) (Rect.height a) <=? Int.add (Rect.y b) (Rect.height b)).

Module DisjointRectCollection.

(** [static bool disjoint(const Rect &a, const Rect &b)] *)
Definition disjoint2 (a b : Rect.t) : bool :=
  if (Int.add (Rect.x a) (Rect.width a) <=? Rect.x b)
     || (Int.add (Rect.x b) (Rect.width b) <=? Rect.x a)
     || (Int.add (Rect.y a) (Rect.height a) <=? Rect.y b)
     || (Int.add (Rect.y b) (Rect.height b) <=? Rect.y a)
  then true else false.

(** [bool disjoint(const Rect &r) const] *)
Definition disjoint (rects : list Rect.t) (r : Rect.t) : bool :=
  if (Rect.width r =? 0) || (Rect.height r =? 0) then true
  else forallb (fun rect => disjoint2 rect r) rects.

(** [bool add(const Rect &r)]: the result and the new [rects]. *)
Definition add (rects : list Rect.t) (r : Rect.t) : bool * list Rect.t :=
  if (Rect.width r =? 0) || (Rect.height r =? 0) then (true, rects)
  else if negb (disjoint rects r) then (false, rects)
  else (true, rects ++ [r]).

End DisjointRectCollection.

(** ** MaxRectsBinPack.cpp *)

Inductive FreeRectChoiceHeuristic : Set :=
| RectBestShortSideFit
| RectBestLongSideFit
| RectBestAreaFit
| RectBottomLeftRule
| RectContactPointRule.

Record MaxRectsBinPack : Set := mkPack {
  binWidth : Z;
  binHeight : Z;
  usedRectangles : list Rect.t;
  freeRectangles : list Rect.t
}.

(** [MaxRectsBinPack::MaxRectsBinPack()] *)
Definition uninitialized : MaxRectsBinPack := mkPack 0 0 [] [].

(** [void MaxRectsBinPack::init(width, height)] *)
Definition init (width height : Z) : MaxRectsBinPack :=
  let n := Rect.mk 0 0 width height in
  mkPack width height [] [n].

(** *** The five scorers

    Every scorer keeps [bestNode] and its one or two best scores in local
    variables while it runs through [freeRectangles]; [Best] is that triple
    (the contact-point scorer leaves the second component alone). *)

Record Best : Set := mkBest { bestNode : Rect.t; best1 : Z; best2 : Z }.

Definition bottomLeftBody (width height : Z) (b : Best) (freeRect : Rect.t) : Best :=
  let '(mkBest bestNode bestY bestX) := b in
  let b :=
    if (Rect.width freeRect >=? width) && (Rect.height freeRect >=? height) then
      let topSideY := Int.add (Rect.y freeRect) height in
      if (topSideY <? bestY) || ((topSideY =? bestY) && (Rect.x freeRect <? bestX)) then
        mkBest (Rect.mk (Rect.x freeRect) (Rect.y freeRect) width height)
               topSideY (Rect.x freeRect)
      else b
    else b in
  let '(mkBest bestNode bestY bestX) := b in
  if (Rect.width freeRect >=? height) && (Rect.height freeRect >=? width) then
    let topSideY := Int.add (Rect.y freeRect) width in
    if (topSideY <? bestY) || ((topSideY =? bestY) && (Rect.x freeRect <? bestX)) then
      mkBest (Rect.mk (Rect.x freeRect) (Rect.y freeRect) height width)
             topSideY (Rect.x freeRect)
    else b
  else b.

(** Returns [bestNode] with the out-parameters [bestY], [bestX]. *)
Definition findPositionForNewNodeBottomLeft (freeRectangles : list Rect.t)
    (width height : Z) : Rect.t * Z * Z :=
  let b := fold_left (bottomLeftBody width height) freeRectangles
             (mkBest Rect.zero Int.INT_MAX Int.INT_MAX) in
  (bestNode b, best1 b, best2 b).

Definition bestShortSideFitBody (width height : Z) (b : Best) (freeRect : Rect.t) : Best :=
  let '(mkBest bestNode bestShortSideFit bestLongSideFit) := b in
  let b :=
    if (Rect.width freeRect >=? width) && (Rect.height freeRect >=? height) then
      let leftoverHoriz := Int.abs (Int.sub (Rect.width freeRect) width) in
      let leftoverVert := Int.abs (Int.sub (Rect.height freeRect) height) in
      let shortSideFit := Z.min leftoverHoriz leftoverVert in
      let longSideFit := Z.max leftoverHoriz leftoverVert in
      if (shortSideFit <? bestShortSideFit)
         || ((shortSideFit =? bestShortSideFit) && (longSideFit <? bestLongSideFit)) then
        mkBest (Rect.mk (Rect.x freeRect) (Rect.y freeRect) width height)
               shortSideFit longSideFit
      else b
    else b in
  let '(mkBest bestNode bestShortSideFit bestLongSideFit) := b in
  if (Rect.width freeRect >=? height) && (Rect.height freeRect >=? width) then
    let flippedLeftoverHoriz := Int.abs (Int.sub (Rect.width freeRect) height) in
    let flippedLeftoverVert := Int.abs (Int.sub (Rect.height freeRect) width) in
    let flippedShortSideFit := Z.min flippedLeftoverHoriz flippedLeftoverVert in
    let flippedLongSideFit := Z.max flippedLeftoverHoriz flippedLeftoverVert in
    if (flippedShortSideFit <? bestShortSideFit)
       || ((flippedShortSideFit =? bestShortSideFit)
           && (flippedLongSideFit <? bestLongSideFit)) then
      mkBest (Rect.mk (Rect.x freeRect) (Rect.y freeRect) height width)
             flippedShortSideFit flippedLongSideFit
    else b
  else b.

(** Returns [bestNode] with the out-parameters [bestShortSideFit],
    [bestLongSideFit]. *)
Definition findPositionForNewNodeBestShortSideFit (freeRectangles : list Rect.t)
    (width height : Z) : Rect.t * Z * Z :=
  let b := fold_left (bestShortSideFitBody width height) freeRectangles
             (mkBest Rect.zero Int.INT_MAX Int.INT_MAX) in
  (bestNode b, best1 b, best2 b).

(** In this scorer [best1] is [bestLongSideFit] and [best2] is
    [bestShortSideFit]: the long side is the primary key. *)
Definition bestLongSideFitBody (width height : Z) (b : Best) (freeRect : Rect.t) : Best :=
  let '(mkBest bestNode bestLongSideFit bestShortSideFit) := b in
  let b :=
    if (Rect.width freeRect >=? width) && (Rect.height freeRect >=? height) then
      let leftoverHoriz := Int.abs (Int.sub (Rect.width freeRect) width) in
      let leftoverVert := Int.abs (Int.sub (Rect.height freeRect) height) in
      let shortSideFit := Z.min leftoverHoriz leftoverVert in
      let longSideFit := Z.max leftoverHoriz leftoverVert in
      if (longSideFit <? bestLongSideFit)
         || ((longSideFit =? bestLongSideFit) && (shortSideFit <? bestShortSideFit)) then
        mkBest (Rect.mk (Rect.x freeRect) (Rect.y freeRect) width height)
               longSideFit shortSideFit
      else b
    else b in
  let '(mkBest bestNode bestLongSideFit bestShortSideFit) := b in
  if (Rect.width freeRect >=? height) && (Rect.height freeRect >=? width) then
    let leftoverHoriz := Int.abs (Int.sub (Rect.width freeRect) height) in
    let leftoverVert := Int.abs (Int.sub (Rect.height freeRect) width) in
    let shortSideFit := Z.min leftoverHoriz leftoverVert in
    let longSideFit := Z.max leftoverHoriz leftoverVert in
    if (longSideFit <? bestLongSideFit)
       || ((longSideFit =? bestLongSideFit) && (shortSideFit <? bestShortSideFit)) then
      mkBest (Rect.mk (Rect.x freeRect) (Rect.y freeRect) height width)
             longSideFit shortSideFit
    else b
  else b.

(** Returns [bestNode] with the out-parameters in the order of the
    signature: [bestShortSideFit], then [bestLongSideFit]. *)
Definition findPositionForNewNodeBestLongSideFit (freeRectangles : list Rect.t)
    (width height : Z) : Rect.t * Z * Z :=
  let b := fold_left (bestLongSideFitBody width height) freeRectangles
             (mkBest Rect.zero Int.INT_MAX Int.INT_MAX) in
  (bestNode b, best2 b, best1 b).

Definition bestAreaFitBody (width height : Z) (b : Best) (freeRect : Rect.t) : Best :=
  let areaFit :=
    Int.sub (Int.mul (Rect.width freeRect) (Rect.height freeRect)) (Int.mul width height) in
  let '(mkBest bestNode bestAreaFit bestShortSideFit) := b in
  let b :=
    if (Rect.width freeRect >=? width) && (Rect.height freeRect >=? height) then
      let leftoverHoriz := Int.abs (Int.sub (Rect.width freeRect) width) in
      let leftoverVert := Int.abs (Int.sub (Rect.height freeRect) height) in
      let shortSideFit := Z.min leftoverHoriz leftoverVert in
      if (areaFit <? bestAreaFit)
         || ((areaFit =? bestAreaFit) && (shortSideFit <? bestShortSideFit)) then
        mkBest (Rect.mk (Rect.x freeRect) (Rect.y freeRect) width height)
               areaFit shortSideFit
      else b
    else b in
  let '(mkBest bestNode bestAreaFit bestShortSideFit) := b in
  if (Rect.width freeRect >=? height) && (Rect.height freeRect >=? width) then
    let leftoverHoriz := Int.abs (Int.sub (Rect.width freeRect) height) in
    let leftoverVert := Int.abs (Int.sub (Rect.height freeRect) width) in
    let shortSideFit := Z.min leftoverHoriz leftoverVert in
    if (areaFit <? bestAreaFit)
       || ((areaFit =? bestAreaFit) && (shortSideFit <? bestShortSideFit)) then
      mkBest (Rect.mk (Rect.x freeRect) (Rect.y freeRect) height width)
             areaFit shortSideFit
    else b
  else b.

(** Returns [bestNode] with the out-parameters [bestAreaFit],
    [bestShortSideFit]. *)
Definition findPositionForNewNodeBestAreaFit (freeRectangles : list Rect.t)
    (width height : Z) : Rect.t * Z * Z :=
  let b := fold_left (bestAreaFitBody width height) freeRectangles
             (mkBest Rect.zero Int.INT_MAX Int.INT_MAX) in
  (bestNode b, best1 b, best2 b).

(** [int commonIntervalLength(i1Start, i1End, i2Start, i2End)] *)
Definition commonIntervalLength (i1Start i1End i2Start i2End : Z) : Z :=
  if (i1End <? i2Start) || (i2End <? i1Start) then 0
  else Int.sub (Z.min i1End i2End) (Z.max i1Start i2Start).

(** The body of the loop over [usedRectangles] in [contactPointScoreNode]. *)
Definition contactBody (x y width height : Z) (score : Z) (usedRect : Rect.t) : Z :=
  let score :=
    if (Rect.x usedRect =? Int.add x width)
       || (Int.add (Rect.x usedRect) (Rect.width usedRect) =? x)
    then Int.add score
           (commonIntervalLength (Rect.y usedRect)
              (Int.add (Rect.y usedRect) (Rect.height usedRect)) y (Int.add y height))
    else score in
  if (Rect.y usedRect =? Int.add y height)
     || (Int.add (Rect.y usedRect) (Rect.height usedRect) =? y)
  then Int.add score
         (commonIntervalLength (Rect.x usedRect)
            (Int.add (Rect.x usedRect) (Rect.width usedRect)) x (Int.add x width))
  else score.

(** [int MaxRectsBinPack::contactPointScoreNode(x, y, width, height) const] *)
Definition contactPointScoreNode (binWidth binHeight : Z) (usedRectangles : list Rect.t)
    (x y width height : Z) : Z :=
  let score := 0 in
  let score :=
    if (x =? 0) || (Int.add x width =? binWidth) then Int.add score height else score in
  let score :=
    if (y =? 0) || (Int.add y height =? binHeight) then Int.add score width else score in
  fold_left (contactBody x y width height) usedRectangles score.

(** The contact-point scorer has one score only, kept in [best1]; [best2]
    is carried along untouched. *)
Definition contactPointBody (binWidth binHeight : Z) (usedRectangles : list Rect.t)
    (width height : Z) (b : Best) (freeRect : Rect.t) : Best :=
  let '(mkBest bestNode contactScore unused) := b in
  let b :=
    if (Rect.width freeRect >=? width) && (Rect.height freeRect >=? height) then
      let score := contactPointScoreNode binWidth binHeight usedRectangles
                     (Rect.x freeRect) (Rect.y freeRect) width height in
      if score >? contactScore then
        mkBest (Rect.mk (Rect.x freeRect) (Rect.y freeRect) width height) score unused
      else b
    else b in
  let '(mkBest bestNode contactScore unused) := b in
  if (Rect.width freeRect >=? height) && (Rect.height freeRect >=? width) then
    let score := contactPointScoreNode binWidth binHeight usedRectangles
                   (Rect.x freeRect) (Rect.y freeRect) height width in
    if score >? contactScore then
      mkBest (Rect.mk (Rect.x freeRect) (Rect.y freeRect) height width) score unused
    else b
  else b.

(** Returns [bestNode] with the out-parameter [contactScore]. *)
Definition findPositionForNewNodeContactPoint (s : MaxRectsBinPack)
    (width height : Z) : Rect.t * Z :=
  let b := fold_left
             (contactPointBody (binWidth s) (binHeight s) (usedRectangles s) width height)
             (freeRectangles s) (mkBest Rect.zero (-1) 0) in
  (bestNode b, best1 b).

(** *** Splitting and pruning the free rectangles *)

(** [bool MaxRectsBinPack::splitFreeNode(freeNode, usedNode)]: the result
    and [freeRectangles] after the [push_back]s. *)
Definition splitFreeNode (freeNode usedNode : Rect.t) (freeRectangles : list Rect.t)
    : bool * list Rect.t :=
  if (Rect.x usedNode >=? Int.add (Rect.x freeNode) (Rect.width freeNode))
     || (Int.add (Rect.x usedNode) (Rect.width usedNode) <=? Rect.x freeNode)
     || (Rect.y usedNode >=? Int.add (Rect.y freeNode) (Rect.height freeNode))
     || (Int.add (Rect.y usedNode) (Rect.height usedNode) <=? Rect.y freeNode)
  then (false, freeRectangles)
  else
    let freeRectangles :=
      if (Rect.x usedNode <? Int.add (Rect.x freeNode) (Rect.width freeNode))
         && (Int.add (Rect.x usedNode) (Rect.width usedNode) >? Rect.x freeNode)
      then
        (* New node at the top side of the used node. *)
        let freeRectangles :=
          if (Rect.y usedNode >? Rect.y freeNode)
             && (Rect.y usedNode <? Int.add (Rect.y freeNode) (Rect.height freeNode))
          then
            let newNode :=
              Rect.mk (Rect.x freeNode) (Rect.y freeNode) (Rect.width freeNode)
                (Int.sub (Rect.y usedNode) (Rect.y freeNode)) in
            freeRectangles ++ [newNode]
          else freeRectangles in
        (* New node at the bottom side of the used node. *)
        if Int.add (Rect.y usedNode) (Rect.height usedNode)
           <? Int.add (Rect.y freeNode) (Rect.height freeNode)
        then
          let newNode :=
            Rect.mk (Rect.x freeNode)
              (Int.add (Rect.y usedNode) (Rect.height usedNode))
              (Rect.width freeNode)
              (Int.sub (Int.add (Rect.y freeNode) (Rect.height freeNode))
                 (Int.add (Rect.y usedNode) (Rect.height usedNode))) in
          freeRectangles ++ [newNode]
        else freeRectangles
      else freeRectangles in
    let freeRectangles :=
      if (Rect.y usedNode <? Int.add (Rect.y freeNode) (Rect.height freeNode))
         && (Int.add (Rect.y usedNode) (Rect.height usedNode) >? Rect.y freeNode)
      then
        (* New node at the left side of the used node. *)
        let freeRectangles :=
          if (Rect.x usedNode >? Rect.x freeNode)
             && (Rect.x usedNode <? Int.add (Rect.x freeNode) (Rect.width freeNode))
          then
            let newNode :=
              Rect.mk (Rect.x freeNode) (Rect.y freeNode)
                (Int.sub (Rect.x usedNode) (Rect.x freeNode)) (Rect.height freeNode) in
            freeRectangles ++ [newNode]
          else freeRectangles in
        (* New node at the right side of the used node. *)
        if Int.add (Rect.x usedNode) (Rect.width usedNode)
           <? Int.add (Rect.x freeNode) (Rect.width freeNode)
        then
          let newNode :=
            Rect.mk (Int.add (Rect.x usedNode) (Rect.width usedNode))
              (Rect.y freeNode)
              (Int.sub (Int.add (Rect.x freeNode) (Rect.width freeNode))
                 (Int.add (Rect.x usedNode) (Rect.width usedNode)))
              (Rect.height freeNode) in
          freeRectangles ++ [newNode]
        else freeRectangles
      else freeRectangles in
    (true, freeRectangles).

(** The loop shared by [insert] and [placeRect]:
[[
    size_t numRectanglesToProcess = freeRectangles.size();
    for (size_t i = 0; i < numRectanglesToProcess; ++i)
      if (splitFreeNode(freeRectangles[i], node)) {
        freeRectangles.erase(freeRectangles.begin() + i);
        --i; --numRectanglesToProcess;
      }
]]
    One unit of [fuel] is one evaluation of the loop condition with its
    body.  [--i] followed by the [++i] of the loop header leaves [i] where it
    was (for [i = 0] the unsigned wrap-around to [SIZE_MAX] and back).  Each
    iteration decreases [numRectanglesToProcess - i], so
    [numRectanglesToProcess] units give the loop all it needs. *)
Fixpoint splitLoop (fuel : nat) (i numRectanglesToProcess : nat) (node : Rect.t)
    (freeRectangles : list Rect.t) : list Rect.t :=
  match fuel with
  | O => freeRectangles
  | S fuel =>
    if (i <? numRectanglesToProcess)%nat then
      match freeRectangles !! i with
      | None => freeRectangles
      | Some freeNode =>
        let '(split, freeRectangles) := splitFreeNode freeNode node freeRectangles in
        if split then
          splitLoop fuel i (numRectanglesToProcess - 1)%nat node (delete i freeRectangles)
        else
          splitLoop fuel (S i) numRectanglesToProcess node freeRectangles
      end
    else freeRectangles
  end.

(** The inner loop of [pruneFreeList], entered at [j] for a fixed [i]; the
    boolean tells whether it left through [break], having erased
    [freeRectangles[i]].  Every iteration decreases
    [freeRectangles.size() - j]. *)
Fixpoint pruneInner (fuel : nat) (i j : nat) (freeRectangles : list Rect.t)
    : bool * list Rect.t :=
  match fuel with
  | O => (false, freeRectangles)
  | S fuel =>
    match freeRectangles !! i, freeRectangles !! j with
    | Some ri, Some rj =>
      if isContainedIn ri rj then (true, delete i freeRectangles)
      else if isContainedIn rj ri then pruneInner fuel i j (delete j freeRectangles)
      else pruneInner fuel i (S j) freeRectangles
    | _, _ => (false, freeRectangles)
    end
  end.

(** The outer loop of [pruneFreeList], entered at [i].  After a [break] the
    [--i] and the [++i] of the header cancel.  Every iteration decreases
    [freeRectangles.size() - i]. *)
Fixpoint pruneOuter (fuel : nat) (i : nat) (freeRectangles : list Rect.t)
    : list Rect.t :=
  match fuel with
  | O => freeRectangles
  | S fuel =>
    if (i <? length freeRectangles)%nat then
      let '(erased, freeRectangles) :=
        pruneInner (length freeRectangles) i (S i) freeRectangles in
      if erased then pruneOuter fuel i freeRectangles
      else pruneOuter fuel (S i) freeRectangles
    else freeRectangles
  end.

(** [void MaxRectsBinPack::pruneFreeList()] *)
Definition pruneFreeList (freeRectangles : list Rect.t) : list Rect.t :=
  pruneOuter (length freeRectangles) 0 freeRectangles.

(** *** Insertion *)

(** [void MaxRectsBinPack::placeRect(const Rect& node)] *)
Definition placeRect (node : Rect.t) (s : MaxRectsBinPack) : MaxRectsBinPack :=
  let numRectanglesToProcess := length (freeRectangles s) in
  let free := splitLoop numRectanglesToProcess 0 numRectanglesToProcess node
                (freeRectangles s) in
  let free := pruneFreeList free in
  mkPack (binWidth s) (binHeight s) (usedRectangles s ++ [node]) free.

(** The [switch (method)] of [insert]: the chosen scorer's [newNode].  The
    scores are not used there. *)
Definition findPosition (method : FreeRectChoiceHeuristic) (s : MaxRectsBinPack)
    (width height : Z) : Rect.t :=
  match method with
  | RectBestShortSideFit =>
      (findPositionForNewNodeBestShortSideFit (freeRectangles s) width height).1.1
  | RectBottomLeftRule =>
      (findPositionForNewNodeBottomLeft (freeRectangles s) width height).1.1
  | RectContactPointRule => (findPositionForNewNodeContactPoint s width height).1
  | RectBestLongSideFit =>
      (findPositionForNewNodeBestLongSideFit (freeRectangles s) width height).1.1
  | RectBestAreaFit =>
      (findPositionForNewNodeBestAreaFit (freeRectangles s) width height).1.1
  end.

(** [Rect MaxRectsBinPack::insert(width, height, method)]: the returned
    rectangle and the packer after the call.  The code after the early
    return is that of [placeRect], statement for statement. *)
Definition insert (width height : Z) (method : FreeRectChoiceHeuristic)
    (s : MaxRectsBinPack) : Rect.t * MaxRectsBinPack :=
  let newNode := findPosition method s width height in
  if Rect.height newNode =? 0 then (newNode, s)
  else
    let numRectanglesToProcess := length (freeRectangles s) in
    let free := splitLoop numRectanglesToProcess 0 numRectanglesToProcess newNode
                  (freeRectangles s) in
    let free := pruneFreeList free in
    (newNode, mkPack (binWidth s) (binHeight s) (usedRectangles s ++ [newNode]) free).

(** [Rect MaxRectsBinPack::scoreRect(width, height, method, score1, score2)
    const]: the returned rectangle with [score1] and [score2]. *)
Definition scoreRect (s : MaxRectsBinPack) (width height : Z)
    (method : FreeRectChoiceHeuristic) : Rect.t * Z * Z :=
  let score1 := Int.INT_MAX in
  let score2 := Int.INT_MAX in
  let '(newNode, score1, score2) :=
    match method with
    | RectBestShortSideFit =>
        findPositionForNewNodeBestShortSideFit (freeRectangles s) width height
    | RectBottomLeftRule =>
        findPositionForNewNodeBottomLeft (freeRectangles s) width height
    | RectContactPointRule =>
        let '(newNode, score1) := findPositionForNewNodeContactPoint s width height in
        (newNode, Int.neg score1, score2)
    | RectBestLongSideFit =>
        let '(newNode, score2, score1) :=
          findPositionForNewNodeBestLongSideFit (freeRectangles s) width height in
        (newNode, score1, score2)
    | RectBestAreaFit =>
        findPositionForNewNodeBestAreaFit (freeRectangles s) width height
    end in
  (* Cannot fit the current rectangle. *)
  if Rect.height newNode =? 0 then (newNode, Int.INT_MAX, Int.INT_MAX)
  else (newNode, score1, score2).

(** The [for] loop of the batch [insert] over [rects], entered at index [i]
    with the rectangles from [i] on still to be scored; [bestRectIndex] is
    an [int], [-1] while nothing was chosen. *)
Fixpoint bestOfRects (s : MaxRectsBinPack) (method : FreeRectChoiceHeuristic)
    (i : nat) (rects : list RectSize.t)
    (bestScore1 bestScore2 bestRectIndex : Z) (bestNode : Rect.t)
    : Z * Z * Z * Rect.t :=
  match rects with
  | [] => (bestScore1, bestScore2, bestRectIndex, bestNode)
  | r :: rects =>
    let '(newNode, score1, score2) :=
      scoreRect s (RectSize.width r) (RectSize.height r) method in
    if (score1 <? bestScore1) || ((score1 =? bestScore1) && (score2 <? bestScore2)) then
      bestOfRects s method (S i) rects score1 score2 (Z.of_nat i) newNode
    else
      bestOfRects s method (S i) rects bestScore1 bestScore2 bestRectIndex bestNode
  end.

(** The state of the batch [insert]: the packer and its two reference
    arguments. *)
Record Batch : Set := mkBatch {
  packer : MaxRectsBinPack;
  rects : list RectSize.t;
  dst : list Rect.t
}.

(** One iteration of [while (!rects.empty())]: [None] when the loop is left
    (through its condition or through [return]). *)
Definition batchRound (method : FreeRectChoiceHeuristic) (b : Batch) : option Batch :=
  match rects b with
  | [] => None
  | _ =>
    let '(_, _, bestRectIndex, bestNode) :=
      bestOfRects (packer b) method 0 (rects b) Int.INT_MAX Int.INT_MAX (-1) Rect.zero in
    if bestRectIndex =? -1 then None
    else Some (mkBatch (placeRect bestNode (packer b))
                       (delete (Z.to_nat bestRectIndex) (rects b))
                       (dst b))
  end.

(** The [while] loop; every round erases one element of [rects]. *)
Fixpoint batchLoop (fuel : nat) (method : FreeRectChoiceHeuristic) (b : Batch) : Batch :=
  match fuel with
  | O => b
  | S fuel =>
    match batchRound method b with
    | None => b
    | Some b => batchLoop fuel method b
    end
  end.

(** [void MaxRectsBinPack::insert(rects, dst, method)]: [dst.clear()], then
    the loop.  One more unit of fuel than [rects] has elements lets the loop
    also see its exit condition. *)
Definition insertBatch (rects : list RectSize.t) (dst : list Rect.t)
    (method : FreeRectChoiceHeuristic) (s : MaxRectsBinPack) : Batch :=
  batchLoop (S (length rects)) method (mkBatch s rects []).

(** ** Vocabulary of the properties *)

(** The test both orientations go through: the free rectangle has room for a
    [w] by [h] rectangle. *)
Definition fits (freeRect : Rect.t) (w h : Z) : bool :=
  (Rect.width freeRect >=? w) && (Rect.height freeRect >=? h).

(** The candidate of a free rectangle: its corner, with the given size. *)
Definition placeAt (freeRect : Rect.t) (w h : Z) : Rect.t :=
  Rect.mk (Rect.x freeRect) (Rect.y freeRect) w h.

(** What one loop body may do to the running best: nothing, or replace it by
    a candidate of the current free rectangle in an orientation that fits. *)
Definition step_ok (body : Best -> Rect.t -> Best) (w h : Z) : Prop :=
  forall b f,
    body b f = b
    \/ (fits f w h = true /\ bestNode (body b f) = placeAt f w h)
    \/ (fits f h w = true /\ bestNode (body b f) = placeAt f h w).

(** [r] is a candidate for a [w] by [h] request among the free rectangles
    [l]: the corner of one of them, in an orientation that fits it. *)
Definition candidate (l : list Rect.t) (w h : Z) (r : Rect.t) : Prop :=
  exists f, f ∈ l /\
    ((fits f w h = true /\ r = placeAt f w h)
     \/ (fits f h w = true /\ r = placeAt f h w)).

(** [r] has positive sides and lies in the bin [[0, W] x [0, H]]; stated in
    exact arithmetic. *)
Definition inBin (W H : Z) (r : Rect.t) : Prop :=
  0 <= Rect.x r /\ 0 <= Rect.y r /\ 0 < Rect.width r /\ 0 < Rect.height r
  /\ Rect.x r + Rect.width r <= W /\ Rect.y r + Rect.height r <= H.

(** The two rectangles share no area; stated in exact arithmetic. *)
Definition apart (a b : Rect.t) : Prop :=
  Rect.x a + Rect.width a <= Rect.x b \/ Rect.x b + Rect.width b <= Rect.x a
  \/ Rect.y a + Rect.height a <= Rect.y b \/ Rect.y b + Rect.height b <= Rect.y a.

(** [a] lies in [b]; stated in exact arithmetic. *)
Definition within (a b : Rect.t) : Prop :=
  Rect.x b <= Rect.x a /\ Rect.y b <= Rect.y a
  /\ Rect.x a + Rect.width a <= Rect.x b + Rect.width b
  /\ Rect.y a + Rect.height a <= Rect.y b + Rect.height b.

(** What one call of [splitFreeNode] reports and what it appends. *)
Definition splits (freeNode usedNode : Rect.t) : bool :=
  (splitFreeNode freeNode usedNode []).1.

Definition splitAdds (freeNode usedNode : Rect.t) : list Rect.t :=
  (splitFreeNode freeNode usedNode []).2.

(** The parts of a free rectangle on the four sides of a used rectangle, as
    the specification names them.  "Above" is the side of smaller [y]. *)
Definition sliverAbove (f u : Rect.t) : Rect.t :=
  Rect.mk (Rect.x f) (Rect.y f) (Rect.width f) (Rect.y u - Rect.y f).

Definition sliverBelow (f u : Rect.t) : Rect.t :=
  Rect.mk (Rect.x f) (Rect.y u + Rect.height u) (Rect.width f)
    (Rect.y f + Rect.height f - (Rect.y u + Rect.height u)).

Definition sliverLeft (f u : Rect.t) : Rect.t :=
  Rect.mk (Rect.x f) (Rect.y f) (Rect.x u - Rect.x f) (Rect.height f).

Definition sliverRight (f u : Rect.t) : Rect.t :=
  Rect.mk (Rect.x u + Rect.width u) (Rect.y f)
    (Rect.x f + Rect.width f - (Rect.x u + Rect.width u)) (Rect.height f).

Definition area (r : Rect.t) : Z := Rect.width r * Rect.height r.

(** The residuals of the specification: the slivers with positive area, in
    the order above, below, left, right. *)
Definition residuals (f u : Rect.t) : list Rect.t :=
  List.filter (fun r => 0 <? area r)
    [sliverAbove f u; sliverBelow f u; sliverLeft f u; sliverRight f u].


(** [R] holds between every element of the list and every later one. *)
Fixpoint pairwise {A : Type} (R : A -> A -> Prop) (l : list A) : Prop :=
  match l with
  | [] => True
  | a :: l => Forall (R a) l /\ pairwise R l
  end.

(** Neither rectangle is contained in the other. *)
Definition incomparable (a b : Rect.t) : Prop :=
  isContainedIn a b = false /\ isContainedIn b a = false.

(** The inner loop of [pruneFreeList] seen from the rectangle [a] at index
    [i]: what happens to the rectangles [tl] that it still has to meet.  The
    boolean tells whether [a] is erased; the list is what is left of [tl]. *)
Fixpoint innerScan (a : Rect.t) (tl : list Rect.t) : bool * list Rect.t :=
  match tl with
  | [] => (false, [])
  | b :: tl =>
    if isContainedIn a b then (true, b :: tl)
    else if isContainedIn b a then innerScan a tl
    else let '(e, r) := innerScan a tl in (e, b :: r)
  end.

(** The outer loop of [pruneFreeList] seen from index [i]: what happens to
    the rectangles from [i] on. *)
Fixpoint pruneScan (fuel : nat) (l : list Rect.t) : list Rect.t :=
  match fuel with
  | O => l
  | S fuel =>
    match l with
    | [] => []
    | a :: tl =>
      let '(e, r) := innerScan a tl in
      if e then pruneScan fuel r else a :: pruneScan fuel r
    end
  end.

(** The four members of a [Rect] are [int]s. *)
Definition intRect (r : Rect.t) : Prop :=
  Int.in_range (Rect.x r) /\ Int.in_range (Rect.y r)
  /\ Int.in_range (Rect.width r) /\ Int.in_range (Rect.height r).

(** A call of the single-rectangle [insert]: its three arguments. *)
Module Request.
Record t : Set := mk { width : Z; height : Z; method : FreeRectChoiceHeuristic }.

(** The requested sides are positive [int]s. *)
Definition positive (q : t) : Prop :=
  0 < width q <= Int.INT_MAX /\ 0 < height q <= Int.INT_MAX.
End Request.

(** The packer after a sequence of [insert] calls. *)
Definition insertAll (reqs : list Request.t) (s : MaxRectsBinPack) : MaxRectsBinPack :=
  fold_left
    (fun s q => (insert (Request.width q) (Request.height q) (Request.method q) s).2)
    reqs s.

(** A disjoint-rectangle accumulator fed with a list of rectangles: whether
    every [add] returned [true], and the rectangles it holds at the end. *)
Definition addAll (l : list Rect.t) : bool * list Rect.t :=
  fold_left
    (fun acc r =>
       let '(ok, rects) := DisjointRectCollection.add acc.2 r in (acc.1 && ok, rects))
    l (true, []).

(** What holds of a packer between calls: the bin sides are positive [int]s,
    free and used rectangles have positive sides and lie in the bin, no free
    rectangle shares area with a used one, and no two used ones do. *)
Record packInv (s : MaxRectsBinPack) : Prop := mkPackInv {
  inv_width : 0 < binWidth s <= Int.INT_MAX;
  inv_height : 0 < binHeight s <= Int.INT_MAX;
  inv_free : Forall (inBin (binWidth s) (binHeight s)) (freeRectangles s);
  inv_used : Forall (inBin (binWidth s) (binHeight s)) (usedRectangles s);
  inv_free_used : Forall (fun f => Forall (apart f) (usedRectangles s)) (freeRectangles s);
  inv_disjoint : pairwise apart (usedRectangles s)
}.

(** The two scores [scoreRect] gives a pending size, and the order the
    batch [insert] compares them in: [score1] first, then [score2]. *)
Definition scoresOf (s : MaxRectsBinPack) (method : FreeRectChoiceHeuristic)
    (r : RectSize.t) : Z * Z :=
  let '(_, score1, score2) := scoreRect s (RectSize.width r) (RectSize.height r) method in
  (score1, score2).

Definition nodeOf (s : MaxRectsBinPack) (method : FreeRectChoiceHeuristic)
    (r : RectSize.t) : Rect.t :=
  (scoreRect s (RectSize.width r) (RectSize.height r) method).1.1.

Definition lexLe (a b : Z * Z) : Prop := a.1 < b.1 \/ (a.1 = b.1 /\ a.2 <= b.2).

(** The contact score the contact-point scorer reports for a pending size. *)
Definition contactScoreOf (s : MaxRectsBinPack) (r : RectSize.t) : Z :=
  (findPositionForNewNodeContactPoint s (RectSize.width r) (RectSize.height r)).2.

(** What the loop over the pending sizes knows after the sizes [seen]: its
    best scores are not above those of any size seen, and they are the
    initial ones or those of the size at [bestRectIndex], which are then
    below the initial ones. *)
Definition bestOfSeen (s : MaxRectsBinPack) (method : FreeRectChoiceHeuristic)
    (seen : list RectSize.t) (st : Z * Z * Z * Rect.t) : Prop :=
  let '(bestScore1, bestScore2, bestRectIndex, bestNode) := st in
  (forall j r, seen !! j = Some r -> lexLe (bestScore1, bestScore2) (scoresOf s method r))
  /\ ((bestRectIndex = -1 /\ bestScore1 = Int.INT_MAX /\ bestScore2 = Int.INT_MAX)
      \/ exists (k : nat) r,
           bestRectIndex = Z.of_nat k /\ seen !! k = Some r
           /\ bestNode = nodeOf s method r
           /\ (bestScore1, bestScore2) = scoresOf s method r
           /\ (bestScore1 < Int.INT_MAX
               \/ (bestScore1 = Int.INT_MAX /\ bestScore2 < Int.INT_MAX))).

(** The length of the overlap of the intervals [[s1, e1]] and [[s2, e2]],
    zero when they do not overlap; in exact arithmetic. *)
Definition overlap (s1 e1 s2 e2 : Z) : Z := Z.max 0 (Z.min e1 e2 - Z.max s1 s2).

Definition sumOver (t : Rect.t -> Z) (l : list Rect.t) : Z :=
  fold_right (fun u acc => t u + acc) 0 l.

(** What a used rectangle [u] adds to the contact score of a placement at
    [(x, y)] of size [w] by [h], as the code computes it: the overlap of the
    vertical extents when a vertical edge of [u] is on the line of the
    opposite vertical edge of the placement, and the same for the horizontal
    edges; in exact arithmetic. *)
Definition touchVertical (x y w h : Z) (u : Rect.t) : Z :=
  if (Rect.x u =? x + w) || (Rect.x u + Rect.width u =? x)
  then overlap (Rect.y u) (Rect.y u + Rect.height u) y (y + h) else 0.

Definition touchHorizontal (x y w h : Z) (u : Rect.t) : Z :=
  if (Rect.y u =? y + h) || (Rect.y u + Rect.height u =? y)
  then overlap (Rect.x u) (Rect.x u + Rect.width u) x (x + w) else 0.

(** The contact score as the code computes it, in exact arithmetic: [h]
    once when the placement is flush against the left or the right bin edge,
    [w] once when it is flush against the top or the bottom bin edge, and
    the touching lengths with the used rectangles. *)
Definition contactExact (W H : Z) (used : list Rect.t) (x y w h : Z) : Z :=
  (if (x =? 0) || (x + w =? W) then h else 0)
  + (if (y =? 0) || (y + h =? H) then w else 0)
  + sumOver (fun u => touchVertical x y w h u + touchHorizontal x y w h u) used.

(** The contact score in the words of the specification: [h] for each of
    the two vertical bin edges the placement is flush against, [w] for each
    of the two horizontal ones, and for every used rectangle the overlap
    length of each of its edges that touches the opposite edge of the
    placement. *)
Definition contactSpec (W H : Z) (used : list Rect.t) (x y w h : Z) : Z :=
  (if x =? 0 then h else 0) + (if x + w =? W then h else 0)
  + (if y =? 0 then w else 0) + (if y + h =? H then w else 0)
  + sumOver (fun u =>
       (if Rect.x u =? x + w
        then overlap (Rect.y u) (Rect.y u + Rect.height u) y (y + h) else 0)
       + (if Rect.x u + Rect.width u =? x
          then overlap (Rect.y u) (Rect.y u + Rect.height u) y (y + h) else 0)
       + (if Rect.y u =? y + h
          then overlap (Rect.x u) (Rect.x u + Rect.width u) x (x + w) else 0)
       + (if Rect.y u + Rect.height u =? y
          then overlap (Rect.x u) (Rect.x u + Rect.width u) x (x + w) else 0)) used.

(** The contact score of a rectangle, taken as a placement. *)
Definition contactOf (s : MaxRectsBinPack) (r : Rect.t) : Z :=
  contactPointScoreNode (binWidth s) (binHeight s) (usedRectangles s)
    (Rect.x r) (Rect.y r) (Rect.width r) (Rect.height r).

(** For the rectangles selected by [sel], each with an interval from [lo]
    to [hi]: two selected rectangles have intervals that do not overlap, and
    what a rectangle's interval covers of [[a, b]]. *)
Definition separate (sel : Rect.t -> bool) (lo hi : Rect.t -> Z) (u v : Rect.t) : Prop :=
  sel u = true -> sel v = true -> hi u <= lo v \/ hi v <= lo u.

Definition part (sel : Rect.t -> bool) (lo hi : Rect.t -> Z) (a b : Z) (u : Rect.t) : Z :=
  if sel u then overlap (lo u) (hi u) a b else 0.

(** What the contact-point scorer knows after the free rectangles [seen]
    of a [w] by [h] request: no candidate among them scores above the running
    best, which is the initial one or a candidate among them with its
    score. *)
Definition contactBestOf (s : MaxRectsBinPack) (w h : Z) (seen : list Rect.t)
    (b : Best) : Prop :=
  (forall c, candidate seen w h c -> contactOf s c <= best1 b)
  /\ (b = mkBest Rect.zero (-1) 0
      \/ (candidate seen w h (bestNode b) /\ best1 b = contactOf s (bestNode b))).

(** One of the two tests of [contactPointBody]: the [w] by [h] candidate
    of [freeRect] replaces the running best when it has room and scores
    higher. *)
Definition contactTry (s : MaxRectsBinPack) (w h : Z) (b : Best) (freeRect : Rect.t)
    : Best :=
  if fits freeRect w h then
    if contactOf s (placeAt freeRect w h) >? best1 b
    then mkBest (placeAt freeRect w h) (contactOf s (placeAt freeRect w h)) (best2 b)
    else b
  else b.

(** The unit cell with the corner [(px, py)] lies in [r]; in exact
    arithmetic. *)
Definition cellIn (px py : Z) (r : Rect.t) : Prop :=
  Rect.x r <= px < Rect.x r + Rect.width r
  /\ Rect.y r <= py < Rect.y r + Rect.height r.

(** Every unit cell of the bin lies in a used or in a free rectangle. *)
Definition covered (s : MaxRectsBinPack) : Prop :=
  forall px py, 0 <= px < binWidth s -> 0 <= py < binHeight s ->
    (exists u, u ∈ usedRectangles s /\ cellIn px py u)
    \/ (exists f, f ∈ freeRectangles s /\ cellIn px py f).

(** Every unit cell of the bin lies in a used rectangle. *)
Definition binFull (s : MaxRectsBinPack) : Prop :=
  forall px py, 0 <= px < binWidth s -> 0 <= py < binHeight s ->
    exists u, u ∈ usedRectangles s /\ cellIn px py u.

(** The loop of [occupancy]:
    [unsigned long usedSurfaceArea = 0; for (usedRect : usedRectangles)
    usedSurfaceArea += usedRect.width * usedRect.height;].  The product is an
    [int] product, converted to [unsigned long]; [ulongModulus] is 2 to the
    number of bits of [unsigned long] (32 or 64 according to the platform). *)
Definition usedSurfaceArea (ulongModulus : Z) (usedRectangles : list Rect.t) : Z :=
  fold_left
    (fun usedSurfaceArea usedRect =>
       (usedSurfaceArea
        + Int.mul (Rect.width usedRect) (Rect.height usedRect) mod ulongModulus)
       mod ulongModulus)
    usedRectangles 0.

(** The two integers that [occupancy] converts to [float] and divides: the
    used surface area and [binWidth * binHeight].  The division in [float]
    is not modelled. *)
Definition occupancyOperands (ulongModulus : Z) (s : MaxRectsBinPack) : Z * Z :=
  (usedSurfaceArea ulongModulus (usedRectangles s),
   Int.mul (binWidth s) (binHeight s)).

(** The part of the area of [r] in the rows [0] to [n - 1], and what the
    row [n] adds to it. *)
Definition slab (n : Z) (r : Rect.t) : Z :=
  Rect.width r * overlap (Rect.y r) (Rect.y r + Rect.height r) 0 n.

Definition inRow (n : Z) (r : Rect.t) : bool :=
  (Rect.y r <=? n) && (n <? Rect.y r + Rect.height r).

(** main.cpp: the rotation [main] records for an image whose texture is
    [textureWidth] wide, from the rectangle [insert] returned for it:
[[
    if (static_cast<int>(imgTex[i]->getSize().x) == packedRect.height
        && packedRect.width != packedRect.height) rotation = 90;
    else rotation = 0;
]]
    [rotation] is a [float] that only takes these two values; it is stored
    as [static_cast<size_t>(rotation)]. *)
Definition rotationOf (textureWidth : Z) (packedRect : Rect.t) : Z :=
  if (textureWidth =? Rect.height packedRect)
     && negb (Rect.width packedRect =? Rect.height packedRect)
  then 90 else 0.

(** No free rectangle of the packer has room for a [w] by [h] rectangle, in
    either orientation. *)
Definition noRoom (s : MaxRectsBinPack) (w h : Z) : Prop :=
  forall f, f ∈ freeRectangles s -> fits f w h = false /\ fits f h w = false.

(** The comparison of the four scorers with two scores: the first score
    decides, the second one breaks ties. *)
Definition lexLt (a b : Z * Z) : bool :=
  (a.1 <? b.1) || ((a.1 =? b.1) && (a.2 <? b.2)).

(** The scores of the [w] by [h] candidate of a free rectangle, primary
    score first, as the four scorers compute them. *)
Definition shortLongKey (freeRect : Rect.t) (w h : Z) : Z * Z :=
  let leftoverHoriz := Int.abs (Int.sub (Rect.width freeRect) w) in
  let leftoverVert := Int.abs (Int.sub (Rect.height freeRect) h) in
  (Z.min leftoverHoriz leftoverVert, Z.max leftoverHoriz leftoverVert).

Definition longShortKey (freeRect : Rect.t) (w h : Z) : Z * Z :=
  let leftoverHoriz := Int.abs (Int.sub (Rect.width freeRect) w) in
  let leftoverVert := Int.abs (Int.sub (Rect.height freeRect) h) in
  (Z.max leftoverHoriz leftoverVert, Z.min leftoverHoriz leftoverVert).

Definition areaKey (freeRect : Rect.t) (w h : Z) : Z * Z :=
  let leftoverHoriz := Int.abs (Int.sub (Rect.width freeRect) w) in
  let leftoverVert := Int.abs (Int.sub (Rect.height freeRect) h) in
  (Int.sub (Int.mul (Rect.width freeRect) (Rect.height freeRect)) (Int.mul w h),
   Z.min leftoverHoriz leftoverVert).

Definition bottomLeftKey (freeRect : Rect.t) (w h : Z) : Z * Z :=
  (Int.add (Rect.y freeRect) h, Rect.x freeRect).

(** One of the two tests of such a scorer's loop body: the [w] by [h]
    candidate of [freeRect] replaces the running best when it has room and
    its scores are smaller. *)
Definition lexTry (key : Rect.t -> Z -> Z -> Z * Z) (w h : Z) (b : Best)
    (freeRect : Rect.t) : Best :=
  if fits freeRect w h then
    if lexLt (key freeRect w h) (best1 b, best2 b)
    then mkBest (placeAt freeRect w h) (key freeRect w h).1 (key freeRect w h).2
    else b
  else b.

(** The candidates of a [w] by [h] request among the free rectangles [l],
    each with its scores: [keyed key l w h k n] when [n] is the candidate of
    some free rectangle in an orientation that fits and [k] are its
    scores. *)
Definition keyed (key : Rect.t -> Z -> Z -> Z * Z) (l : list Rect.t) (w h : Z)
    (k : Z * Z) (n : Rect.t) : Prop :=
  exists f, f ∈ l /\
    ((fits f w h = true /\ k = key f w h /\ n = placeAt f w h)
     \/ (fits f h w = true /\ k = key f h w /\ n = placeAt f h w)).

(** What such a scorer knows about the candidates [met] so far: none has
    smaller scores than the running best, which is the initial one or one of
    them, with scores below the initial ones. *)
Definition lexBest (met : Z * Z -> Rect.t -> Prop) (b : Best) : Prop :=
  (forall k n, met k n -> lexLe (best1 b, best2 b) k)
  /\ lexLe (best1 b, best2 b) (Int.INT_MAX, Int.INT_MAX)
  /\ (b = mkBest Rect.zero Int.INT_MAX Int.INT_MAX
      \/ (met (best1 b, best2 b) (bestNode b)
          /\ lexLt (best1 b, best2 b) (Int.INT_MAX, Int.INT_MAX) = true)).

(** The sides of a pending size are positive [int]s. *)
Definition positiveSize (r : RectSize.t) : Prop :=
  0 < RectSize.width r <= Int.INT_MAX /\ 0 < RectSize.height r <= Int.INT_MAX.

(** [DisjointRectCollection] treats a rectangle with a zero side as
    degenerate; this is the test for the other ones. *)
Definition nonDegenerate (r : Rect.t) : bool :=
  negb ((Rect.width r =? 0) || (Rect.height r =? 0)).

(** ** main.cpp and Image.h *)

(** The numbers an [Image] holds, as its constructor stores them and its
    getters return them; they are [size_t].  The two strings of an [Image]
    (the sheet's file name and the image's name) are left out. *)
Module Image.
Record t : Set := mk { x : Z; y : Z; width : Z; height : Z; rotation : Z }.

Definition rect (i : t) : Rect.t := Rect.mk (x i) (y i) (width i) (height i).
End Image.

(** One round of the loop of [main] over the textures, without the drawing:
    the image is inserted, ["Error: The pack is full"] is printed when the
    returned height is not positive ([errors] counts these lines), the
    rotation is derived and an [Image] is appended with the returned
    rectangle and the rotation, all converted to [size_t]; [sizeModulus] is 2
    to the number of bits of [size_t].  A texture is its width and height as
    [main] casts them to [int]. *)
Definition mainStep (sizeModulus : Z) (method : FreeRectChoiceHeuristic)
    (st : MaxRectsBinPack * list Image.t * nat) (texture : Z * Z)
    : MaxRectsBinPack * list Image.t * nat :=
  let '(pack, images, errors) := st in
  let '(packedRect, pack) := insert texture.1 texture.2 method pack in
  let errors := if Rect.height packedRect <=? 0 then S errors else errors in
  let rotation := rotationOf texture.1 packedRect in
  (pack,
   images ++ [Image.mk (Rect.x packedRect mod sizeModulus)
                       (Rect.y packedRect mod sizeModulus)
                       (Rect.width packedRect mod sizeModulus)
                       (Rect.height packedRect mod sizeModulus)
                       (rotation mod sizeModulus)],
   errors).

(** The loop of [main] for a sheet of [W] by [H] ([main] has 512 by 512)
    and the heuristic [chooseBestHeuristic] gave. *)
Definition mainLoop (sizeModulus W H : Z) (method : FreeRectChoiceHeuristic)
    (textures : list (Z * Z)) : MaxRectsBinPack * list Image.t * nat :=
  fold_left (mainStep sizeModulus method) textures (init W H, [], 0%nat).

(** The width and the height of a texture are positive [int]s. *)
Definition positiveTexture (t : Z * Z) : Prop :=
  0 < t.1 <= Int.INT_MAX /\ 0 < t.2 <= Int.INT_MAX.

(** * Properties *)

(** ** Machine arithmetic: lemmas *)

Lemma wrap_in_range z : Int.in_range (Int.wrap z).
Proof.
  unfold Int.in_range, Int.wrap, Int.INT_MIN, Int.INT_MAX.
  pose proof (Z.mod_pos_bound (z + 2147483648) 4294967296). lia.
Qed.

Lemma wrap_id z : Int.in_range z -> Int.wrap z = z.
Proof.
  unfold Int.in_range, Int.wrap, Int.INT_MIN, Int.INT_MAX. intros Hz.
  rewrite Z.mod_small by lia. lia.
Qed.

Lemma wrap_le_max z : Int.wrap z <= Int.INT_MAX.
Proof. apply wrap_in_range. Qed.

(** Turns the boolean tests of the source into propositions. *)
Ltac bool_to_prop :=
  repeat match goal with
  | H : _ && _ = true |- _ => apply andb_true_iff in H; destruct H
  | H : _ || _ = false |- _ => apply orb_false_iff in H; destruct H
  | H : _ && _ = false |- _ => apply andb_false_iff in H; destruct H
  | H : _ || _ = true |- _ => apply orb_true_iff in H; destruct H
  | H : negb _ = true |- _ => apply negb_true_iff in H
  | H : negb _ = false |- _ => apply negb_false_iff in H
  | H : (_ >=? _) = _ |- _ => rewrite Z.geb_leb in H
  | H : (_ >? _) = _ |- _ => rewrite Z.gtb_ltb in H
  | H : (_ <=? _) = true |- _ => apply Z.leb_le in H
  | H : (_ <=? _) = false |- _ => apply Z.leb_gt in H
  | H : (_ <? _) = true |- _ => apply Z.ltb_lt in H
  | H : (_ <? _) = false |- _ => apply Z.ltb_ge in H
  | H : (_ =? _) = true |- _ => apply Z.eqb_eq in H
  | H : (_ =? _) = false |- _ => apply Z.eqb_neq in H
  end.

(** Removes the reductions modulo 2^32 whose argument is visibly in range. *)
Ltac unwrap :=
  unfold Int.add, Int.sub, Int.neg, Int.abs in *;
  repeat match goal with
  | |- context [Int.wrap ?z] =>
      rewrite (wrap_id z) by (unfold Int.in_range, Int.INT_MIN, Int.INT_MAX in *; lia)
  | H : context [Int.wrap ?z] |- _ =>
      rewrite (wrap_id z) in H by (unfold Int.in_range, Int.INT_MIN, Int.INT_MAX in *; lia)
  end.

Ltac step_ok_tac :=
  intros [n k1 k2] f; unfold fits, placeAt; cbn beta iota delta -[Z.geb Z.ltb Z.eqb Z.gtb Z.min Z.max];
  repeat match goal with
  | |- context [if ?c then _ else _] => destruct c eqn:?; cbn [bestNode]
  end; auto.

(** ** The scorers: where the returned rectangle comes from *)

Lemma bottomLeftBody_ok w h : step_ok (bottomLeftBody w h) w h.
Proof. unfold bottomLeftBody. step_ok_tac. Qed.

Lemma bestShortSideFitBody_ok w h : step_ok (bestShortSideFitBody w h) w h.
Proof. unfold bestShortSideFitBody. step_ok_tac. Qed.

Lemma bestLongSideFitBody_ok w h : step_ok (bestLongSideFitBody w h) w h.
Proof. unfold bestLongSideFitBody. step_ok_tac. Qed.

Lemma bestAreaFitBody_ok w h : step_ok (bestAreaFitBody w h) w h.
Proof. unfold bestAreaFitBody. step_ok_tac. Qed.

Lemma contactPointBody_ok W H used w h : step_ok (contactPointBody W H used w h) w h.
Proof. unfold contactPointBody. step_ok_tac. Qed.

Lemma fold_step_ok body w h :
  step_ok body w h ->
  forall l b,
    fold_left body l b = b \/ candidate l w h (bestNode (fold_left body l b)).
Proof.
  intros Hok l. induction l as [|f l IH]; intros b; cbn [fold_left]; [by left|].
  destruct (IH (body b f)) as [-> | (f' & Hin & Hc)].
  - destruct (Hok b f) as [-> | Hc]; [by left|].
    right. exists f. split; [left | exact Hc].
  - right. exists f'. split; [by right | exact Hc].
Qed.

Lemma findPosition_cases m s w h :
  findPosition m s w h = Rect.zero
  \/ candidate (freeRectangles s) w h (findPosition m s w h).
Proof.
  destruct m; cbn [findPosition findPositionForNewNodeBestShortSideFit
    findPositionForNewNodeBestLongSideFit findPositionForNewNodeBestAreaFit
    findPositionForNewNodeBottomLeft findPositionForNewNodeContactPoint fst].
  - destruct (fold_step_ok _ w h (bestShortSideFitBody_ok w h) (freeRectangles s)
      (mkBest Rect.zero Int.INT_MAX Int.INT_MAX)) as [-> | Hc]; [by left | by right].
  - destruct (fold_step_ok _ w h (bestLongSideFitBody_ok w h) (freeRectangles s)
      (mkBest Rect.zero Int.INT_MAX Int.INT_MAX)) as [-> | Hc]; [by left | by right].
  - destruct (fold_step_ok _ w h (bestAreaFitBody_ok w h) (freeRectangles s)
      (mkBest Rect.zero Int.INT_MAX Int.INT_MAX)) as [-> | Hc]; [by left | by right].
  - destruct (fold_step_ok _ w h (bottomLeftBody_ok w h) (freeRectangles s)
      (mkBest Rect.zero Int.INT_MAX Int.INT_MAX)) as [-> | Hc]; [by left | by right].
  - destruct (fold_step_ok _ w h
      (contactPointBody_ok (binWidth s) (binHeight s) (usedRectangles s) w h)
      (freeRectangles s) (mkBest Rect.zero (-1) 0)) as [-> | Hc]; [by left | by right].
Qed.

(** The size of what a scorer returns: all zero, or the request, possibly
    turned by 90 degrees. *)
Lemma findPosition_size m s w h :
  let r := findPosition m s w h in
  (Rect.width r = 0 /\ Rect.height r = 0)
  \/ (Rect.width r = w /\ Rect.height r = h)
  \/ (Rect.width r = h /\ Rect.height r = w).
Proof.
  cbn zeta. destruct (findPosition_cases m s w h) as [-> | (f & _ & [[_ ->] | [_ ->]])];
    cbn; auto.
Qed.

Lemma insert_early_return s w h m :
  Rect.height (findPosition m s w h) = 0 ->
  insert w h m s = (findPosition m s w h, s).
Proof.
  intros Hz. unfold insert. rewrite Hz. reflexivity.
Qed.

(** ** C2 and C10: failed insertions *)

(** C2. When the scorer chosen by a single-rectangle [insert] returns a
    rectangle of height zero, [insert] returns that rectangle and the packer
    (bin size, used list, free list) is the one before the call. *)
Theorem insert_sentinel_noop (s : MaxRectsBinPack) (width height : Z)
    (method : FreeRectChoiceHeuristic) :
  Rect.height (findPosition method s width height) = 0 ->
  insert width height method s = (findPosition method s width height, s).
Proof.
  exact (insert_early_return s width height method).
Qed.

(** Scenario B of the specification: a 12 by 5 request in a 10 by 10 bin. *)
Lemma insert_sentinel_noop_witness :
  Rect.height (findPosition RectBestShortSideFit (init 10 10) 12 5) = 0
  /\ insert 12 5 RectBestShortSideFit (init 10 10)
     = (findPosition RectBestShortSideFit (init 10 10) 12 5, init 10 10).
Proof.
  split; [reflexivity|].
  apply (insert_sentinel_noop (init 10 10) 12 5 RectBestShortSideFit). reflexivity.
Defined.

(** C10. In every packer state and under each of the five heuristics, a
    request of width 0 and height 0 returns a rectangle of height 0 and
    leaves the packer as it was, while every free rectangle whose sides are
    not negative has room for the request, in both orientations. *)
Theorem insert_zero_request (s : MaxRectsBinPack) (method : FreeRectChoiceHeuristic) :
  Rect.height (insert 0 0 method s).1 = 0
  /\ (insert 0 0 method s).2 = s
  /\ Forall (fun f => 0 <= Rect.width f -> 0 <= Rect.height f -> fits f 0 0 = true)
       (freeRectangles s).
Proof.
  assert (Hz : Rect.height (findPosition method s 0 0) = 0).
  { destruct (findPosition_size method s 0 0) as [[_ H] | [[_ H] | [_ H]]]; exact H. }
  unfold insert. rewrite Hz. cbn. split; [exact Hz|]. split; [reflexivity|].
  apply Forall_forall. intros f _ Hw Hh. unfold fits.
  rewrite !Z.geb_leb. apply andb_true_iff. split; apply Z.leb_le; lia.
Qed.

(** ** Splitting *)

Lemma splitFreeNode_app f u fr :
  splitFreeNode f u fr = (splits f u, fr ++ splitAdds f u).
Proof.
  unfold splits, splitAdds, splitFreeNode.
  repeat match goal with
  | |- context [if ?c then _ else _] => destruct c; cbn [fst snd app]
  end; rewrite ?app_nil_r, <- ?app_assoc; reflexivity.
Qed.

Lemma splits_false_adds f u : splits f u = false -> splitAdds f u = [].
Proof.
  unfold splits, splitAdds, splitFreeNode.
  destruct (_ || _); [reflexivity | discriminate].
Qed.

(** The loop of [insert] and [placeRect], entered with [pre] already
    settled, [rest] to process and [added] appended so far: the rectangles of
    [rest] that are split leave, what their splits append goes to the end. *)
Lemma splitLoop_spec u rest :
  forall pre added fuel,
    (length rest <= fuel)%nat ->
    splitLoop fuel (length pre) (length pre + length rest) u (pre ++ rest ++ added)
    = pre ++ List.filter (fun f => negb (splits f u)) rest
          ++ added ++ flat_map (fun f => splitAdds f u) rest.
Proof.
  induction rest as [|f rest IH]; intros pre added fuel Hfuel.
  - cbn [length List.filter flat_map app]. rewrite Nat.add_0_r, app_nil_r.
    destruct fuel; cbn [splitLoop]; [reflexivity|].
    rewrite Nat.ltb_irrefl. reflexivity.
  - destruct fuel as [|fuel]; [cbn in Hfuel; lia|].
    cbn [splitLoop length].
    assert (Hlt : (length pre <? length pre + S (length rest))%nat = true)
      by (apply Nat.ltb_lt; lia).
    rewrite Hlt. cbn [app]. rewrite list_lookup_middle by reflexivity.
    rewrite splitFreeNode_app. cbn [List.filter flat_map].
    destruct (splits f u) eqn:Hs; cbn [negb].
    + replace ((pre ++ f :: rest ++ added) ++ splitAdds f u)
        with (pre ++ f :: rest ++ (added ++ splitAdds f u))
        by (rewrite <- app_assoc; cbn [app]; rewrite <- app_assoc; reflexivity).
      rewrite delete_middle.
      replace (length pre + S (length rest) - 1)%nat
        with (length pre + length rest)%nat by lia.
      rewrite IH by (cbn in Hfuel; lia).
      rewrite <- !app_assoc. reflexivity.
    + rewrite (splits_false_adds _ _ Hs), app_nil_r. cbn [app].
      replace (pre ++ f :: rest ++ added) with ((pre ++ [f]) ++ rest ++ added)
        by (rewrite <- app_assoc; reflexivity).
      replace (S (length pre)) with (length (pre ++ [f]))
        by (rewrite length_app; cbn; lia).
      replace (length pre + S (length rest))%nat
        with (length (pre ++ [f]) + length rest)%nat
        by (rewrite length_app; cbn; lia).
      rewrite IH by (cbn in Hfuel; lia).
      rewrite <- !app_assoc. reflexivity.
Qed.

(** The whole loop, as [insert] and [placeRect] run it. *)
Lemma splitLoop_all u fr :
  splitLoop (length fr) 0 (length fr) u fr
  = List.filter (fun f => negb (splits f u)) fr ++ flat_map (fun f => splitAdds f u) fr.
Proof.
  pose proof (splitLoop_spec u fr [] [] (length fr) (le_n _)) as H.
  cbn [length app] in H. rewrite app_nil_r in H. exact H.
Qed.

(** The fuel given to the split loop is enough: more of it changes
    nothing. *)
Lemma splitLoop_enough fuel u fr :
  (length fr <= fuel)%nat ->
  splitLoop fuel 0 (length fr) u fr = splitLoop (length fr) 0 (length fr) u fr.
Proof.
  intros Hfuel.
  pose proof (splitLoop_spec u fr [] [] fuel Hfuel) as H1.
  pose proof (splitLoop_spec u fr [] [] (length fr) (le_n _)) as H2.
  cbn [length app] in H1, H2. rewrite app_nil_r in H1, H2.
  cbn [Nat.add] in H1, H2. by rewrite H1, H2.
Qed.

Lemma pos_mul_ltb a b : 0 < a -> (0 <? a * b) = (0 <? b).
Proof.
  intros Ha. destruct (Z.ltb_spec 0 b) as [Hb|Hb].
  - apply Z.ltb_lt. nia.
  - apply Z.ltb_ge. nia.
Qed.

(** With a free rectangle of positive sides, a sliver has positive area
    exactly when the gap on its side is positive. *)
Lemma residuals_unfold f u :
  0 < Rect.width f -> 0 < Rect.height f ->
  residuals f u
  = (if Rect.y f <? Rect.y u then [sliverAbove f u] else [])
    ++ (if Rect.y u + Rect.height u <? Rect.y f + Rect.height f
        then [sliverBelow f u] else [])
    ++ (if Rect.x f <? Rect.x u then [sliverLeft f u] else [])
    ++ (if Rect.x u + Rect.width u <? Rect.x f + Rect.width f
        then [sliverRight f u] else []).
Proof.
  intros Hw Hh. unfold residuals, area. cbn [List.filter Rect.width Rect.height
    sliverAbove sliverBelow sliverLeft sliverRight].
  rewrite !(pos_mul_ltb (Rect.width f)) by assumption.
  rewrite !(Z.mul_comm _ (Rect.height f)).
  rewrite !(pos_mul_ltb (Rect.height f)) by assumption.
  replace (0 <? Rect.y u - Rect.y f) with (Rect.y f <? Rect.y u)
    by (destruct (Z.ltb_spec (Rect.y f) (Rect.y u));
        [symmetry; apply Z.ltb_lt | symmetry; apply Z.ltb_ge]; lia).
  replace (0 <? Rect.y f + Rect.height f - (Rect.y u + Rect.height u))
    with (Rect.y u + Rect.height u <? Rect.y f + Rect.height f)
    by (destruct (Z.ltb_spec (Rect.y u + Rect.height u) (Rect.y f + Rect.height f));
        [symmetry; apply Z.ltb_lt | symmetry; apply Z.ltb_ge]; lia).
  replace (0 <? Rect.x u - Rect.x f) with (Rect.x f <? Rect.x u)
    by (destruct (Z.ltb_spec (Rect.x f) (Rect.x u));
        [symmetry; apply Z.ltb_lt | symmetry; apply Z.ltb_ge]; lia).
  replace (0 <? Rect.x f + Rect.width f - (Rect.x u + Rect.width u))
    with (Rect.x u + Rect.width u <? Rect.x f + Rect.width f)
    by (destruct (Z.ltb_spec (Rect.x u + Rect.width u) (Rect.x f + Rect.width f));
        [symmetry; apply Z.ltb_lt | symmetry; apply Z.ltb_ge]; lia).
  repeat match goal with
  | |- context [if ?c then _ else _] => destruct c
  end; reflexivity.
Qed.

Section SplitInBin.

Variables W H : Z.
Hypothesis HW : W <= Int.INT_MAX.
Hypothesis HH : H <= Int.INT_MAX.

Variables f u : Rect.t.
Hypothesis Hf : inBin W H f.
Hypothesis Hu : inBin W H u.

Lemma disjoint2_apart : DisjointRectCollection.disjoint2 f u = true <-> apart f u.
Proof using HW HH Hf Hu.
  unfold DisjointRectCollection.disjoint2, apart.
  destruct Hf as (?&?&?&?&?&?), Hu as (?&?&?&?&?&?). unwrap.
  destruct (_ || _) eqn:E.
  - split; [intros _ | reflexivity].
    repeat (apply orb_true_iff in E; destruct E as [E|E]);
      apply Z.leb_le in E; lia.
  - split; [discriminate|]. intros Ha. bool_to_prop. lia.
Qed.

Lemma splits_disjoint2 : splits f u = negb (DisjointRectCollection.disjoint2 f u).
Proof using HW HH Hf Hu.
  unfold splits, splitFreeNode, DisjointRectCollection.disjoint2.
  destruct Hf as (?&?&?&?&?&?), Hu as (?&?&?&?&?&?). unwrap.
  rewrite !Z.geb_leb.
  destruct (Z.leb_spec (Rect.x f + Rect.width f) (Rect.x u)),
    (Z.leb_spec (Rect.x u + Rect.width u) (Rect.x f)),
    (Z.leb_spec (Rect.y f + Rect.height f) (Rect.y u)),
    (Z.leb_spec (Rect.y u + Rect.height u) (Rect.y f)); reflexivity.
Qed.

Lemma splits_apart : splits f u = false <-> apart f u.
Proof using HW HH Hf Hu.
  rewrite splits_disjoint2, negb_false_iff. apply disjoint2_apart.
Qed.

Lemma splitAdds_residuals : splits f u = true -> splitAdds f u = residuals f u.
Proof using HW HH Hf Hu.
  intros Hs. assert (Hna : ~ apart f u).
  { intros Ha. apply splits_apart in Ha. congruence. }
  unfold apart in Hna.
  destruct Hf as (?&?&?&?&?&?), Hu as (?&?&?&?&?&?).
  rewrite residuals_unfold by assumption.
  unfold splitAdds, splitFreeNode, sliverAbove, sliverBelow, sliverLeft, sliverRight.
  unwrap. rewrite !Z.geb_leb, !Z.gtb_ltb.
  repeat match goal with
  | |- context [Z.leb ?a ?b] => destruct (Z.leb_spec a b); try lia
  | |- context [Z.ltb ?a ?b] => destruct (Z.ltb_spec a b); try lia
  end; cbn; unwrap; reflexivity.
Qed.

(** A residual has positive sides, lies in the free rectangle it comes
    from and is clear of the used rectangle. *)
Lemma residuals_sound r :
  r ∈ residuals f u -> ~ apart f u ->
  0 < Rect.width r /\ 0 < Rect.height r /\ within r f /\ apart r u.
Proof using Hf Hu.
  intros Hin Hna. unfold apart in Hna.
  destruct Hf as (?&?&?&?&?&?), Hu as (?&?&?&?&?&?).
  rewrite residuals_unfold in Hin by assumption.
  unfold within, apart.
  repeat (apply elem_of_app in Hin; destruct Hin as [Hin|Hin]);
    (match type of Hin with
     | context [Z.ltb ?a ?b] => destruct (Z.ltb_spec a b)
     end; [|by apply elem_of_nil in Hin]);
    apply list_elem_of_singleton in Hin; subst r; cbn; lia.
Qed.

End SplitInBin.

(** The list the split loop leaves, in the words of the specification: the
    rectangles that do not intersect [r] stay, in their order, and the
    residuals of those that do follow, in their order. *)
Lemma split_list_as_residuals W H r l :
  W <= Int.INT_MAX -> H <= Int.INT_MAX -> inBin W H r -> Forall (inBin W H) l ->
  List.filter (fun f => negb (splits f r)) l ++ flat_map (fun f => splitAdds f r) l
  = List.filter (fun f => DisjointRectCollection.disjoint2 f r) l
    ++ flat_map (fun f => if DisjointRectCollection.disjoint2 f r then []
                          else residuals f r) l.
Proof.
  intros HW HH Hr Hl. f_equal.
  - induction Hl as [|f l Hf _ IH]; cbn [List.filter]; [reflexivity|].
    rewrite (splits_disjoint2 W H HW HH f r Hf Hr), negb_involutive, IH. reflexivity.
  - induction Hl as [|f l Hf _ IH]; cbn [flat_map]; [reflexivity|].
    rewrite IH. f_equal.
    pose proof (splits_disjoint2 W H HW HH f r Hf Hr) as Hs.
    destruct (DisjointRectCollection.disjoint2 f r); cbn [negb] in Hs.
    + by apply splits_false_adds.
    + by apply (splitAdds_residuals W H HW HH f r Hf Hr).
Qed.

(** C7. Let the rectangles of the free list and a used rectangle [u] have
    positive sides and lie in a bin whose sides fit an [int], as they do in
    every packer initialised with positive sides.  For a free rectangle [f]
    of the list that intersects [u], [splitFreeNode] reports a split and
    appends the residuals (the slivers of [f] above, below, left of and right
    of [u] that have positive area, at most four, none with a zero side), and
    the loop of [insert] erases [f]: [f] is not in the list the loop leaves,
    and its residuals are.  For a free rectangle that does not intersect [u],
    [splitFreeNode] reports no split and leaves the list as it is, and the
    rectangle is in the list the loop leaves.  That list is the free
    rectangles that do not intersect [u], in their order, followed by the
    residuals of those that do, in their order; none of its rectangles
    intersects [u]. *)
Theorem split_and_erase (W H : Z) (fr : list Rect.t) (u : Rect.t) :
  W <= Int.INT_MAX -> H <= Int.INT_MAX ->
  Forall (inBin W H) fr -> inBin W H u ->
  let fr' := splitLoop (length fr) 0 (length fr) u fr in
  (forall f, f ∈ fr -> DisjointRectCollection.disjoint2 f u = false ->
     (forall l, splitFreeNode f u l = (true, l ++ residuals f u))
     /\ (length (residuals f u) <= 4)%nat
     /\ Forall (fun r => 0 < Rect.width r /\ 0 < Rect.height r) (residuals f u)
     /\ ~ f ∈ fr'
     /\ Forall (fun r => r ∈ fr') (residuals f u))
  /\ (forall f, f ∈ fr -> DisjointRectCollection.disjoint2 f u = true ->
     (forall l, splitFreeNode f u l = (false, l)) /\ f ∈ fr')
  /\ fr' = List.filter (fun f => DisjointRectCollection.disjoint2 f u) fr
           ++ flat_map (fun f => if DisjointRectCollection.disjoint2 f u then []
                                 else residuals f u) fr
  /\ Forall (fun g => DisjointRectCollection.disjoint2 g u = true) fr'.
Proof.
  intros HW HH Hfr Hu fr'.
  assert (Hall : fr' = List.filter (fun f => DisjointRectCollection.disjoint2 f u) fr
                       ++ flat_map (fun f => if DisjointRectCollection.disjoint2 f u
                                             then [] else residuals f u) fr).
  { subst fr'. rewrite splitLoop_all. by apply (split_list_as_residuals W H). }
  pose proof Hfr as Hin. rewrite Forall_forall in Hin.
  assert (Hsound : forall f r, f ∈ fr -> DisjointRectCollection.disjoint2 f u = false ->
            r ∈ residuals f u ->
            0 < Rect.width r /\ 0 < Rect.height r
            /\ DisjointRectCollection.disjoint2 r u = true).
  { intros f r Hf Hd Hr.
    assert (Hna : ~ apart f u).
    { intros Ha. apply (disjoint2_apart W H HW HH f u (Hin f Hf) Hu) in Ha. congruence. }
    destruct (residuals_sound W H f u (Hin f Hf) Hu r Hr Hna) as (Hw & Hh & Hwi & Hap).
    split; [exact Hw|]. split; [exact Hh|].
    assert (Hrb : inBin W H r).
    { pose proof (Hin f Hf) as Hfb. unfold within, inBin in *. lia. }
    by apply (disjoint2_apart W H HW HH r u Hrb Hu). }
  assert (Hclear : Forall (fun g => DisjointRectCollection.disjoint2 g u = true) fr').
  { rewrite Hall. apply Forall_app. split; apply Forall_forall; intros g Hg.
    - by apply list_elem_of_In, filter_In in Hg as [_ Hg].
    - apply list_elem_of_In, in_flat_map in Hg as (f & Hf & Hg).
      apply list_elem_of_In in Hf.
      destruct (DisjointRectCollection.disjoint2 f u) eqn:Hd; [destruct Hg|].
      apply list_elem_of_In in Hg. by destruct (Hsound f g Hf Hd Hg) as (_ & _ & ?). }
  split; [|split; [|split; [exact Hall | exact Hclear]]].
  - intros f Hf Hd.
    pose proof (splits_disjoint2 W H HW HH f u (Hin f Hf) Hu) as Hs.
    rewrite Hd in Hs. cbn [negb] in Hs.
    split; [|split; [|split; [|split]]].
    + intros l. rewrite splitFreeNode_app, Hs.
      by rewrite (splitAdds_residuals W H HW HH f u (Hin f Hf) Hu Hs).
    + unfold residuals. etransitivity; [apply filter_length_le|]. reflexivity.
    + apply Forall_forall. intros r Hr.
      destruct (Hsound f r Hf Hd Hr) as (? & ? & _). by split.
    + intros Hmem. rewrite Forall_forall in Hclear.
      specialize (Hclear f Hmem). congruence.
    + apply Forall_forall. intros r Hr. rewrite Hall. apply elem_of_app. right.
      apply list_elem_of_In, in_flat_map. exists f.
      split; [by apply list_elem_of_In|]. rewrite Hd. by apply list_elem_of_In.
  - intros f Hf Hd.
    pose proof (splits_disjoint2 W H HW HH f u (Hin f Hf) Hu) as Hs.
    rewrite Hd in Hs. cbn [negb] in Hs. split.
    + intros l. by rewrite splitFreeNode_app, Hs, (splits_false_adds _ _ Hs), app_nil_r.
    + rewrite Hall. apply elem_of_app. left.
      apply list_elem_of_In, filter_In. split; [by apply list_elem_of_In | exact Hd].
Qed.

(** A 2 by 2 rectangle placed in the corner of a 4 by 4 bin whose free list
    holds the left half, which it intersects, and the right half, which it
    does not: the left half leaves the list and its one residual joins it. *)
Lemma split_and_erase_witness :
  splitLoop 2 0 2 (Rect.mk 0 0 2 2) [Rect.mk 0 0 2 4; Rect.mk 2 0 2 4]
  = [Rect.mk 2 0 2 4; Rect.mk 0 2 2 2].
Proof.
  refine (proj1 (proj2 (proj2 (split_and_erase 4 4 [Rect.mk 0 0 2 4; Rect.mk 2 0 2 4]
    (Rect.mk 0 0 2 2) _ _ _ _)))).
  - unfold Int.INT_MAX; lia.
  - unfold Int.INT_MAX; lia.
  - repeat constructor; cbn; lia.
  - unfold inBin; cbn; lia.
Defined.

(** ** Pruning *)

Lemma pruneInner_spec a tl :
  forall pre mid fuel,
    (length tl <= fuel)%nat ->
    pruneInner fuel (length pre) (length pre + 1 + length mid) (pre ++ a :: mid ++ tl)
    = if (innerScan a tl).1 then (true, pre ++ mid ++ (innerScan a tl).2)
      else (false, pre ++ a :: mid ++ (innerScan a tl).2).
Proof.
  induction tl as [|b tl IH]; intros pre mid fuel Hfuel.
  - cbn [innerScan fst snd]. destruct fuel; cbn [pruneInner]; [reflexivity|].
    rewrite list_lookup_middle by reflexivity.
    rewrite lookup_ge_None_2; [reflexivity|].
    rewrite length_app. cbn [length]. rewrite length_app. cbn [length]. lia.
  - destruct fuel as [|fuel]; [cbn in Hfuel; lia|].
    cbn [pruneInner innerScan].
    rewrite list_lookup_middle by reflexivity.
    assert (Hj : (pre ++ a :: mid ++ b :: tl) !! (length pre + 1 + length mid)%nat
                 = Some b).
    { replace (pre ++ a :: mid ++ b :: tl) with ((pre ++ a :: mid) ++ b :: tl)
        by (rewrite <- app_assoc; reflexivity).
      apply list_lookup_middle. rewrite length_app. cbn [length]. lia. }
    rewrite Hj.
    destruct (isContainedIn a b) eqn:Hab.
    + cbn [fst snd]. rewrite delete_middle. reflexivity.
    + destruct (isContainedIn b a) eqn:Hba.
      * replace (delete (length pre + 1 + length mid)%nat (pre ++ a :: mid ++ b :: tl))
          with (pre ++ a :: mid ++ tl).
        { apply IH. cbn in Hfuel. lia. }
        replace (pre ++ a :: mid ++ b :: tl) with ((pre ++ a :: mid) ++ b :: tl)
          by (rewrite <- app_assoc; reflexivity).
        replace (length pre + 1 + length mid)%nat with (length (pre ++ a :: mid))
          by (rewrite length_app; cbn [length]; lia).
        rewrite delete_middle, <- app_assoc. reflexivity.
      * replace (pre ++ a :: mid ++ b :: tl) with (pre ++ a :: (mid ++ [b]) ++ tl)
          by (rewrite <- app_assoc; reflexivity).
        replace (S (length pre + 1 + length mid))
          with (length pre + 1 + length (mid ++ [b]))%nat
          by (rewrite length_app; cbn [length]; lia).
        rewrite IH by (cbn in Hfuel; lia).
        destruct (innerScan a tl) as [e r]. cbn [fst snd].
        destruct e; rewrite <- app_assoc; reflexivity.
Qed.

Lemma innerScan_length a tl : (length (innerScan a tl).2 <= length tl)%nat.
Proof.
  induction tl as [|b tl IH]; cbn [innerScan]; [cbn; lia|].
  destruct (isContainedIn a b); [cbn; lia|].
  destruct (isContainedIn b a); [cbn [length]; lia|].
  destruct (innerScan a tl) as [e r]. cbn [snd length] in *. lia.
Qed.

Lemma pruneOuter_spec fuel :
  forall pre l, pruneOuter fuel (length pre) (pre ++ l) = pre ++ pruneScan fuel l.
Proof.
  induction fuel as [|fuel IH]; intros pre l; cbn [pruneOuter pruneScan]; [reflexivity|].
  destruct l as [|a tl].
  - rewrite app_nil_r, Nat.ltb_irrefl. reflexivity.
  - assert (Hlt : (length pre <? length (pre ++ a :: tl))%nat = true).
    { apply Nat.ltb_lt. rewrite length_app. cbn [length]. lia. }
    rewrite Hlt.
    pose proof (pruneInner_spec a tl pre [] (length (pre ++ a :: tl))) as Hin.
    cbn [length app] in Hin.
    replace (length pre + 1 + 0)%nat with (S (length pre)) in Hin by lia.
    rewrite Hin by (rewrite length_app; cbn [length]; lia).
    destruct (innerScan a tl) as [e r]. cbn [fst snd]. destruct e.
    + apply IH.
    + replace (pre ++ a :: r) with ((pre ++ [a]) ++ r)
        by (rewrite <- app_assoc; reflexivity).
      replace (S (length pre)) with (length (pre ++ [a]))
        by (rewrite length_app; cbn [length]; lia).
      rewrite IH, <- app_assoc. reflexivity.
Qed.

Lemma pruneFreeList_scan l : pruneFreeList l = pruneScan (length l) l.
Proof. unfold pruneFreeList. apply (pruneOuter_spec (length l) [] l). Qed.

Lemma innerScan_sublist a tl : (innerScan a tl).2 `sublist_of` tl.
Proof.
  induction tl as [|b tl IH]; cbn [innerScan]; [reflexivity|].
  destruct (isContainedIn a b); [reflexivity|].
  destruct (isContainedIn b a); [by apply sublist_cons|].
  destruct (innerScan a tl) as [e r]. cbn [snd] in *. by apply sublist_skip.
Qed.

Lemma pruneScan_sublist fuel : forall l, pruneScan fuel l `sublist_of` l.
Proof.
  induction fuel as [|fuel IH]; intros l; cbn [pruneScan]; [reflexivity|].
  destruct l as [|a tl]; [reflexivity|].
  pose proof (innerScan_sublist a tl) as Hs.
  destruct (innerScan a tl) as [e r]. cbn [snd] in Hs. destruct e.
  - apply sublist_cons. etransitivity; [apply IH | exact Hs].
  - apply sublist_skip. etransitivity; [apply IH | exact Hs].
Qed.

Lemma pruneFreeList_sublist l : pruneFreeList l `sublist_of` l.
Proof. rewrite pruneFreeList_scan. apply pruneScan_sublist. Qed.

(** The fuel given to the outer loop is enough: more of it changes
    nothing. *)
Lemma pruneScan_fuel f1 :
  forall f2 l, (length l <= f1)%nat -> (length l <= f2)%nat ->
    pruneScan f1 l = pruneScan f2 l.
Proof.
  induction f1 as [|f1 IH]; intros f2 l H1 H2.
  - destruct l; [by destruct f2 | cbn in H1; lia].
  - destruct l as [|a tl]; [by destruct f2|].
    destruct f2 as [|f2]; [cbn in H2; lia|]. cbn [pruneScan].
    pose proof (innerScan_length a tl) as Hlen.
    destruct (innerScan a tl) as [e r]. cbn [snd length] in *.
    rewrite (IH f2 r) by lia. reflexivity.
Qed.

Lemma pruneOuter_enough fuel l :
  (length l <= fuel)%nat -> pruneOuter fuel 0 l = pruneFreeList l.
Proof.
  intros Hfuel. rewrite pruneFreeList_scan.
  pose proof (pruneOuter_spec fuel [] l) as Hspec. cbn [app length] in Hspec.
  rewrite Hspec. by apply pruneScan_fuel.
Qed.

Lemma sublist_Forall {A} (P : A -> Prop) (l1 l2 : list A) :
  l1 `sublist_of` l2 -> Forall P l2 -> Forall P l1.
Proof.
  intros Hs Hall. apply Forall_forall. intros x Hx.
  rewrite Forall_forall in Hall. apply Hall. by eapply elem_of_sublist.
Qed.

Lemma pairwise_lookup {A} (R : A -> A -> Prop) (l : list A) :
  pairwise R l ->
  forall i j a b, (i < j)%nat -> l !! i = Some a -> l !! j = Some b -> R a b.
Proof.
  induction l as [|c l IH]; intros Hp i j a b Hij Hi Hj; [by destruct i|].
  destruct Hp as [Hall Hp]. destruct j as [|j]; [lia|]. cbn in Hj.
  destruct i as [|i].
  - cbn in Hi. injection Hi as ->.
    rewrite Forall_forall in Hall. apply Hall. by eapply list_elem_of_lookup_2.
  - cbn in Hi. apply (IH Hp i j); [lia | assumption | assumption].
Qed.

Lemma innerScan_kept a tl :
  (innerScan a tl).1 = false -> Forall (incomparable a) (innerScan a tl).2.
Proof.
  induction tl as [|b tl IH]; cbn [innerScan]; [constructor|].
  destruct (isContainedIn a b) eqn:Hab; [discriminate|].
  destruct (isContainedIn b a) eqn:Hba; [exact IH|].
  destruct (innerScan a tl) as [e r]. cbn [fst snd] in *.
  intros He. constructor; [by split | by apply IH].
Qed.

Lemma innerScan_erased a tl :
  (innerScan a tl).1 = true ->
  exists b, b ∈ (innerScan a tl).2 /\ isContainedIn a b = true.
Proof.
  induction tl as [|b tl IH]; cbn [innerScan]; [discriminate|].
  destruct (isContainedIn a b) eqn:Hab.
  - intros _. exists b. split; [left | exact Hab].
  - destruct (isContainedIn b a) eqn:Hba; [exact IH|].
    destruct (innerScan a tl) as [e r]. cbn [fst snd] in *.
    intros He. destruct (IH He) as (c & Hc & Hac).
    exists c. split; [by right | exact Hac].
Qed.

Lemma innerScan_dropped a tl x :
  x ∈ tl -> x ∈ (innerScan a tl).2 \/ isContainedIn x a = true.
Proof.
  induction tl as [|b tl IH]; cbn [innerScan]; intros Hx; [by left|].
  destruct (isContainedIn a b) eqn:Hab; [by left|].
  apply elem_of_cons in Hx.
  destruct (isContainedIn b a) eqn:Hba.
  - destruct Hx as [-> | Hx]; [by right | by apply IH].
  - destruct (innerScan a tl) as [e r]. cbn [snd] in *.
    destruct Hx as [-> | Hx]; [left; left|].
    destruct (IH Hx) as [Hr | Hc]; [left; by right | by right].
Qed.

Lemma innerScan_id a tl :
  Forall (incomparable a) tl -> innerScan a tl = (false, tl).
Proof.
  induction 1 as [|b tl [Hab Hba] _ IH]; cbn [innerScan]; [reflexivity|].
  rewrite Hab, Hba, IH. reflexivity.
Qed.

Lemma pruneScan_antichain fuel :
  forall l, (length l <= fuel)%nat -> pairwise incomparable (pruneScan fuel l).
Proof.
  induction fuel as [|fuel IH]; intros l Hl.
  - destruct l; [exact I | cbn in Hl; lia].
  - cbn [pruneScan]. destruct l as [|a tl]; [exact I|].
    pose proof (innerScan_length a tl) as Hlen.
    pose proof (innerScan_kept a tl) as Hkept.
    destruct (innerScan a tl) as [e r]. cbn [fst snd length] in *.
    destruct e; [apply IH; lia|].
    split; [|apply IH; lia].
    eapply sublist_Forall; [apply pruneScan_sublist | by apply Hkept].
Qed.

Lemma pruneScan_fix fuel :
  forall l, pairwise incomparable l -> pruneScan fuel l = l.
Proof.
  induction fuel as [|fuel IH]; intros l Hp; cbn [pruneScan]; [reflexivity|].
  destruct l as [|a tl]; [reflexivity|]. destruct Hp as [Hall Hp].
  rewrite (innerScan_id a tl Hall), (IH tl Hp). reflexivity.
Qed.

Lemma pruneFreeList_antichain l : pairwise incomparable (pruneFreeList l).
Proof. rewrite pruneFreeList_scan. by apply pruneScan_antichain. Qed.

Lemma pruneFreeList_fix l : pairwise incomparable l -> pruneFreeList l = l.
Proof. intros Hp. rewrite pruneFreeList_scan. by apply pruneScan_fix. Qed.

Lemma isContainedIn_refl a : isContainedIn a a = true.
Proof.
  unfold isContainedIn. rewrite !Z.geb_leb, !Z.leb_refl. reflexivity.
Qed.

Lemma isContainedIn_trans a b c :
  isContainedIn a b = true -> isContainedIn b c = true -> isContainedIn a c = true.
Proof.
  unfold isContainedIn. rewrite !Z.geb_leb, !andb_true_iff, !Z.leb_le. lia.
Qed.

(** Whatever [pruneFreeList] erases is contained in a rectangle it keeps. *)
Lemma pruneScan_covers fuel :
  forall l x, (length l <= fuel)%nat -> x ∈ l ->
    exists y, y ∈ pruneScan fuel l /\ isContainedIn x y = true.
Proof.
  induction fuel as [|fuel IH]; intros l x Hl Hx.
  - destruct l; [by apply elem_of_nil in Hx | cbn in Hl; lia].
  - cbn [pruneScan]. destruct l as [|a tl]; [by apply elem_of_nil in Hx|].
    pose proof (innerScan_length a tl) as Hlen.
    pose proof (innerScan_erased a tl) as Her.
    pose proof (fun z => innerScan_dropped a tl z) as Hdr.
    destruct (innerScan a tl) as [e r]. cbn [fst snd length] in *.
    assert (Hr : forall z, z ∈ r ->
              exists y, y ∈ pruneScan fuel r /\ isContainedIn z y = true).
    { intros z Hz. apply IH; [lia | exact Hz]. }
    apply elem_of_cons in Hx. destruct e.
    + destruct (Her eq_refl) as (b & Hb & Hab).
      assert (Ha : exists y, y ∈ pruneScan fuel r /\ isContainedIn a y = true).
      { destruct (Hr b Hb) as (y & Hy & Hby). exists y. split; [exact Hy|].
        by eapply isContainedIn_trans. }
      destruct Hx as [-> | Hx]; [exact Ha|].
      destruct (Hdr x Hx) as [Hxr | Hxa]; [by apply Hr|].
      destruct Ha as (y & Hy & Hay). exists y. split; [exact Hy|].
      by eapply isContainedIn_trans.
    + destruct Hx as [-> | Hx].
      * exists a. split; [left | apply isContainedIn_refl].
      * destruct (Hdr x Hx) as [Hxr | Hxa].
        -- destruct (Hr x Hxr) as (y & Hy & Hxy). exists y. split; [by right | exact Hxy].
        -- exists a. split; [left | exact Hxa].
Qed.

Lemma pruneFreeList_covers l x :
  x ∈ l -> exists y, y ∈ pruneFreeList l /\ isContainedIn x y = true.
Proof. intros Hx. rewrite pruneFreeList_scan. by apply pruneScan_covers. Qed.

Lemma wrap_add_cancel x a b :
  Int.in_range a -> Int.in_range b ->
  Int.wrap (x + a) = Int.wrap (x + b) -> a = b.
Proof.
  unfold Int.in_range, Int.wrap, Int.INT_MIN, Int.INT_MAX. intros Ha Hb Heq.
  revert Heq. Z.div_mod_to_equations. lia.
Qed.

Lemma isContainedIn_antisym a b :
  intRect a -> intRect b ->
  isContainedIn a b = true -> isContainedIn b a = true -> a = b.
Proof.
  intros (_ & _ & Haw & Hah) (_ & _ & Hbw & Hbh).
  unfold isContainedIn, Int.add. rewrite !Z.geb_leb, !andb_true_iff, !Z.leb_le.
  intros [[[Hx1 Hy1] Hw1] Hh1] [[[Hx2 Hy2] Hw2] Hh2].
  destruct a as [ax ay aw ah], b as [bx by_ bw bh]. cbn in *.
  assert (ax = bx) by lia. assert (ay = by_) by lia. subst bx by_.
  assert (aw = bw) by (apply (wrap_add_cancel ax); [assumption | assumption | lia]).
  assert (ah = bh) by (apply (wrap_add_cancel ay); [assumption | assumption | lia]).
  congruence.
Qed.

Lemma pairwise_elem_of {A} (R : A -> A -> Prop) (l : list A) a b :
  pairwise R l -> a ∈ l -> b ∈ l -> a <> b -> R a b \/ R b a.
Proof.
  intros Hp [i Hi]%list_elem_of_lookup [j Hj]%list_elem_of_lookup Hne.
  destruct (Nat.lt_trichotomy i j) as [Hlt | [-> | Hgt]].
  - left. by eapply (pairwise_lookup R l Hp i j).
  - congruence.
  - right. by eapply (pairwise_lookup R l Hp j i).
Qed.

Lemma antichain_NoDup l : pairwise incomparable l -> NoDup l.
Proof.
  induction l as [|a l IH]; [constructor|]. intros [Hall Hp].
  constructor; [|by apply IH].
  intros Hin. rewrite Forall_forall in Hall.
  destruct (Hall a Hin) as [Haa _]. rewrite isContainedIn_refl in Haa. discriminate.
Qed.

(** ** C8: pruning *)

(** C8. For every free list whose rectangles have [int] members,
    [pruneFreeList] applied twice gives the list it gives applied once.  One
    application keeps the order of what it keeps; a region of the list that
    is fully contained in another region of the list is not in the result,
    whichever of the two comes first; a region of the list that no other
    region of the list contains is in the result.  Regions are compared as
    rectangles, so that list entries with equal members are one region; the
    result holds every region it holds once. *)
Theorem pruneFreeList_idempotent (l : list Rect.t) :
  Forall intRect l ->
  pruneFreeList (pruneFreeList l) = pruneFreeList l
  /\ pruneFreeList l `sublist_of` l
  /\ (forall a b, a ∈ l -> b ∈ l -> a <> b -> isContainedIn a b = true ->
        a ∉ pruneFreeList l)
  /\ (forall a, a ∈ l -> (forall b, b ∈ l -> b <> a -> isContainedIn a b = false) ->
        a ∈ pruneFreeList l)
  /\ NoDup (pruneFreeList l).
Proof.
  intros Hint. rewrite Forall_forall in Hint.
  pose proof (pruneFreeList_antichain l) as Hanti.
  pose proof (pruneFreeList_sublist l) as Hsub.
  split; [by apply pruneFreeList_fix|]. split; [exact Hsub|].
  split; [|split; [|by apply antichain_NoDup]].
  - intros a b Ha Hb Hne Hab Hout.
    destruct (pruneFreeList_covers l b Hb) as (y & Hy & Hby).
    pose proof (isContainedIn_trans a b y Hab Hby) as Hay.
    destruct (decide (a = y)) as [<- | Hney].
    + apply Hne. apply isContainedIn_antisym; auto.
    + destruct (pairwise_elem_of incomparable _ a y Hanti Hout Hy Hney)
        as [[H1 _] | [_ H1]]; congruence.
  - intros a Ha Hnone.
    destruct (pruneFreeList_covers l a Ha) as (y & Hy & Hay).
    destruct (decide (y = a)) as [-> | Hne]; [exact Hy|].
    rewrite (Hnone y) in Hay; [discriminate | by eapply elem_of_sublist | exact Hne].
Qed.

(** Two overlapping free rectangles and a third one inside the first. *)
Lemma pruneFreeList_idempotent_witness :
  let l := [Rect.mk 0 0 4 2; Rect.mk 0 0 2 4; Rect.mk 1 0 2 2] in
  pruneFreeList (pruneFreeList l) = pruneFreeList l
  /\ pruneFreeList l = [Rect.mk 0 0 4 2; Rect.mk 0 0 2 4].
Proof.
  cbn zeta. split.
  - refine (proj1 (pruneFreeList_idempotent
      [Rect.mk 0 0 4 2; Rect.mk 0 0 2 4; Rect.mk 1 0 2 2] _)).
    repeat constructor; cbn; unfold Int.INT_MIN, Int.INT_MAX; lia.
  - reflexivity.
Defined.

(** A free list that holds one region twice: the pairwise scan erases the
    first entry and keeps the second. *)
Example pruneFreeList_equal_entries :
  pruneFreeList [Rect.mk 0 0 2 2; Rect.mk 2 0 2 2; Rect.mk 0 0 2 2]
  = [Rect.mk 2 0 2 2; Rect.mk 0 0 2 2].
Proof. reflexivity. Qed.

(** ** The packer invariant *)

Lemma apart_sym a b : apart a b -> apart b a.
Proof. unfold apart. lia. Qed.

Lemma apart_within r f u : within r f -> apart f u -> apart r u.
Proof. unfold within, apart. lia. Qed.

Lemma inBin_within W H r f :
  0 < Rect.width r -> 0 < Rect.height r -> within r f -> inBin W H f -> inBin W H r.
Proof. unfold within, inBin. lia. Qed.

Lemma fits_placeAt_within f w h : fits f w h = true -> within (placeAt f w h) f.
Proof.
  unfold fits, within, placeAt. intros Hf. bool_to_prop. cbn. lia.
Qed.

Lemma candidate_within l w h r :
  candidate l w h r ->
  exists f, f ∈ l /\ within r f
    /\ ((Rect.width r = w /\ Rect.height r = h) \/ (Rect.width r = h /\ Rect.height r = w)).
Proof.
  intros (f & Hin & [[Hf ->] | [Hf ->]]); exists f;
    (split; [exact Hin|]); (split; [by apply fits_placeAt_within|]); cbn; auto.
Qed.

Lemma pairwise_snoc {A} (R : A -> A -> Prop) (l : list A) (x : A) :
  pairwise R l -> Forall (fun a => R a x) l -> pairwise R (l ++ [x]).
Proof.
  induction l as [|a l IH]; cbn [pairwise app]; [by repeat constructor|].
  intros [Hall Hp] Hx. inversion Hx as [|? ? Hax Hlx]; subst.
  split; [|by apply IH].
  apply Forall_app. split; [exact Hall | by constructor].
Qed.

Lemma init_inv W H :
  0 < W <= Int.INT_MAX -> 0 < H <= Int.INT_MAX -> packInv (init W H).
Proof.
  intros HW HH. constructor; cbn; try done.
  - constructor; [|constructor]. unfold inBin. cbn. lia.
  - constructor; constructor.
Qed.

(** The free list after the split loop and the pruning, for a new node [r]
    that lies in the bin. *)
Lemma free_after_place_elem s r g :
  packInv s -> inBin (binWidth s) (binHeight s) r ->
  g ∈ pruneFreeList
        (splitLoop (length (freeRectangles s)) 0 (length (freeRectangles s)) r
           (freeRectangles s)) ->
  exists f, f ∈ freeRectangles s /\ within g f
    /\ 0 < Rect.width g /\ 0 < Rect.height g /\ apart g r.
Proof.
  intros Hinv Hr Hg.
  pose proof (elem_of_sublist _ _ _ Hg (pruneFreeList_sublist _)) as Hg'.
  clear Hg. rewrite splitLoop_all in Hg'.
  destruct Hinv as [[_ HW] [_ HH] Hfree _ _ _]. rewrite Forall_forall in Hfree.
  apply elem_of_app in Hg' as [Hg | Hg].
  - apply list_elem_of_In, filter_In in Hg as [Hin Hs].
    apply list_elem_of_In in Hin. apply negb_true_iff in Hs.
    pose proof (Hfree g Hin) as Hgb.
    exists g. split; [exact Hin|]. split; [unfold within; lia|].
    destruct Hgb as (?&?&?&?&?&?). split; [assumption|]. split; [assumption|].
    eapply splits_apart; [exact HW | exact HH | apply (Hfree g Hin) | exact Hr | exact Hs].
  - apply list_elem_of_In, in_flat_map in Hg as (f & Hin & Hgf).
    apply list_elem_of_In in Hin. apply list_elem_of_In in Hgf.
    pose proof (Hfree f Hin) as Hfb.
    destruct (splits f r) eqn:Hs.
    + rewrite (splitAdds_residuals _ _ HW HH f r Hfb Hr Hs) in Hgf.
      assert (Hna : ~ apart f r).
      { intros Ha. apply (splits_apart _ _ HW HH f r Hfb Hr) in Ha. congruence. }
      destruct (residuals_sound _ _ f r Hfb Hr g Hgf Hna) as (?&?&?&?).
      exists f. auto.
    + rewrite (splits_false_adds _ _ Hs) in Hgf. by apply elem_of_nil in Hgf.
Qed.

(** Placing a node that lies in the bin and is clear of the used rectangles
    keeps the invariant. *)
Lemma place_inv s r :
  packInv s -> inBin (binWidth s) (binHeight s) r ->
  Forall (apart r) (usedRectangles s) ->
  packInv (placeRect r s).
Proof.
  intros Hinv Hr Hru.
  pose proof (fun g => free_after_place_elem s r g Hinv Hr) as Helem.
  destruct Hinv as [HW HH Hfree Hused Hfu Hdisj].
  unfold placeRect. constructor; cbn [binWidth binHeight usedRectangles freeRectangles].
  - exact HW.
  - exact HH.
  - apply Forall_forall. intros g Hg.
    destruct (Helem g Hg) as (f & Hin & Hw & ? & ? & _).
    rewrite Forall_forall in Hfree. by eapply inBin_within; [| | exact Hw | apply Hfree].
  - apply Forall_app. split; [exact Hused | by constructor].
  - apply Forall_forall. intros g Hg.
    destruct (Helem g Hg) as (f & Hin & Hw & _ & _ & Hgr).
    apply Forall_app. split; [|by constructor].
    rewrite Forall_forall in Hfu. pose proof (Hfu f Hin) as Hf.
    eapply Forall_impl; [exact Hf|]. intros u Hfu'. by eapply apart_within.
  - apply pairwise_snoc; [exact Hdisj|].
    eapply Forall_impl; [exact Hru|]. intros u. apply apart_sym.
Qed.

Lemma insert_placeRect w h m s :
  Rect.height (findPosition m s w h) <> 0 ->
  insert w h m s = (findPosition m s w h, placeRect (findPosition m s w h) s).
Proof.
  intros Hnz. unfold insert, placeRect.
  destruct (Z.eqb_spec (Rect.height (findPosition m s w h)) 0); [contradiction|].
  reflexivity.
Qed.

(** What a scorer returns for a request with positive sides, in a packer
    that satisfies the invariant, lies in the bin and is clear of the used
    rectangles, unless it has height zero. *)
Lemma findPosition_inBin s w h m :
  packInv s -> 0 < w -> 0 < h ->
  Rect.height (findPosition m s w h) <> 0 ->
  inBin (binWidth s) (binHeight s) (findPosition m s w h)
  /\ Forall (apart (findPosition m s w h)) (usedRectangles s).
Proof.
  intros Hinv Hw Hh Hnz.
  destruct (findPosition_cases m s w h) as [Hz | Hc].
  { rewrite Hz in Hnz. cbn in Hnz. lia. }
  apply candidate_within in Hc as (f & Hin & Hwi & Hsz).
  destruct Hinv as [_ _ Hfree _ Hfu _]. rewrite Forall_forall in Hfree, Hfu.
  split.
  - eapply inBin_within; [| | exact Hwi | by apply Hfree]; lia.
  - eapply Forall_impl; [apply (Hfu f Hin)|]. intros u Hfu'. by eapply apart_within.
Qed.

Lemma insert_inv s w h m :
  packInv s -> 0 < w -> 0 < h -> packInv (insert w h m s).2.
Proof.
  intros Hinv Hw Hh.
  destruct (Z.eq_dec (Rect.height (findPosition m s w h)) 0) as [Hz | Hnz].
  - rewrite (insert_early_return s w h m Hz). exact Hinv.
  - rewrite (insert_placeRect w h m s Hnz). cbn [snd].
    destruct (findPosition_inBin s w h m Hinv Hw Hh Hnz) as [Hb Ha].
    by apply place_inv.
Qed.

Lemma insertAll_inv reqs :
  forall s, packInv s -> Forall Request.positive reqs -> packInv (insertAll reqs s).
Proof.
  induction reqs as [|q reqs IH]; intros s Hinv Hpos; cbn [insertAll fold_left];
    [exact Hinv|].
  inversion Hpos as [|? ? [Hqw Hqh] Hrest]; subst.
  apply IH; [|exact Hrest]. apply insert_inv; [exact Hinv | lia | lia].
Qed.

Lemma insertAll_bin reqs :
  forall s, binWidth (insertAll reqs s) = binWidth s
            /\ binHeight (insertAll reqs s) = binHeight s.
Proof.
  unfold insertAll.
  induction reqs as [|q reqs IH]; intros s; cbn [fold_left]; [done|].
  destruct (IH (insert (Request.width q) (Request.height q) (Request.method q) s).2)
    as [-> ->].
  unfold insert. destruct (_ =? 0); done.
Qed.

Lemma pairwise_app_inv {A} (R : A -> A -> Prop) (l1 l2 : list A) :
  pairwise R (l1 ++ l2) ->
  pairwise R l1 /\ pairwise R l2 /\ Forall (fun a => Forall (R a) l2) l1.
Proof.
  induction l1 as [|a l1 IH]; cbn [app pairwise]; [by repeat split|].
  intros [Hall Hp]. apply Forall_app in Hall as [Ha1 Ha2].
  destruct (IH Hp) as (H1 & H2 & H12). repeat split; try assumption.
  by constructor.
Qed.

(** A disjoint-rectangle accumulator accepts, one after the other, rectangles
    of positive sides in a bin that are pairwise apart. *)
Lemma addAll_accepts W H l :
  W <= Int.INT_MAX -> H <= Int.INT_MAX ->
  Forall (inBin W H) l -> pairwise apart l -> addAll l = (true, l).
Proof.
  intros HW HH. unfold addAll.
  assert (Hgen : forall l acc,
    Forall (inBin W H) (acc ++ l) -> pairwise apart (acc ++ l) ->
    fold_left (fun acc r =>
      let '(ok, rects) := DisjointRectCollection.add acc.2 r in (acc.1 && ok, rects))
      l (true, acc) = (true, acc ++ l)).
  { clear l. induction l as [|r l IH]; intros acc Hb Hp; cbn [fold_left].
    - by rewrite app_nil_r.
    - replace (acc ++ r :: l) with ((acc ++ [r]) ++ l) in *
        by (rewrite <- app_assoc; reflexivity).
      apply Forall_app in Hb as Hb'. destruct Hb' as [Hacc _].
      apply Forall_app in Hacc as [Hacc Hr]. apply Forall_inv in Hr.
      apply pairwise_app_inv in Hp as Hp'. destruct Hp' as (Hp1 & _ & _).
      apply pairwise_app_inv in Hp1 as (_ & _ & Har).
      cbn [fst snd]. unfold DisjointRectCollection.add, DisjointRectCollection.disjoint.
      destruct Hr as (Hx & Hy & Hw & Hh & Hxw & Hyh).
      destruct (Z.eqb_spec (Rect.width r) 0); [lia|].
      destruct (Z.eqb_spec (Rect.height r) 0); [lia|]. cbn [orb].
      assert (Hall : forallb (fun rect => DisjointRectCollection.disjoint2 rect r) acc
                     = true).
      { apply forallb_forall. intros a Ha. apply list_elem_of_In in Ha.
        rewrite Forall_forall in Hacc, Har.
        apply (disjoint2_apart W H HW HH a r); [by apply Hacc | unfold inBin; lia|].
        pose proof (Har a Ha) as Hra. by apply Forall_inv in Hra. }
      rewrite Hall. cbn [negb andb]. apply IH; assumption. }
  intros Hb Hp. apply (Hgen l []); assumption.
Qed.

(** ** C1 and C4: committed placements *)

(** C1. In a packer initialised with positive [int] bin sides, after any
    sequence of single-rectangle [insert] calls with positive [int] sides,
    each under any heuristic, two used rectangles at different indices are
    disjoint ([DisjointRectCollection::disjoint] of [Rect.h]), and a
    disjoint-rectangle accumulator fed with the used rectangles accepts every
    one of them. *)
Theorem used_rectangles_disjoint (W H : Z) (reqs : list Request.t) :
  0 < W <= Int.INT_MAX -> 0 < H <= Int.INT_MAX ->
  Forall Request.positive reqs ->
  let used := usedRectangles (insertAll reqs (init W H)) in
  (forall i j a b, i <> j -> used !! i = Some a -> used !! j = Some b ->
     DisjointRectCollection.disjoint2 a b = true)
  /\ addAll used = (true, used).
Proof.
  intros HW HH Hpos used.
  pose proof (insertAll_inv reqs (init W H) (init_inv W H HW HH) Hpos) as Hinv.
  destruct (insertAll_bin reqs (init W H)) as [HbW HbH]. cbn in HbW, HbH.
  destruct Hinv as [_ _ _ Hused _ Hdisj]. rewrite HbW, HbH in Hused.
  fold used in Hused, Hdisj. split.
  - intros i j a b Hij Hi Hj.
    assert (Ha : inBin W H a).
    { rewrite Forall_forall in Hused. apply Hused. by eapply list_elem_of_lookup_2. }
    assert (Hb : inBin W H b).
    { rewrite Forall_forall in Hused. apply Hused. by eapply list_elem_of_lookup_2. }
    apply (disjoint2_apart W H); [lia | lia | exact Ha | exact Hb |].
    destruct (Nat.lt_trichotomy i j) as [Hlt | [-> | Hgt]]; [| congruence |].
    + by eapply (pairwise_lookup apart used Hdisj i j).
    + apply apart_sym. by eapply (pairwise_lookup apart used Hdisj j i).
  - apply (addAll_accepts W H); [lia | lia | exact Hused | exact Hdisj].
Qed.

(** Scenario A of the specification: three 2 by 2 requests in a 4 by 4
    bin. *)
Lemma used_rectangles_disjoint_witness :
  let used := usedRectangles (insertAll
                [Request.mk 2 2 RectBestShortSideFit;
                 Request.mk 2 2 RectBestShortSideFit;
                 Request.mk 2 2 RectBestShortSideFit] (init 4 4)) in
  used = [Rect.mk 0 0 2 2; Rect.mk 0 2 2 2; Rect.mk 2 0 2 2]
  /\ addAll used = (true, used).
Proof.
  cbn zeta. split; [reflexivity|].
  refine (proj2 (used_rectangles_disjoint 4 4
    [Request.mk 2 2 RectBestShortSideFit;
     Request.mk 2 2 RectBestShortSideFit;
     Request.mk 2 2 RectBestShortSideFit] _ _ _)).
  - unfold Int.INT_MAX; lia.
  - unfold Int.INT_MAX; lia.
  - repeat constructor; cbn; unfold Int.INT_MAX; lia.
Defined.

(** C4. In a packer initialised with positive [int] bin sides and taken
    through any sequence of [insert] calls with positive [int] sides, a
    further such call that returns a rectangle of non-zero height returns one
    with [0 <= x], [0 <= y], [x + width <= binWidth] and
    [y + height <= binHeight]; the two sums do not overflow. *)
Theorem placement_within_bin (W H : Z) (reqs : list Request.t) (q : Request.t) :
  0 < W <= Int.INT_MAX -> 0 < H <= Int.INT_MAX ->
  Forall Request.positive reqs -> Request.positive q ->
  let r := (insert (Request.width q) (Request.height q) (Request.method q)
              (insertAll reqs (init W H))).1 in
  Rect.height r <> 0 ->
  0 <= Rect.x r /\ 0 <= Rect.y r
  /\ Rect.x r + Rect.width r <= W /\ Rect.y r + Rect.height r <= H
  /\ Int.add (Rect.x r) (Rect.width r) = Rect.x r + Rect.width r
  /\ Int.add (Rect.y r) (Rect.height r) = Rect.y r + Rect.height r.
Proof.
  intros HW HH Hpos [Hqw Hqh] r Hnz.
  pose proof (insertAll_inv reqs (init W H) (init_inv W H HW HH) Hpos) as Hinv.
  destruct (insertAll_bin reqs (init W H)) as [HbW HbH]. cbn in HbW, HbH.
  assert (Hr : r = findPosition (Request.method q) (insertAll reqs (init W H))
                     (Request.width q) (Request.height q)).
  { subst r. unfold insert. destruct (_ =? 0); reflexivity. }
  rewrite Hr in Hnz |- *.
  destruct (findPosition_inBin _ _ _ _ Hinv (proj1 Hqw) (proj1 Hqh) Hnz) as [Hb _].
  rewrite HbW, HbH in Hb. destruct Hb as (?&?&?&?&?&?).
  unwrap. lia.
Qed.

(** Scenario C of the specification: 8 by 3, then 3 by 8, in a 10 by 10 bin
    under best area fit. *)
Lemma placement_within_bin_witness :
  let r := (insert 3 8 RectBestAreaFit
              (insertAll [Request.mk 8 3 RectBestAreaFit] (init 10 10))).1 in
  r = Rect.mk 0 3 8 3
  /\ 0 <= Rect.x r /\ 0 <= Rect.y r
  /\ Rect.x r + Rect.width r <= 10 /\ Rect.y r + Rect.height r <= 10.
Proof.
  split; [reflexivity|].
  pose proof (placement_within_bin 10 10 [Request.mk 8 3 RectBestAreaFit]
    (Request.mk 3 8 RectBestAreaFit)) as Hthm.
  cbn zeta in Hthm.
  destruct Hthm as (H1 & H2 & H3 & H4 & _).
  - unfold Int.INT_MAX; lia.
  - unfold Int.INT_MAX; lia.
  - repeat constructor; cbn; unfold Int.INT_MAX; lia.
  - split; cbn; unfold Int.INT_MAX; lia.
  - vm_compute. discriminate.
  - cbn zeta. auto.
Defined.

(** ** C5 and C6: the batch insert *)

Lemma batchRound_dst m b b' : batchRound m b = Some b' -> dst b' = dst b.
Proof.
  unfold batchRound. destruct (rects b); [discriminate|].
  destruct (bestOfRects _ _ _ _ _ _ _ _) as [[[? ?] idx] node].
  destruct (idx =? -1); [discriminate|]. by intros [= <-].
Qed.

Lemma batchLoop_dst fuel m : forall b, dst (batchLoop fuel m b) = dst b.
Proof.
  induction fuel as [|fuel IH]; intros b; cbn [batchLoop]; [reflexivity|].
  destruct (batchRound m b) as [b'|] eqn:Hr; [|reflexivity].
  rewrite IH. by eapply batchRound_dst.
Qed.

(** C5, as the code has it: whatever the pending sizes, the heuristic and
    the packer, [dst] is empty when the batch [insert] returns; with one 2 by
    2 size pending in a 4 by 4 bin the size is committed (it is in the used
    list and out of [rects]) and [dst] is empty all the same. *)
Theorem insertBatch_dst_empty :
  (forall rects0 dst0 method s, dst (insertBatch rects0 dst0 method s) = [])
  /\ (let b := insertBatch [RectSize.mk 2 2] [] RectBestShortSideFit (init 4 4) in
      usedRectangles (packer b) = [Rect.mk 0 0 2 2] /\ rects b = [] /\ dst b = []).
Proof.
  split.
  - intros rects0 dst0 method s. unfold insertBatch. by rewrite batchLoop_dst.
  - cbn zeta. repeat split; reflexivity.
Qed.

Lemma scoresOf_eq s m r :
  scoreRect s (RectSize.width r) (RectSize.height r) m
  = (nodeOf s m r, (scoresOf s m r).1, (scoresOf s m r).2).
Proof.
  unfold nodeOf, scoresOf.
  destruct (scoreRect s (RectSize.width r) (RectSize.height r) m) as [[n s1] s2].
  reflexivity.
Qed.

Lemma bestOfRects_spec s m pending :
  forall seen st,
    bestOfSeen s m seen st ->
    bestOfSeen s m (seen ++ pending)
      (bestOfRects s m (length seen) pending st.1.1.1 st.1.1.2 st.1.2 st.2).
Proof.
  induction pending as [|r pending IH]; intros seen [[[b1 b2] idx] node] Hinv;
    cbn [bestOfRects fst snd].
  - by rewrite app_nil_r.
  - rewrite scoresOf_eq.
    replace (seen ++ r :: pending) with ((seen ++ [r]) ++ pending)
      by (rewrite <- app_assoc; reflexivity).
    replace (S (length seen)) with (length (seen ++ [r]))
      by (rewrite length_app; cbn [length]; lia).
    destruct Hinv as [Hle Hidx].
    destruct (scoresOf s m r) as [s1 s2] eqn:Hsc. cbn [fst snd].
    destruct ((s1 <? b1) || ((s1 =? b1) && (s2 <? b2))) eqn:Hcmp.
    + apply (IH (seen ++ [r]) (s1, s2, Z.of_nat (length seen), nodeOf s m r)).
      split.
      * intros j r' Hj. apply lookup_app_Some in Hj as [Hj | [_ Hj]].
        -- pose proof (Hle j r' Hj) as Hl. unfold lexLe in *. cbn [fst snd] in *.
           apply orb_true_iff in Hcmp as [Hc | Hc]; bool_to_prop; lia.
        -- apply list_lookup_singleton_Some in Hj as [_ <-].
           rewrite Hsc. unfold lexLe. cbn. lia.
      * right. exists (length seen), r. split; [reflexivity|].
        split; [by apply list_lookup_middle|]. split; [reflexivity|].
        split; [by rewrite Hsc|].
        apply orb_true_iff in Hcmp as [Hc | Hc]; bool_to_prop;
          destruct Hidx as [(_ & -> & ->) | (? & ? & _ & _ & _ & _ & Hlt)]; lia.
    + apply (IH (seen ++ [r]) (b1, b2, idx, node)). split.
      * intros j r' Hj.
        apply lookup_app_Some in Hj as [Hj | [_ Hj]]; [exact (Hle j r' Hj)|].
        apply list_lookup_singleton_Some in Hj as [_ <-].
        rewrite Hsc. unfold lexLe. cbn [fst snd].
        apply orb_false_iff in Hcmp as [Hc1 Hc2]. apply Z.ltb_ge in Hc1.
        destruct (Z.eqb_spec s1 b1); [|lia].
        cbn [andb] in Hc2. apply Z.ltb_ge in Hc2. lia.
      * destruct Hidx as [Hnone | (k & r' & Hk & Hlk & Hn & Hs & Hlt)]; [by left|].
        right. exists k, r'. split; [exact Hk|].
        split; [by apply lookup_app_l_Some | by repeat split].
Qed.

Lemma batchRound_index m b b' :
  batchRound m b = Some b' ->
  exists k, (k < length (rects b))%nat /\ rects b' = delete k (rects b).
Proof.
  unfold batchRound. intros Hround.
  assert (Hspec : bestOfSeen (packer b) m (rects b)
            (bestOfRects (packer b) m 0 (rects b) Int.INT_MAX Int.INT_MAX (-1)
               Rect.zero)).
  { apply (bestOfRects_spec (packer b) m (rects b) []
             (Int.INT_MAX, Int.INT_MAX, -1, Rect.zero)).
    split; [intros j r Hj; by destruct j | by left]. }
  destruct (bestOfRects _ _ _ _ _ _ _ _) as [[[b1 b2] idx] node].
  destruct Hspec as [_ Hidx].
  destruct (rects b) as [|r0 rest] eqn:Hrects; [discriminate|].
  destruct (Z.eqb_spec idx (-1)) as [Hm1 | Hne]; [discriminate|].
  injection Hround as <-.
  destruct Hidx as [(Hidx & _) | (k & r & -> & Hlk & _)]; [contradiction|].
  exists k. rewrite Nat2Z.id. split; [by eapply lookup_lt_Some | reflexivity].
Qed.

(** The fuel given to the [while] loop is enough: the loop stops by
    itself, with [rects] empty or with no pending size that fits. *)
Lemma batchLoop_exit fuel m :
  forall b, (length (rects b) < fuel)%nat -> batchRound m (batchLoop fuel m b) = None.
Proof.
  induction fuel as [|fuel IH]; intros b Hlen; [lia|]. cbn [batchLoop].
  destruct (batchRound m b) as [b'|] eqn:Hr; [|exact Hr].
  destruct (batchRound_index m b b' Hr) as (k & Hk & Hrects).
  apply IH. rewrite Hrects, length_delete; [lia|].
  by apply lookup_lt_is_Some_2.
Qed.

Lemma contactBody_in_range x y w h score u :
  Int.in_range score -> Int.in_range (contactBody x y w h score u).
Proof.
  intros Hs. unfold contactBody.
  repeat match goal with
  | |- context [if ?c then _ else _] => destruct c
  end; try apply wrap_in_range; exact Hs.
Qed.

Lemma contactPointScoreNode_in_range W H used x y w h :
  Int.in_range (contactPointScoreNode W H used x y w h).
Proof.
  unfold contactPointScoreNode.
  match goal with
  | |- Int.in_range (fold_left _ _ ?init) =>
      assert (Hinit : Int.in_range init)
  end.
  { repeat match goal with
    | |- context [if ?c then _ else _] => destruct c
    end; try apply wrap_in_range; unfold Int.in_range, Int.INT_MIN, Int.INT_MAX; lia. }
  revert Hinit. generalize (if (x =? 0) || (Int.add x w =? W) then Int.add 0 h else 0).
  intros z0.
  generalize (if (y =? 0) || (Int.add y h =? H) then Int.add z0 w else z0).
  clear z0. induction used as [|u used IH]; intros z Hz; cbn [fold_left]; [exact Hz|].
  apply IH. by apply contactBody_in_range.
Qed.

(** The contact-point scorer: as long as nothing was chosen the running best
    is the initial one, and a chosen score is a non-negative [int]. *)
Lemma contactPoint_fold_score W H used w h l :
  forall b,
    (b = mkBest Rect.zero (-1) 0 \/ 0 <= best1 b <= Int.INT_MAX) ->
    let b' := fold_left (contactPointBody W H used w h) l b in
    b' = mkBest Rect.zero (-1) 0 \/ 0 <= best1 b' <= Int.INT_MAX.
Proof.
  induction l as [|f l IH]; intros b Hb; cbn [fold_left]; [exact Hb|].
  apply IH. clear IH.
  pose proof (contactPointScoreNode_in_range W H used (Rect.x f) (Rect.y f) w h) as R1.
  pose proof (contactPointScoreNode_in_range W H used (Rect.x f) (Rect.y f) h w) as R2.
  unfold Int.in_range, Int.INT_MIN in R1, R2.
  destruct b as [n k1 k2]. unfold contactPointBody.
  repeat match goal with
  | |- context [if ?c then _ else _] => destruct c eqn:?
  end; bool_to_prop; cbn [best1] in *;
  try (destruct Hb as [[= -> -> ->] | Hb]; [try (by left); right; lia | right; lia]).
Qed.

Lemma scoreRect_contact s w h :
  let r := (findPositionForNewNodeContactPoint s w h).1 in
  let cs := (findPositionForNewNodeContactPoint s w h).2 in
  Rect.height r <> 0 ->
  scoreRect s w h RectContactPointRule = (r, - cs, Int.INT_MAX) /\ 0 <= cs.
Proof.
  cbn zeta. intros Hnz. unfold scoreRect.
  pose proof (contactPoint_fold_score (binWidth s) (binHeight s) (usedRectangles s)
    w h (freeRectangles s) (mkBest Rect.zero (-1) 0) (or_introl eq_refl)) as Hb.
  cbn zeta in Hb. unfold findPositionForNewNodeContactPoint in *. cbn [fst snd] in *.
  destruct Hb as [Hb | Hb].
  { rewrite Hb in Hnz. cbn in Hnz. lia. }
  destruct (Z.eqb_spec (Rect.height (bestNode (fold_left
    (contactPointBody (binWidth s) (binHeight s) (usedRectangles s) w h)
    (freeRectangles s) (mkBest Rect.zero (-1) 0)))) 0) as [Hz | _]; [contradiction|].
  split; [|lia]. f_equal. f_equal. unwrap. reflexivity.
Qed.

Lemma scoreRect_sentinel s w h m :
  Rect.height (scoreRect s w h m).1.1 = 0 ->
  (scoreRect s w h m).1.2 = Int.INT_MAX /\ (scoreRect s w h m).2 = Int.INT_MAX.
Proof.
  unfold scoreRect.
  destruct (match m with
            | RectBestShortSideFit => _ | RectBestLongSideFit => _
            | RectBestAreaFit => _ | RectBottomLeftRule => _
            | RectContactPointRule => _ end) as [[n s1] s2].
  destruct (Z.eqb_spec (Rect.height n) 0); cbn [fst snd]; [done | contradiction].
Qed.

Lemma nodeOf_contact s r :
  nodeOf s RectContactPointRule r
  = (findPositionForNewNodeContactPoint s (RectSize.width r) (RectSize.height r)).1.
Proof.
  unfold nodeOf, scoreRect.
  destruct (findPositionForNewNodeContactPoint s _ _) as [n cs].
  destruct (Rect.height n =? 0); reflexivity.
Qed.

Lemma scoresOf_contact s r :
  Rect.height (nodeOf s RectContactPointRule r) <> 0 ->
  scoresOf s RectContactPointRule r = (- contactScoreOf s r, Int.INT_MAX).
Proof.
  intros Hnz. rewrite nodeOf_contact in Hnz.
  destruct (scoreRect_contact s (RectSize.width r) (RectSize.height r) Hnz) as [Heq _].
  unfold scoresOf, contactScoreOf. rewrite Heq. reflexivity.
Qed.

Lemma scoresOf_sentinel s m r :
  Rect.height (nodeOf s m r) = 0 -> scoresOf s m r = (Int.INT_MAX, Int.INT_MAX).
Proof.
  intros Hz. destruct (scoreRect_sentinel s _ _ m Hz) as [H1 H2].
  unfold scoresOf.
  destruct (scoreRect s (RectSize.width r) (RectSize.height r) m) as [[n s1] s2].
  cbn [fst snd] in *. congruence.
Qed.

(** C6. A round of the batch [insert] that commits something commits the
    rectangle [scoreRect] returned, against the packer as it is at the start
    of the round, for a pending size whose ([score1], [score2]) is minimal
    among those of all pending sizes, [score1] compared first and [score2] on
    ties; that rectangle has non-zero height and the size leaves the pending
    list.  Under the contact-point heuristic [score1] of the committed size is
    the negated contact score, and no pending size that fits has a higher
    contact score. *)
Theorem batchRound_commits_best (method : FreeRectChoiceHeuristic) (b b' : Batch) :
  batchRound method b = Some b' ->
  exists (k : nat) (r : RectSize.t),
    rects b !! k = Some r
    /\ b' = mkBatch (placeRect (nodeOf (packer b) method r) (packer b))
                    (delete k (rects b)) (dst b)
    /\ Rect.height (nodeOf (packer b) method r) <> 0
    /\ (forall j r', rects b !! j = Some r' ->
          lexLe (scoresOf (packer b) method r) (scoresOf (packer b) method r'))
    /\ (method = RectContactPointRule ->
          (scoresOf (packer b) method r).1 = - contactScoreOf (packer b) r
          /\ forall j r', rects b !! j = Some r' ->
               Rect.height (nodeOf (packer b) method r') <> 0 ->
               contactScoreOf (packer b) r' <= contactScoreOf (packer b) r).
Proof.
  unfold batchRound. intros Hround.
  assert (Hspec : bestOfSeen (packer b) method (rects b)
            (bestOfRects (packer b) method 0 (rects b) Int.INT_MAX Int.INT_MAX (-1)
               Rect.zero)).
  { apply (bestOfRects_spec (packer b) method (rects b) []
             (Int.INT_MAX, Int.INT_MAX, -1, Rect.zero)).
    split; [intros j r Hj; by destruct j | by left]. }
  destruct (bestOfRects _ _ _ _ _ _ _ _) as [[[b1 b2] idx] node].
  destruct Hspec as [Hle Hidx].
  destruct (rects b) as [|r0 rest] eqn:Hrects; [discriminate|].
  destruct (Z.eqb_spec idx (-1)) as [Hm1 | Hne]; [discriminate|].
  injection Hround as <-.
  destruct Hidx as [(Hidx & _) | (k & r & Hk & Hlk & Hn & Hs & Hlt)]; [contradiction|].
  exists k, r. subst idx node. rewrite Nat2Z.id.
  assert (Hnz : Rect.height (nodeOf (packer b) method r) <> 0).
  { intros Hz. rewrite (scoresOf_sentinel _ _ _ Hz) in Hs. injection Hs as -> ->. lia. }
  split; [exact Hlk|]. split; [reflexivity|]. split; [exact Hnz|]. split.
  - intros j r' Hj. rewrite <- Hs. by eapply Hle.
  - intros ->. rewrite (scoresOf_contact _ _ Hnz). split; [reflexivity|].
    intros j r' Hj Hnz'. pose proof (Hle j r' Hj) as Hl.
    rewrite Hs, (scoresOf_contact _ _ Hnz), (scoresOf_contact _ _ Hnz') in Hl.
    unfold lexLe in Hl. cbn [fst snd] in Hl. lia.
Qed.

(** A 4 by 4 bin with the sizes 1 by 1 and 4 by 4 pending: best short side
    fit commits the second one first. *)
Lemma batchRound_commits_best_witness :
  let b := mkBatch (init 4 4) [RectSize.mk 1 1; RectSize.mk 4 4] [] in
  batchRound RectBestShortSideFit b
  = Some (mkBatch (placeRect (Rect.mk 0 0 4 4) (init 4 4)) [RectSize.mk 1 1] [])
  /\ exists (k : nat) (r : RectSize.t),
       rects b !! k = Some r
       /\ forall j r', rects b !! j = Some r' ->
            lexLe (scoresOf (packer b) RectBestShortSideFit r)
                  (scoresOf (packer b) RectBestShortSideFit r').
Proof.
  cbn zeta. split; [reflexivity|].
  destruct (batchRound_commits_best RectBestShortSideFit
    (mkBatch (init 4 4) [RectSize.mk 1 1; RectSize.mk 4 4] [])
    (mkBatch (placeRect (Rect.mk 0 0 4 4) (init 4 4)) [RectSize.mk 1 1] [])
    eq_refl) as (k & r & Hk & _ & _ & Hmin & _).
  exists k, r. split; [exact Hk | exact Hmin].
Defined.

(** ** The contact score in exact arithmetic *)

Lemma sumOver_le (t1 t2 : Rect.t -> Z) l :
  Forall (fun u => t1 u <= t2 u) l -> sumOver t1 l <= sumOver t2 l.
Proof.
  induction 1 as [|u l Hu _ IH]; cbn [sumOver fold_right]; [lia|].
  unfold sumOver in IH. lia.
Qed.

Lemma sumOver_add (t1 t2 : Rect.t -> Z) l :
  sumOver (fun u => t1 u + t2 u) l = sumOver t1 l + sumOver t2 l.
Proof.
  induction l as [|u l IH]; cbn [sumOver fold_right]; [reflexivity|].
  unfold sumOver in IH. lia.
Qed.

Lemma sumOver_ext (t1 t2 : Rect.t -> Z) l :
  Forall (fun u => t1 u = t2 u) l -> sumOver t1 l = sumOver t2 l.
Proof.
  induction 1 as [|u l Hu _ IH]; cbn [sumOver fold_right]; [lia|].
  unfold sumOver in IH. lia.
Qed.

Lemma sumOver_nonneg (t : Rect.t -> Z) l :
  Forall (fun u => 0 <= t u) l -> 0 <= sumOver t l.
Proof.
  induction 1 as [|u l Hu _ IH]; cbn [sumOver fold_right]; [lia|].
  unfold sumOver in IH. lia.
Qed.

Lemma sumOver_zero (t : Rect.t -> Z) l :
  Forall (fun u => t u = 0) l -> sumOver t l = 0.
Proof.
  induction 1 as [|u l Hu _ IH]; cbn [sumOver fold_right]; [lia|].
  unfold sumOver in IH. lia.
Qed.

(** Intervals that do not overlap each other cover no more of [[a, b]]
    than its length. *)
Lemma separate_overlap_sum (sel : Rect.t -> bool) (lo hi : Rect.t -> Z) l :
  Forall (fun u => lo u <= hi u) l -> pairwise (separate sel lo hi) l ->
  forall a b, a <= b -> sumOver (part sel lo hi a b) l <= b - a.
Proof.
  induction l as [|u l IH]; intros Hlh Hp a b Hab; cbn [sumOver fold_right]; [lia|].
  fold (sumOver (part sel lo hi a b) l).
  inversion Hlh as [|? ? Hu Hl]; subst. destruct Hp as [Hall Hp].
  specialize (IH Hl Hp).
  unfold part at 1. destruct (sel u) eqn:Hsel; [|specialize (IH a b Hab); lia].
  set (m1 := Z.max a (Z.min b (lo u))).
  set (m2 := Z.min b (Z.max a (hi u))).
  assert (Hsplit : sumOver (part sel lo hi a b) l
                   <= sumOver (fun v => part sel lo hi a m1 v + part sel lo hi m2 b v) l).
  { apply sumOver_le. rewrite Forall_forall in Hall, Hl |- *.
    intros v Hv. specialize (Hall v Hv). specialize (Hl v Hv). cbv beta in Hl.
    unfold part, separate in *. destruct (sel v); [|lia].
    specialize (Hall Hsel eq_refl). unfold overlap. subst m1 m2. lia. }
  rewrite sumOver_add in Hsplit.
  pose proof (IH a m1 ltac:(subst m1; lia)).
  pose proof (IH m2 b ltac:(subst m2; lia)).
  unfold overlap. subst m1 m2. lia.
Qed.

Lemma pairwise_impl {A} (R R' : A -> A -> Prop) (P : A -> Prop) (l : list A) :
  (forall a b, P a -> P b -> R a b -> R' a b) ->
  Forall P l -> pairwise R l -> pairwise R' l.
Proof.
  intros Himp. induction l as [|a l IH]; cbn [pairwise]; [done|].
  intros Hall [Hra Hp]. inversion Hall as [|? ? Ha Hl]; subst.
  split; [|by apply IH].
  rewrite Forall_forall in Hra, Hl |- *. intros b Hb.
  apply Himp; [exact Ha | by apply Hl | by apply Hra].
Qed.

Lemma commonIntervalLength_overlap s1 e1 s2 e2 :
  0 <= s1 <= e1 -> 0 <= s2 <= e2 -> e1 <= Int.INT_MAX -> e2 <= Int.INT_MAX ->
  commonIntervalLength s1 e1 s2 e2 = overlap s1 e1 s2 e2.
Proof.
  intros H1 H2 H3 H4. unfold commonIntervalLength, overlap.
  destruct (Z.ltb_spec e1 s2); cbn [orb]; [lia|].
  destruct (Z.ltb_spec e2 s1); [lia|]. unwrap. lia.
Qed.

Section ContactScore.

Variables W H : Z.
Hypothesis Hperimeter : 2 * (W + H) <= Int.INT_MAX.

Variable used : list Rect.t.
Hypothesis Hused : Forall (inBin W H) used.
Hypothesis Hdisjoint : pairwise apart used.

Variables x y w h : Z.
Hypothesis Hplace : inBin W H (Rect.mk x y w h).

Lemma touchVertical_bound :
  0 <= sumOver (touchVertical x y w h) used
  /\ (if (x =? 0) || (x + w =? W) then h else 0)
     + sumOver (touchVertical x y w h) used <= 2 * h.
Proof using Hused Hdisjoint Hplace.
  destruct Hplace as (Hx & Hy & Hw & Hh & HxW & HyH). cbn in Hx, Hy, Hw, Hh, HxW, HyH.
  set (selR := fun u : Rect.t => Rect.x u =? x + w).
  set (selL := fun u : Rect.t => Rect.x u + Rect.width u =? x).
  set (lo := fun u : Rect.t => Rect.y u).
  set (hi := fun u : Rect.t => Rect.y u + Rect.height u).
  assert (Hlh : Forall (fun u => lo u <= hi u) used).
  { eapply Forall_impl; [exact Hused|]. intros u (?&?&?&?&?&?). subst lo hi. cbn. lia. }
  assert (HR : sumOver (part selR lo hi y (y + h)) used <= h).
  { pose proof (separate_overlap_sum selR lo hi used Hlh) as Hs.
    assert (Hsep : pairwise (separate selR lo hi) used).
    { apply (pairwise_impl apart _ (inBin W H)); [|exact Hused | exact Hdisjoint].
      intros a b (?&?&?&?&?&?) (?&?&?&?&?&?) Hab Ha Hb.
      subst selR lo hi. cbn in *. unfold apart in Hab. bool_to_prop. lia. }
    specialize (Hs Hsep y (y + h)). lia. }
  assert (HL : sumOver (part selL lo hi y (y + h)) used <= h).
  { pose proof (separate_overlap_sum selL lo hi used Hlh) as Hs.
    assert (Hsep : pairwise (separate selL lo hi) used).
    { apply (pairwise_impl apart _ (inBin W H)); [|exact Hused | exact Hdisjoint].
      intros a b (?&?&?&?&?&?) (?&?&?&?&?&?) Hab Ha Hb.
      subst selL lo hi. cbn in *. unfold apart in Hab. bool_to_prop. lia. }
    specialize (Hs Hsep y (y + h)). lia. }
  assert (HR0 : 0 <= sumOver (part selR lo hi y (y + h)) used).
  { apply sumOver_nonneg, Forall_forall. intros u _. unfold part, overlap.
    destruct (selR u); lia. }
  assert (HL0 : 0 <= sumOver (part selL lo hi y (y + h)) used).
  { apply sumOver_nonneg, Forall_forall. intros u _. unfold part, overlap.
    destruct (selL u); lia. }
  assert (Heq : sumOver (touchVertical x y w h) used
                = sumOver (part selR lo hi y (y + h)) used
                  + sumOver (part selL lo hi y (y + h)) used).
  { rewrite <- sumOver_add. apply sumOver_ext.
    eapply Forall_impl; [exact Hused|]. intros u (?&?&?&?&?&?).
    unfold touchVertical, part. subst selR selL lo hi. cbn beta.
    destruct (Z.eqb_spec (Rect.x u) (x + w)), (Z.eqb_spec (Rect.x u + Rect.width u) x);
      cbn [orb]; lia. }
  assert (HL00 : x = 0 -> sumOver (part selL lo hi y (y + h)) used = 0).
  { intros ->. apply sumOver_zero. eapply Forall_impl; [exact Hused|].
    intros u (?&?&?&?&?&?). unfold part. subst selL. cbn beta.
    destruct (Z.eqb_spec (Rect.x u + Rect.width u) 0); [lia | reflexivity]. }
  assert (HR00 : x + w = W -> sumOver (part selR lo hi y (y + h)) used = 0).
  { intros HxwW. apply sumOver_zero. eapply Forall_impl; [exact Hused|].
    intros u (?&?&?&?&?&?). unfold part. subst selR. cbn beta.
    destruct (Z.eqb_spec (Rect.x u) (x + w)); [lia | reflexivity]. }
  split; [lia|].
  destruct (Z.eqb_spec x 0) as [Hx0 | Hx0]; cbn [orb].
  - specialize (HL00 Hx0). lia.
  - destruct (Z.eqb_spec (x + w) W) as [HxW' | HxW'].
    + specialize (HR00 HxW'). lia.
    + lia.
Qed.

Lemma touchHorizontal_bound :
  0 <= sumOver (touchHorizontal x y w h) used
  /\ (if (y =? 0) || (y + h =? H) then w else 0)
     + sumOver (touchHorizontal x y w h) used <= 2 * w.
Proof using Hused Hdisjoint Hplace.
  destruct Hplace as (Hx & Hy & Hw & Hh & HxW & HyH). cbn in Hx, Hy, Hw, Hh, HxW, HyH.
  set (selR := fun u : Rect.t => Rect.y u =? y + h).
  set (selL := fun u : Rect.t => Rect.y u + Rect.height u =? y).
  set (lo := fun u : Rect.t => Rect.x u).
  set (hi := fun u : Rect.t => Rect.x u + Rect.width u).
  assert (Hlh : Forall (fun u => lo u <= hi u) used).
  { eapply Forall_impl; [exact Hused|]. intros u (?&?&?&?&?&?). subst lo hi. cbn. lia. }
  assert (HR : sumOver (part selR lo hi x (x + w)) used <= w).
  { pose proof (separate_overlap_sum selR lo hi used Hlh) as Hs.
    assert (Hsep : pairwise (separate selR lo hi) used).
    { apply (pairwise_impl apart _ (inBin W H)); [|exact Hused | exact Hdisjoint].
      intros a b (?&?&?&?&?&?) (?&?&?&?&?&?) Hab Ha Hb.
      subst selR lo hi. cbn in *. unfold apart in Hab. bool_to_prop. lia. }
    specialize (Hs Hsep x (x + w)). lia. }
  assert (HL : sumOver (part selL lo hi x (x + w)) used <= w).
  { pose proof (separate_overlap_sum selL lo hi used Hlh) as Hs.
    assert (Hsep : pairwise (separate selL lo hi) used).
    { apply (pairwise_impl apart _ (inBin W H)); [|exact Hused | exact Hdisjoint].
      intros a b (?&?&?&?&?&?) (?&?&?&?&?&?) Hab Ha Hb.
      subst selL lo hi. cbn in *. unfold apart in Hab. bool_to_prop. lia. }
    specialize (Hs Hsep x (x + w)). lia. }
  assert (HR0 : 0 <= sumOver (part selR lo hi x (x + w)) used).
  { apply sumOver_nonneg, Forall_forall. intros u _. unfold part, overlap.
    destruct (selR u); lia. }
  assert (HL0 : 0 <= sumOver (part selL lo hi x (x + w)) used).
  { apply sumOver_nonneg, Forall_forall. intros u _. unfold part, overlap.
    destruct (selL u); lia. }
  assert (Heq : sumOver (touchHorizontal x y w h) used
                = sumOver (part selR lo hi x (x + w)) used
                  + sumOver (part selL lo hi x (x + w)) used).
  { rewrite <- sumOver_add. apply sumOver_ext.
    eapply Forall_impl; [exact Hused|]. intros u (?&?&?&?&?&?).
    unfold touchHorizontal, part. subst selR selL lo hi. cbn beta.
    destruct (Z.eqb_spec (Rect.y u) (y + h)), (Z.eqb_spec (Rect.y u + Rect.height u) y);
      cbn [orb]; lia. }
  assert (HL00 : y = 0 -> sumOver (part selL lo hi x (x + w)) used = 0).
  { intros ->. apply sumOver_zero. eapply Forall_impl; [exact Hused|].
    intros u (?&?&?&?&?&?). unfold part. subst selL. cbn beta.
    destruct (Z.eqb_spec (Rect.y u + Rect.height u) 0); [lia | reflexivity]. }
  assert (HR00 : y + h = H -> sumOver (part selR lo hi x (x + w)) used = 0).
  { intros HxwW. apply sumOver_zero. eapply Forall_impl; [exact Hused|].
    intros u (?&?&?&?&?&?). unfold part. subst selR. cbn beta.
    destruct (Z.eqb_spec (Rect.y u) (y + h)); [lia | reflexivity]. }
  split; [lia|].
  destruct (Z.eqb_spec y 0) as [Hx0 | Hx0]; cbn [orb].
  - specialize (HL00 Hx0). lia.
  - destruct (Z.eqb_spec (y + h) H) as [HxW' | HxW'].
    + specialize (HR00 HxW'). lia.
    + lia.
Qed.


Lemma contactBody_exact z u :
  inBin W H u -> 0 <= z ->
  z + touchVertical x y w h u + touchHorizontal x y w h u <= Int.INT_MAX ->
  contactBody x y w h z u = z + touchVertical x y w h u + touchHorizontal x y w h u.
Proof using Hperimeter Hplace.
  destruct Hplace as (Hx & Hy & Hw & Hh & HxW & HyH). cbn in Hx, Hy, Hw, Hh, HxW, HyH.
  intros (?&?&?&?&?&?) Hz. unfold contactBody, touchVertical, touchHorizontal.
  assert (Int.add x w = x + w) as -> by (unwrap; reflexivity).
  assert (Int.add y h = y + h) as -> by (unwrap; reflexivity).
  assert (Int.add (Rect.x u) (Rect.width u) = Rect.x u + Rect.width u) as ->
    by (unwrap; reflexivity).
  assert (Int.add (Rect.y u) (Rect.height u) = Rect.y u + Rect.height u) as ->
    by (unwrap; reflexivity).
  rewrite !commonIntervalLength_overlap by lia.
  assert (Hov : forall a b c d, 0 <= overlap a b c d) by (intros; unfold overlap; lia).
  pose proof (Hov (Rect.y u) (Rect.y u + Rect.height u) y (y + h)).
  pose proof (Hov (Rect.x u) (Rect.x u + Rect.width u) x (x + w)).
  destruct ((Rect.x u =? x + w) || (Rect.x u + Rect.width u =? x));
    destruct ((Rect.y u =? y + h) || (Rect.y u + Rect.height u =? y));
    intros Hsum; unwrap; lia.
Qed.

Lemma touch_nonneg u :
  0 <= touchVertical x y w h u /\ 0 <= touchHorizontal x y w h u.
Proof using Type.
  unfold touchVertical, touchHorizontal, overlap.
  destruct (_ || _); destruct (_ || _); lia.
Qed.

Lemma contact_fold_exact l :
  Forall (inBin W H) l ->
  forall z, 0 <= z ->
    z + sumOver (fun u => touchVertical x y w h u + touchHorizontal x y w h u) l
      <= Int.INT_MAX ->
    fold_left (contactBody x y w h) l z
    = z + sumOver (fun u => touchVertical x y w h u + touchHorizontal x y w h u) l.
Proof using Hperimeter Hplace.
  induction 1 as [|u l Hu Hl IH]; intros z Hz Hsum; cbn [fold_left sumOver fold_right] in *;
    [lia|].
  fold (sumOver (fun u => touchVertical x y w h u + touchHorizontal x y w h u) l) in *.
  destruct (touch_nonneg u) as [Hv Hh].
  assert (Hrest : 0 <= sumOver
            (fun u => touchVertical x y w h u + touchHorizontal x y w h u) l).
  { apply sumOver_nonneg, Forall_forall. intros v _.
    destruct (touch_nonneg v). lia. }
  rewrite contactBody_exact by (assumption || lia).
  rewrite IH by lia. lia.
Qed.

(** In a bin whose perimeter fits an [int], for used rectangles that lie in
    the bin and are pairwise apart, the contact score the code computes for a
    placement in the bin is the exact one; it is not negative and not above
    the perimeter of the placement. *)
Lemma contactPointScoreNode_exact :
  contactPointScoreNode W H used x y w h = contactExact W H used x y w h
  /\ 0 <= contactExact W H used x y w h <= 2 * (w + h).
Proof using Hperimeter Hused Hdisjoint Hplace.
  destruct touchVertical_bound as [HV0 HV].
  destruct touchHorizontal_bound as [HH0 HH].
  assert (Hb : 0 <= contactExact W H used x y w h <= 2 * (w + h)).
  { unfold contactExact. rewrite sumOver_add.
    destruct Hplace as (Hx & Hy & Hw & Hh & HxW & HyH).
    cbn in Hx, Hy, Hw, Hh, HxW, HyH.
    destruct ((x =? 0) || (x + w =? W)), ((y =? 0) || (y + h =? H)); lia. }
  split; [|exact Hb].
  unfold contactPointScoreNode.
  destruct Hplace as (Hx & Hy & Hw & Hh & HxW & HyH).
  cbn in Hx, Hy, Hw, Hh, HxW, HyH.
  assert (Int.add x w = x + w) as -> by (unwrap; reflexivity).
  assert (Int.add y h = y + h) as -> by (unwrap; reflexivity).
  unfold contactExact in *. rewrite sumOver_add in Hb.
  destruct ((x =? 0) || (x + w =? W)), ((y =? 0) || (y + h =? H));
    unwrap; rewrite contact_fold_exact; rewrite ?sumOver_add; try assumption; lia.
Qed.

End ContactScore.

(** ** C3: when an insertion fails *)

Lemma fold_keeps_height body w h :
  step_ok body w h -> w <> 0 -> h <> 0 ->
  forall l b,
    Rect.height (bestNode b) <> 0 ->
    Rect.height (bestNode (fold_left body l b)) <> 0.
Proof.
  intros Hok Hw Hh l. induction l as [|f l IH]; intros b Hb; cbn [fold_left]; [exact Hb|].
  apply IH. destruct (Hok b f) as [-> | [[_ ->] | [_ ->]]]; [exact Hb | cbn; lia | cbn; lia].
Qed.

(** A loop body that takes the first candidate it meets ends with a
    rectangle of non-zero height as soon as one free rectangle has room. *)
Lemma fold_first_fit body w h b0 (good : Rect.t -> Prop) :
  step_ok body w h -> w <> 0 -> h <> 0 ->
  (forall f, good f -> fits f w h = true \/ fits f h w = true ->
     Rect.height (bestNode (body b0 f)) <> 0) ->
  forall l, Forall good l ->
    (exists f, f ∈ l /\ (fits f w h = true \/ fits f h w = true)) ->
    Rect.height (bestNode (fold_left body l b0)) <> 0.
Proof.
  intros Hok Hw Hh Hfirst l. induction l as [|f l IH]; intros Hgood (g & Hg & Hfit).
  { by apply elem_of_nil in Hg. }
  inversion Hgood as [|? ? Hf Hl]; subst. cbn [fold_left].
  destruct (fits f w h) eqn:F1.
  { apply (fold_keeps_height body w h Hok Hw Hh). apply Hfirst; auto. }
  destruct (fits f h w) eqn:F2.
  { apply (fold_keeps_height body w h Hok Hw Hh). apply Hfirst; auto. }
  destruct (Hok b0 f) as [-> | [[F _] | [F _]]]; [|congruence|congruence].
  apply IH; [exact Hl|]. apply elem_of_cons in Hg as [-> | Hg].
  - destruct Hfit; congruence.
  - by exists g.
Qed.

Ltac first_fit_tac :=
  repeat match goal with
  | |- context [if ?c then _ else _] => destruct c eqn:?; cbn [bestNode Rect.height]
  end;
  try lia; exfalso; bool_to_prop; unwrap; lia.

Section FirstFit.

Variables W H : Z.
Hypothesis HW : W <= Int.INT_MAX.
Hypothesis HH : H <= Int.INT_MAX.
Variables w h : Z.
Hypothesis Hw : 0 < w.
Hypothesis Hh : 0 < h.
Variable f : Rect.t.
Hypothesis Hf : inBin W H f.
Hypothesis Hfit : fits f w h = true \/ fits f h w = true.

Lemma bestShortSideFit_first :
  Rect.height (bestNode (bestShortSideFitBody w h
    (mkBest Rect.zero Int.INT_MAX Int.INT_MAX) f)) <> 0.
Proof using HW HH Hw Hh Hf Hfit.
  destruct Hf as (?&?&?&?&?&?). unfold fits in Hfit. unfold bestShortSideFitBody.
  cbn beta iota. destruct Hfit as [F | F]; rewrite ?F; first_fit_tac.
Qed.

Lemma bestLongSideFit_first :
  Rect.height (bestNode (bestLongSideFitBody w h
    (mkBest Rect.zero Int.INT_MAX Int.INT_MAX) f)) <> 0.
Proof using HW HH Hw Hh Hf Hfit.
  destruct Hf as (?&?&?&?&?&?). unfold fits in Hfit. unfold bestLongSideFitBody.
  cbn beta iota. destruct Hfit as [F | F]; rewrite ?F; first_fit_tac.
Qed.

Lemma bottomLeft_first :
  Rect.height (bestNode (bottomLeftBody w h
    (mkBest Rect.zero Int.INT_MAX Int.INT_MAX) f)) <> 0.
Proof using HW HH Hw Hh Hf Hfit.
  destruct Hf as (?&?&?&?&?&?). unfold fits in Hfit. unfold bottomLeftBody.
  cbn beta iota. destruct Hfit as [F | F]; rewrite ?F; first_fit_tac.
Qed.

Lemma bestAreaFit_first :
  Rect.height (bestNode (bestAreaFitBody w h
    (mkBest Rect.zero Int.INT_MAX Int.INT_MAX) f)) <> 0.
Proof using HW HH Hw Hh Hf Hfit.
  destruct Hf as (?&?&?&?&?&?). unfold fits in Hfit. unfold bestAreaFitBody.
  pose proof (wrap_le_max (Int.mul (Rect.width f) (Rect.height f) - Int.mul w h)) as Ha.
  fold (Int.sub (Int.mul (Rect.width f) (Rect.height f)) (Int.mul w h)) in Ha.
  generalize dependent (Int.sub (Int.mul (Rect.width f) (Rect.height f)) (Int.mul w h)).
  intros areaFit Ha.
  cbn beta iota. destruct Hfit as [F | F]; rewrite ?F; first_fit_tac.
Qed.

End FirstFit.

Lemma contactPoint_first W H used w h f :
  2 * (W + H) <= Int.INT_MAX ->
  Forall (inBin W H) used -> pairwise apart used ->
  0 < w -> 0 < h -> inBin W H f ->
  fits f w h = true \/ fits f h w = true ->
  Rect.height (bestNode (contactPointBody W H used w h (mkBest Rect.zero (-1) 0) f)) <> 0.
Proof.
  intros Hper Hused Hdisj Hw Hh Hf Hfit.
  assert (S1 : fits f w h = true ->
               0 <= contactPointScoreNode W H used (Rect.x f) (Rect.y f) w h).
  { intros F. unfold fits in F. bool_to_prop.
    destruct (contactPointScoreNode_exact W H Hper used Hused Hdisj
      (Rect.x f) (Rect.y f) w h) as [-> [Hnn _]]; [|exact Hnn].
    destruct Hf as (?&?&?&?&?&?). unfold inBin. cbn. lia. }
  assert (S2 : fits f h w = true ->
               0 <= contactPointScoreNode W H used (Rect.x f) (Rect.y f) h w).
  { intros F. unfold fits in F. bool_to_prop.
    destruct (contactPointScoreNode_exact W H Hper used Hused Hdisj
      (Rect.x f) (Rect.y f) h w) as [-> [Hnn _]]; [|exact Hnn].
    destruct Hf as (?&?&?&?&?&?). unfold inBin. cbn. lia. }
  unfold fits in *. unfold contactPointBody.
  generalize dependent (contactPointScoreNode W H used (Rect.x f) (Rect.y f) w h).
  generalize dependent (contactPointScoreNode W H used (Rect.x f) (Rect.y f) h w).
  intros c2 S2 c1 S1. cbn beta iota.
  repeat match goal with
  | |- context [if ?c then _ else _] => destruct c eqn:?; cbn [bestNode Rect.height]
  end; try lia; exfalso;
  destruct Hfit as [F | F];
    try (specialize (S1 F)); try (specialize (S2 F)); try congruence;
    bool_to_prop; lia.
Qed.

(** In a packer that satisfies the invariant, a request with positive sides
    for which some free rectangle has room, in one orientation or the other,
    gets a rectangle of non-zero height; the contact-point scorer needs the
    perimeter of the bin to fit an [int] for that. *)
Lemma findPosition_fit s w h m :
  packInv s -> 0 < w -> 0 < h ->
  (m = RectContactPointRule -> 2 * (binWidth s + binHeight s) <= Int.INT_MAX) ->
  (exists f, f ∈ freeRectangles s /\ (fits f w h = true \/ fits f h w = true)) ->
  Rect.height (findPosition m s w h) <> 0.
Proof.
  intros [[_ HW] [_ HH] Hfree Hused _ Hdisj] Hw Hh Hper Hex.
  destruct m; cbn [findPosition findPositionForNewNodeBestShortSideFit
    findPositionForNewNodeBestLongSideFit findPositionForNewNodeBestAreaFit
    findPositionForNewNodeBottomLeft findPositionForNewNodeContactPoint fst].
  - apply (fold_first_fit _ w h _ (inBin (binWidth s) (binHeight s)));
      [apply bestShortSideFitBody_ok | lia | lia | | exact Hfree | exact Hex].
    intros f Hf Hfit.
    exact (bestShortSideFit_first _ _ HW HH w h Hw Hh f Hf Hfit).
  - apply (fold_first_fit _ w h _ (inBin (binWidth s) (binHeight s)));
      [apply bestLongSideFitBody_ok | lia | lia | | exact Hfree | exact Hex].
    intros f Hf Hfit.
    exact (bestLongSideFit_first _ _ HW HH w h Hw Hh f Hf Hfit).
  - apply (fold_first_fit _ w h _ (inBin (binWidth s) (binHeight s)));
      [apply bestAreaFitBody_ok | lia | lia | | exact Hfree | exact Hex].
    intros f Hf Hfit.
    exact (bestAreaFit_first _ _ HW HH w h Hw Hh f Hf Hfit).
  - apply (fold_first_fit _ w h _ (inBin (binWidth s) (binHeight s)));
      [apply bottomLeftBody_ok | lia | lia | | exact Hfree | exact Hex].
    intros f Hf Hfit.
    exact (bottomLeft_first _ _ HW HH w h Hw Hh f Hf Hfit).
  - apply (fold_first_fit _ w h _ (inBin (binWidth s) (binHeight s)));
      [apply contactPointBody_ok | lia | lia | | exact Hfree | exact Hex].
    intros f Hf Hfit. apply contactPoint_first; auto.
Qed.

(** C3, as the code has it.  In a packer initialised with positive [int]
    bin sides and taken through any sequence of [insert] calls with positive
    [int] sides, for a further such call under any heuristic: when no free
    rectangle has room for the request in either orientation, the returned
    rectangle has height zero; under the four heuristics other than contact
    point, and under contact point when the perimeter of the bin fits an
    [int], the returned rectangle has height zero exactly when no free
    rectangle has room; [insert] is a total function that returns a rectangle
    and the packer, so the zero height is the only signal, the rectangle is
    then the all-zero one and the packer is unchanged. *)
Theorem insert_fails_iff_no_room (W H : Z) (reqs : list Request.t) (q : Request.t) :
  0 < W <= Int.INT_MAX -> 0 < H <= Int.INT_MAX ->
  Forall Request.positive reqs -> Request.positive q ->
  let s := insertAll reqs (init W H) in
  let r := (insert (Request.width q) (Request.height q) (Request.method q) s).1 in
  let noFit := forall f, f ∈ freeRectangles s ->
                 fits f (Request.width q) (Request.height q) = false
                 /\ fits f (Request.height q) (Request.width q) = false in
  (noFit -> Rect.height r = 0)
  /\ ((Request.method q = RectContactPointRule -> 2 * (W + H) <= Int.INT_MAX) ->
      (Rect.height r = 0 <-> noFit))
  /\ (Rect.height r = 0 ->
      insert (Request.width q) (Request.height q) (Request.method q) s = (Rect.zero, s)).
Proof.
  intros HW HH Hpos [Hqw Hqh] s r noFit.
  pose proof (insertAll_inv reqs (init W H) (init_inv W H HW HH) Hpos) as Hinv.
  destruct (insertAll_bin reqs (init W H)) as [HbW HbH]. cbn in HbW, HbH.
  fold s in Hinv, HbW, HbH.
  assert (Hr : r = findPosition (Request.method q) s (Request.width q) (Request.height q)).
  { subst r. unfold insert. destruct (_ =? 0); reflexivity. }
  assert (Hif : noFit -> Rect.height r = 0).
  { intros Hnone. rewrite Hr.
    destruct (findPosition_cases (Request.method q) s (Request.width q) (Request.height q))
      as [-> | (f & Hf & [[F _] | [F _]])]; [reflexivity | |];
      destruct (Hnone f Hf); congruence. }
  split; [exact Hif|]. split.
  - intros Hper. split; [|exact Hif].
    intros Hz f Hf.
    destruct (fits f (Request.width q) (Request.height q)) eqn:F1;
      [|destruct (fits f (Request.height q) (Request.width q)) eqn:F2; [|done]];
      exfalso; rewrite Hr in Hz; revert Hz;
      (apply findPosition_fit;
        [exact Hinv | lia | lia | by rewrite HbW, HbH | exists f; auto]).
  - intros Hz. rewrite Hr in Hz. rewrite (insert_early_return _ _ _ _ Hz). f_equal.
    destruct (findPosition_cases (Request.method q) s (Request.width q) (Request.height q))
      as [-> | (f & _ & [[_ Heq] | [_ Heq]])]; [reflexivity | |];
      rewrite Heq in Hz; cbn in Hz; lia.
Qed.

(** Scenario B of the specification, after one successful insertion: a 12
    by 5 request has no room in a 10 by 10 bin and is rejected; a 6 by 6
    request has room, and is not. *)
Lemma insert_fails_iff_no_room_witness :
  let s := insertAll [Request.mk 4 4 RectContactPointRule] (init 10 10) in
  insert 12 5 RectContactPointRule s = (Rect.zero, s)
  /\ (Rect.height (insert 6 6 RectContactPointRule s).1 = 0 <->
      forall f, f ∈ freeRectangles s -> fits f 6 6 = false /\ fits f 6 6 = false).
Proof.
  split.
  - refine (proj2 (proj2 (insert_fails_iff_no_room 10 10
      [Request.mk 4 4 RectContactPointRule]
      (Request.mk 12 5 RectContactPointRule) _ _ _ _)) _).
    + unfold Int.INT_MAX; lia.
    + unfold Int.INT_MAX; lia.
    + repeat constructor; cbn; unfold Int.INT_MAX; lia.
    + split; cbn; unfold Int.INT_MAX; lia.
    + reflexivity.
  - refine (proj1 (proj2 (insert_fails_iff_no_room 10 10
      [Request.mk 4 4 RectContactPointRule]
      (Request.mk 6 6 RectContactPointRule) _ _ _ _)) _).
    + unfold Int.INT_MAX; lia.
    + unfold Int.INT_MAX; lia.
    + repeat constructor; cbn; unfold Int.INT_MAX; lia.
    + split; cbn; unfold Int.INT_MAX; lia.
    + intros _. unfold Int.INT_MAX; lia.
Defined.

(** C3, as it is stated, under the contact-point heuristic in a fresh bin of
    2^30 by 2^30 and for a request of that size: the request has positive
    [int] sides and the free rectangle has room for it, but the contact
    score of the placement, 2^30 + 2^30, does not fit an [int]; the scorer
    finds it below its initial best of [-1], and [insert] returns the
    all-zero rectangle and leaves the packer as it was. *)
Lemma insert_rejects_with_room :
  let side := 1073741824 in
  let s := init side side in
  Request.positive (Request.mk side side RectContactPointRule)
  /\ freeRectangles s = [Rect.mk 0 0 side side]
  /\ fits (Rect.mk 0 0 side side) side side = true
  /\ contactPointScoreNode side side [] 0 0 side side = Int.INT_MIN
  /\ insert side side RectContactPointRule s = (Rect.zero, s)
  /\ Rect.height (insert side side RectContactPointRule s).1 = 0
  /\ ~ (forall f, f ∈ freeRectangles s ->
          fits f side side = false /\ fits f side side = false).
Proof.
  cbn zeta. split; [split; cbn; unfold Int.INT_MAX; lia|].
  split; [reflexivity|]. split; [reflexivity|]. split; [reflexivity|].
  split; [reflexivity|]. split; [reflexivity|].
  intros Hno.
  destruct (Hno (Rect.mk 0 0 1073741824 1073741824)) as [Hf _]; [by left|].
  vm_compute in Hf. discriminate.
Qed.

(** ** C9: the contact-point scorer *)

Lemma candidate_snoc l f w h c :
  candidate (l ++ [f]) w h c <->
  candidate l w h c
  \/ (fits f w h = true /\ c = placeAt f w h)
  \/ (fits f h w = true /\ c = placeAt f h w).
Proof.
  unfold candidate. split.
  - intros (g & Hg & Hc). apply elem_of_app in Hg as [Hg | Hg].
    + left. by exists g.
    + apply list_elem_of_singleton in Hg as ->. right. exact Hc.
  - intros [(g & Hg & Hc) | Hc].
    + exists g. split; [apply elem_of_app; by left | exact Hc].
    + exists f. split; [apply elem_of_app; right; by apply list_elem_of_singleton | exact Hc].
Qed.

Lemma contactPointBody_tries s w h b f :
  contactPointBody (binWidth s) (binHeight s) (usedRectangles s) w h b f
  = contactTry s h w (contactTry s w h b f) f.
Proof.
  destruct b as [n k1 k2]. unfold contactPointBody, contactTry, fits, contactOf, placeAt.
  cbn [Rect.x Rect.y Rect.width Rect.height best1 best2].
  repeat match goal with
  | |- context [if ?c then _ else _] => destruct c; cbn [best1 best2]
  end; reflexivity.
Qed.

(** One orientation tried on one free rectangle: the running best stays the
    highest-scoring of the candidates met, now with the new one among
    them. *)
Lemma contactTry_best s w h (met : Rect.t -> Prop) b f :
  (forall c, met c -> contactOf s c <= best1 b) ->
  (b = mkBest Rect.zero (-1) 0 \/ (met (bestNode b) /\ best1 b = contactOf s (bestNode b))) ->
  let met' := fun c => met c \/ (fits f w h = true /\ c = placeAt f w h) in
  let b' := contactTry s w h b f in
  (forall c, met' c -> contactOf s c <= best1 b')
  /\ (b' = mkBest Rect.zero (-1) 0
      \/ (met' (bestNode b') /\ best1 b' = contactOf s (bestNode b'))).
Proof.
  intros Hmax Hbest met' b'. subst met' b'. unfold contactTry.
  destruct (fits f w h) eqn:F.
  - rewrite Z.gtb_ltb. destruct (Z.ltb_spec (best1 b) (contactOf s (placeAt f w h))).
    + cbn [best1 bestNode]. split.
      * intros c [Hc | [_ ->]]; [specialize (Hmax c Hc); lia | lia].
      * right. split; [right; by split | reflexivity].
    + split.
      * intros c [Hc | [_ ->]]; [by apply Hmax | assumption].
      * destruct Hbest as [Hb | [Hb1 Hb2]]; [by left | right; split; [by left | exact Hb2]].
  - split.
    + intros c [Hc | [? _]]; [by apply Hmax | discriminate].
    + destruct Hbest as [Hb | [Hb1 Hb2]]; [by left | right; split; [by left | exact Hb2]].
Qed.

Lemma contactPointBody_best s w h seen b f :
  contactBestOf s w h seen b ->
  contactBestOf s w h (seen ++ [f])
    (contactPointBody (binWidth s) (binHeight s) (usedRectangles s) w h b f).
Proof.
  intros [Hmax Hbest]. rewrite contactPointBody_tries.
  destruct (contactTry_best s w h (candidate seen w h) b f Hmax Hbest) as [Hmax1 Hbest1].
  destruct (contactTry_best s h w _ _ f Hmax1 Hbest1) as [Hmax2 Hbest2].
  split.
  - intros c Hc. apply Hmax2. apply candidate_snoc in Hc. tauto.
  - destruct Hbest2 as [Hb | [Hb1 Hb2]]; [by left|]. right. split; [|exact Hb2].
    apply candidate_snoc. tauto.
Qed.

Lemma contactPoint_fold_best s w h l :
  forall seen b,
    contactBestOf s w h seen b ->
    contactBestOf s w h (seen ++ l)
      (fold_left (contactPointBody (binWidth s) (binHeight s) (usedRectangles s) w h) l b).
Proof.
  induction l as [|f l IH]; intros seen b Hb; cbn [fold_left].
  - by rewrite app_nil_r.
  - replace (seen ++ f :: l) with ((seen ++ [f]) ++ l)
      by (rewrite <- app_assoc; reflexivity).
    apply IH. by apply contactPointBody_best.
Qed.

(** The contact-point scorer returns a candidate of highest contact score
    with that score, or the all-zero rectangle with the score [-1] when no
    candidate scores above [-1]. *)
Lemma findPositionForNewNodeContactPoint_best s w h :
  contactBestOf s w h (freeRectangles s)
    (mkBest (findPositionForNewNodeContactPoint s w h).1
            (findPositionForNewNodeContactPoint s w h).2 0).
Proof.
  pose proof (contactPoint_fold_best s w h (freeRectangles s) []
    (mkBest Rect.zero (-1) 0)) as Hb.
  cbn [app] in Hb. unfold findPositionForNewNodeContactPoint. cbn [fst snd].
  destruct (fold_left _ _ _) as [n k1 k2] eqn:E. cbn [bestNode best1].
  assert (Hinit : contactBestOf s w h [] (mkBest Rect.zero (-1) 0)).
  { split; [|by left]. intros c (g & Hg & _). by apply elem_of_nil in Hg. }
  destruct (Hb Hinit) as [Hmax Hbest]. split; [exact Hmax|].
  destruct Hbest as [[= -> -> ->] | Hbest]; [by left | by right].
Qed.

(** C9, as the code has it.  In a packer initialised with positive bin
    sides whose perimeter fits an [int] and taken through any sequence of
    [insert] calls with positive [int] sides, the contact score of a
    placement with positive sides in the bin is [h] if the placement is flush
    against the left or the right bin edge (once, also when it is flush
    against both), plus [w] if it is flush against the top or the bottom bin
    edge (once), plus for every used rectangle the overlap length of the
    vertical extents when a vertical edge of it is on the line of the
    opposite vertical edge of the placement and the overlap length of the
    horizontal extents when a horizontal edge is.  For a request with
    positive sides the scorer returns, when a free rectangle has room, a
    candidate whose contact score no other candidate exceeds, with that
    score, and otherwise the all-zero rectangle with the score [-1]. *)
Theorem contact_score_as_computed (W H : Z) (reqs : list Request.t) :
  0 < W -> 0 < H -> 2 * (W + H) <= Int.INT_MAX ->
  Forall Request.positive reqs ->
  let s := insertAll reqs (init W H) in
  (forall x y w h, inBin W H (Rect.mk x y w h) ->
     contactPointScoreNode W H (usedRectangles s) x y w h
     = contactExact W H (usedRectangles s) x y w h)
  /\ (forall w h, 0 < w -> 0 < h ->
        let r := (findPositionForNewNodeContactPoint s w h).1 in
        let cs := (findPositionForNewNodeContactPoint s w h).2 in
        (forall c, candidate (freeRectangles s) w h c -> contactOf s c <= cs)
        /\ ((exists c, candidate (freeRectangles s) w h c) ->
            candidate (freeRectangles s) w h r /\ cs = contactOf s r)
        /\ (~ (exists c, candidate (freeRectangles s) w h c) ->
            r = Rect.zero /\ cs = -1)).
Proof.
  intros HW HH Hper Hpos s.
  assert (HWmax : 0 < W <= Int.INT_MAX) by lia.
  assert (HHmax : 0 < H <= Int.INT_MAX) by lia.
  pose proof (insertAll_inv reqs (init W H) (init_inv W H HWmax HHmax) Hpos) as Hinv.
  destruct (insertAll_bin reqs (init W H)) as [HbW HbH]. cbn in HbW, HbH.
  fold s in Hinv, HbW, HbH. split.
  - intros x y w h Hplace.
    destruct Hinv as [_ _ _ Hused _ Hdisj]. rewrite HbW, HbH in Hused.
    by destruct (contactPointScoreNode_exact W H Hper (usedRectangles s) Hused Hdisj
      x y w h Hplace) as [-> _].
  - intros w h Hw Hh r cs.
    destruct (findPositionForNewNodeContactPoint_best s w h) as [Hmax Hbest].
    cbn [best1 bestNode] in Hmax, Hbest. fold r cs in Hmax, Hbest.
    split; [exact Hmax|]. split.
    + intros (c & f & Hf & Hc).
      assert (Hnz : Rect.height (findPosition RectContactPointRule s w h) <> 0).
      { apply findPosition_fit; [exact Hinv | exact Hw | exact Hh | |].
        - intros _. by rewrite HbW, HbH.
        - exists f. split; [exact Hf|]. destruct Hc as [[F _] | [F _]]; auto. }
      change (findPosition RectContactPointRule s w h) with r in Hnz.
      destruct Hbest as [[= Hr _] | Hbest]; [|exact Hbest].
      rewrite Hr in Hnz. cbn in Hnz. lia.
    + intros Hnone. destruct Hbest as [[= Hr Hcs] | [Hc _]]; [by split|].
      exfalso. apply Hnone. by exists r.
Qed.

(** After a 2 by 2 rectangle in the corner of a 4 by 4 bin, a 2 by 2
    placement next to it. *)
Lemma contact_score_as_computed_witness :
  let s := insertAll [Request.mk 2 2 RectContactPointRule] (init 4 4) in
  usedRectangles s = [Rect.mk 0 0 2 2]
  /\ contactPointScoreNode 4 4 (usedRectangles s) 2 0 2 2
     = contactExact 4 4 (usedRectangles s) 2 0 2 2
  /\ contactExact 4 4 (usedRectangles s) 2 0 2 2 = 6.
Proof.
  cbn zeta. split; [reflexivity|]. split; [|reflexivity].
  refine (proj1 (contact_score_as_computed 4 4 [Request.mk 2 2 RectContactPointRule]
    _ _ _ _) 2 0 2 2 _).
  - lia.
  - lia.
  - unfold Int.INT_MAX; lia.
  - repeat constructor; cbn; unfold Int.INT_MAX; lia.
  - unfold inBin; cbn; lia.
Defined.

(** C9, as it is stated, at a 4 by 2 placement in the corner of an empty 4
    by 4 bin, a candidate for a 4 by 2 request: the placement is flush
    against the left edge, the right edge and the top edge, which in the
    words of the claim gives 2 + 2 + 4 = 8; the code gives 6. *)
Lemma contact_score_both_edges_once :
  let s := init 4 4 in
  candidate (freeRectangles s) 4 2 (Rect.mk 0 0 4 2)
  /\ contactSpec (binWidth s) (binHeight s) (usedRectangles s) 0 0 4 2 = 8
  /\ contactPointScoreNode (binWidth s) (binHeight s) (usedRectangles s) 0 0 4 2 = 6
  /\ contactPointScoreNode (binWidth s) (binHeight s) (usedRectangles s) 0 0 4 2
     <> contactSpec (binWidth s) (binHeight s) (usedRectangles s) 0 0 4 2.
Proof.
  cbn zeta. split.
  - exists (Rect.mk 0 0 4 4). split; [left | left; split; reflexivity].
  - repeat split; try reflexivity. vm_compute. discriminate.
Qed.

(** Why the perimeter of the bin has to fit an [int]: in a fresh bin of
    [INT_MAX] by [INT_MAX] the placement that fills it is flush against the
    bin edges in both directions, so that its exact score is twice [INT_MAX];
    the [int] the code adds in holds [-2], which is below the scorer's
    initial best of [-1], and the scorer returns no candidate. *)
Example contact_score_beyond_int :
  let s := init Int.INT_MAX Int.INT_MAX in
  contactExact Int.INT_MAX Int.INT_MAX [] 0 0 Int.INT_MAX Int.INT_MAX = 4294967294
  /\ contactPointScoreNode Int.INT_MAX Int.INT_MAX [] 0 0 Int.INT_MAX Int.INT_MAX = -2
  /\ candidate (freeRectangles s) Int.INT_MAX Int.INT_MAX
       (Rect.mk 0 0 Int.INT_MAX Int.INT_MAX)
  /\ findPositionForNewNodeContactPoint s Int.INT_MAX Int.INT_MAX = (Rect.zero, -1).
Proof.
  cbn zeta. split; [reflexivity|]. split; [reflexivity|]. split; [|reflexivity].
  exists (Rect.mk 0 0 Int.INT_MAX Int.INT_MAX). split; [left | left; split; reflexivity].
Qed.

(** * Further properties of the packer *)

(** ** What the free list and the used list keep *)

(** X1. In a packer initialised with positive [int] bin sides, after any
    sequence of [insert] calls with positive [int] sides, every free
    rectangle has positive sides, lies in the bin and is disjoint
    ([DisjointRectCollection::disjoint]) from every used rectangle. *)
Theorem free_rectangles_clear_of_used (W H : Z) (reqs : list Request.t) :
  0 < W <= Int.INT_MAX -> 0 < H <= Int.INT_MAX ->
  Forall Request.positive reqs ->
  let s := insertAll reqs (init W H) in
  Forall (fun f =>
            inBin W H f
            /\ Forall (fun u => DisjointRectCollection.disjoint2 f u = true)
                 (usedRectangles s))
    (freeRectangles s).
Proof.
  intros HW HH Hpos s.
  pose proof (insertAll_inv reqs (init W H) (init_inv W H HW HH) Hpos) as Hinv.
  destruct (insertAll_bin reqs (init W H)) as [HbW HbH]. cbn in HbW, HbH.
  fold s in Hinv, HbW, HbH.
  destruct Hinv as [_ _ Hfree Hused Hfu _]. rewrite HbW, HbH in Hfree, Hused.
  rewrite Forall_forall in Hfree, Hused, Hfu |- *. intros f Hf.
  split; [by apply Hfree|]. apply Forall_forall. intros u Hu.
  apply (disjoint2_apart W H); [lia | lia | by apply Hfree | by apply Hused |].
  pose proof (Hfu f Hf) as Hfa. rewrite Forall_forall in Hfa. by apply Hfa.
Qed.

(** Two 2 by 2 rectangles in a 4 by 4 bin leave one free rectangle. *)
Lemma free_rectangles_clear_of_used_witness :
  let s := insertAll [Request.mk 2 2 RectBottomLeftRule; Request.mk 2 2 RectBottomLeftRule]
             (init 4 4) in
  freeRectangles s = [Rect.mk 0 2 4 2]
  /\ Forall (fun f => inBin 4 4 f
               /\ Forall (fun u => DisjointRectCollection.disjoint2 f u = true)
                    (usedRectangles s)) (freeRectangles s).
Proof.
  cbn zeta. split; [reflexivity|].
  apply (free_rectangles_clear_of_used 4 4
    [Request.mk 2 2 RectBottomLeftRule; Request.mk 2 2 RectBottomLeftRule]).
  - unfold Int.INT_MAX; lia.
  - unfold Int.INT_MAX; lia.
  - repeat constructor; cbn; unfold Int.INT_MAX; lia.
Defined.

Lemma insert_free_antichain w h m s :
  pairwise incomparable (freeRectangles s) ->
  pairwise incomparable (freeRectangles (insert w h m s).2).
Proof.
  intros Hp. unfold insert. destruct (_ =? 0); [exact Hp|].
  cbn [snd freeRectangles]. apply pruneFreeList_antichain.
Qed.

(** X2. After [init] and any sequence of [insert] calls, whatever their
    arguments, no free rectangle is contained in another free rectangle of
    the list. *)
Theorem free_rectangles_antichain (W H : Z) (reqs : list Request.t) :
  let free := freeRectangles (insertAll reqs (init W H)) in
  forall i j a b, i <> j -> free !! i = Some a -> free !! j = Some b ->
    isContainedIn a b = false.
Proof.
  cbn zeta.
  assert (Hp : pairwise incomparable (freeRectangles (insertAll reqs (init W H)))).
  { assert (Hgen : forall s, pairwise incomparable (freeRectangles s) ->
              pairwise incomparable (freeRectangles (insertAll reqs s))).
    { unfold insertAll. induction reqs as [|q reqs IH]; intros s Hs; cbn [fold_left];
        [exact Hs|].
      apply IH. by apply insert_free_antichain. }
    apply Hgen. cbn. split; [constructor | exact I]. }
  intros i j a b Hij Hi Hj.
  destruct (Nat.lt_trichotomy i j) as [Hlt | [-> | Hgt]]; [| congruence |].
  - by destruct (pairwise_lookup incomparable _ Hp i j a b Hlt Hi Hj).
  - by destruct (pairwise_lookup incomparable _ Hp j i b a Hgt Hj Hi).
Qed.

(** After a 2 by 2 rectangle in a 4 by 4 bin the two free rectangles cross. *)
Lemma free_rectangles_antichain_witness :
  isContainedIn (Rect.mk 0 2 4 2) (Rect.mk 2 0 2 4) = false.
Proof.
  apply (free_rectangles_antichain 4 4 [Request.mk 2 2 RectBottomLeftRule] 0%nat 1%nat).
  - lia.
  - reflexivity.
  - reflexivity.
Defined.

Lemma insert_used_prefix w h m s :
  usedRectangles s `prefix_of` usedRectangles (insert w h m s).2
  /\ binWidth (insert w h m s).2 = binWidth s
  /\ binHeight (insert w h m s).2 = binHeight s.
Proof.
  unfold insert. destruct (_ =? 0); cbn [snd usedRectangles binWidth binHeight].
  - done.
  - split; [|done]. by apply prefix_app_r.
Qed.

(** X17. The used list is append-only and the bin keeps its size: the used
    list before a sequence of [insert] calls is a prefix of the used list
    after it, so no placement that was returned is moved or dropped, and at
    most one rectangle is added per call. *)
Theorem used_rectangles_append_only (s : MaxRectsBinPack) (reqs : list Request.t) :
  usedRectangles s `prefix_of` usedRectangles (insertAll reqs s)
  /\ (length (usedRectangles (insertAll reqs s))
      <= length (usedRectangles s) + length reqs)%nat
  /\ binWidth (insertAll reqs s) = binWidth s
  /\ binHeight (insertAll reqs s) = binHeight s.
Proof.
  unfold insertAll. revert s.
  induction reqs as [|q reqs IH]; intros s; cbn [fold_left length].
  - repeat split; [done | lia].
  - destruct (IH (insert (Request.width q) (Request.height q) (Request.method q) s).2)
      as (Hp & Hl & HW & HH).
    destruct (insert_used_prefix (Request.width q) (Request.height q)
                (Request.method q) s) as (Hp1 & HW1 & HH1).
    split; [by etransitivity|]. split; [|split; congruence].
    assert (Hone : (length (usedRectangles
              (insert (Request.width q) (Request.height q) (Request.method q) s).2)
            <= S (length (usedRectangles s)))%nat).
    { unfold insert. destruct (_ =? 0); cbn [snd usedRectangles]; [lia|].
      rewrite length_app. cbn. lia. }
    lia.
Qed.

(** ** The free rectangles cover what the used ones leave *)

Lemma isContainedIn_within W H a b :
  W <= Int.INT_MAX -> H <= Int.INT_MAX -> inBin W H a -> inBin W H b ->
  isContainedIn a b = true -> within a b.
Proof.
  intros HW HH (?&?&?&?&?&?) (?&?&?&?&?&?). unfold isContainedIn, within.
  unwrap. rewrite !Z.geb_leb, !andb_true_iff, !Z.leb_le. lia.
Qed.

Lemma within_cellIn px py a b : within a b -> cellIn px py a -> cellIn px py b.
Proof. unfold within, cellIn. lia. Qed.

Lemma cellIn_not_apart px py a b : cellIn px py a -> cellIn px py b -> ~ apart a b.
Proof. unfold cellIn, apart. lia. Qed.

(** A cell of the free rectangle that the used rectangle leaves out lies in
    one of the residuals. *)
Lemma residuals_cover f u px py :
  0 < Rect.width f -> 0 < Rect.height f ->
  cellIn px py f -> ~ cellIn px py u ->
  exists g, g ∈ residuals f u /\ cellIn px py g.
Proof.
  intros Hw Hh Hf Hu. rewrite residuals_unfold by assumption.
  unfold cellIn in *.
  destruct (Z.lt_ge_cases py (Rect.y u)) as [Hy1 | Hy1].
  { exists (sliverAbove f u). split; [|cbn; lia].
    destruct (Z.ltb_spec (Rect.y f) (Rect.y u)); [|lia].
    apply elem_of_app. left. by apply list_elem_of_singleton. }
  destruct (Z.lt_ge_cases py (Rect.y u + Rect.height u)) as [Hy2 | Hy2].
  2:{ exists (sliverBelow f u). split; [|cbn; lia].
      apply elem_of_app. right. apply elem_of_app. left.
      destruct (Z.ltb_spec (Rect.y u + Rect.height u) (Rect.y f + Rect.height f)); [|lia].
      by apply list_elem_of_singleton. }
  destruct (Z.lt_ge_cases px (Rect.x u)) as [Hx1 | Hx1].
  { exists (sliverLeft f u). split; [|cbn; lia].
    apply elem_of_app. right. apply elem_of_app. right. apply elem_of_app. left.
    destruct (Z.ltb_spec (Rect.x f) (Rect.x u)); [|lia].
    by apply list_elem_of_singleton. }
  exists (sliverRight f u). split; [|cbn; lia].
  apply elem_of_app. right. apply elem_of_app. right. apply elem_of_app. right.
  destruct (Z.ltb_spec (Rect.x u + Rect.width u) (Rect.x f + Rect.width f)); [|lia].
  by apply list_elem_of_singleton.
Qed.

(** The free list after the split loop, before the pruning. *)
Lemma split_list_elem s r g :
  packInv s -> inBin (binWidth s) (binHeight s) r ->
  g ∈ splitLoop (length (freeRectangles s)) 0 (length (freeRectangles s)) r
        (freeRectangles s) <->
  (g ∈ freeRectangles s /\ apart g r)
  \/ (exists f, f ∈ freeRectangles s /\ ~ apart f r /\ g ∈ residuals f r).
Proof.
  intros [[_ HW] [_ HH] Hfree _ _ _] Hr. rewrite Forall_forall in Hfree.
  rewrite splitLoop_all, elem_of_app. split.
  - intros [Hg | Hg].
    + apply list_elem_of_In, filter_In in Hg as [Hin Hs].
      apply list_elem_of_In in Hin. apply negb_true_iff in Hs.
      left. split; [exact Hin|].
      by apply (splits_apart _ _ HW HH g r (Hfree g Hin) Hr).
    + apply list_elem_of_In, in_flat_map in Hg as (f & Hin & Hgf).
      apply list_elem_of_In in Hin. apply list_elem_of_In in Hgf.
      destruct (splits f r) eqn:Hs.
      * right. exists f. split; [exact Hin|]. split.
        -- intros Ha. apply (splits_apart _ _ HW HH f r (Hfree f Hin) Hr) in Ha.
           congruence.
        -- by rewrite <- (splitAdds_residuals _ _ HW HH f r (Hfree f Hin) Hr Hs).
      * rewrite (splits_false_adds _ _ Hs) in Hgf. by apply elem_of_nil in Hgf.
  - intros [[Hin Ha] | (f & Hin & Hna & Hg)].
    + left. apply list_elem_of_In, filter_In. split; [by apply list_elem_of_In|].
      apply negb_true_iff.
      by apply (splits_apart _ _ HW HH g r (Hfree g Hin) Hr).
    + right. apply list_elem_of_In, in_flat_map. exists f.
      split; [by apply list_elem_of_In|]. apply list_elem_of_In.
      assert (Hs : splits f r = true).
      { destruct (splits f r) eqn:Hs; [reflexivity|].
        apply (splits_apart _ _ HW HH f r (Hfree f Hin) Hr) in Hs. contradiction. }
      by rewrite (splitAdds_residuals _ _ HW HH f r (Hfree f Hin) Hr Hs).
Qed.

Lemma split_list_inBin s r g :
  packInv s -> inBin (binWidth s) (binHeight s) r ->
  g ∈ splitLoop (length (freeRectangles s)) 0 (length (freeRectangles s)) r
        (freeRectangles s) ->
  inBin (binWidth s) (binHeight s) g.
Proof.
  intros Hinv Hr Hg. apply (split_list_elem s r g Hinv Hr) in Hg.
  destruct Hinv as [_ _ Hfree _ _ _]. rewrite Forall_forall in Hfree.
  destruct Hg as [[Hin _] | (f & Hin & Hna & Hg)]; [by apply Hfree|].
  destruct (residuals_sound _ _ f r (Hfree f Hin) Hr g Hg Hna) as (?&?&?&_).
  eapply inBin_within; [| | eassumption | by apply Hfree]; assumption.
Qed.

Lemma place_covered s r :
  packInv s -> covered s -> inBin (binWidth s) (binHeight s) r ->
  covered (placeRect r s).
Proof.
  intros Hinv Hcov Hr px py Hpx Hpy.
  cbn [placeRect binWidth binHeight usedRectangles freeRectangles] in *.
  destruct (Hcov px py Hpx Hpy) as [(u & Hu & Hc) | (f & Hf & Hc)].
  { left. exists u. split; [apply elem_of_app; by left | exact Hc]. }
  assert (Hdec : cellIn px py r \/ ~ cellIn px py r) by (unfold cellIn; lia).
  destruct Hdec as [Hin | Hout].
  { left. exists r. split; [|exact Hin].
    apply elem_of_app. right. by apply list_elem_of_singleton. }
  right.
  assert (Hpre : exists g,
            g ∈ splitLoop (length (freeRectangles s)) 0 (length (freeRectangles s)) r
                  (freeRectangles s) /\ cellIn px py g).
  { pose proof Hinv as [_ _ Hfree _ _ _]. rewrite Forall_forall in Hfree.
    assert (Hap : apart f r \/ ~ apart f r) by (unfold apart; lia).
    destruct Hap as [Ha | Hna].
    - exists f. split; [|exact Hc]. apply (split_list_elem s r f Hinv Hr). by left.
    - destruct (Hfree f Hf) as (_ & _ & Hfw & Hfh & _).
      destruct (residuals_cover f r px py Hfw Hfh Hc Hout) as (g & Hg & Hcg).
      exists g. split; [|exact Hcg]. apply (split_list_elem s r g Hinv Hr).
      right. by exists f. }
  destruct Hpre as (g & Hg & Hcg).
  destruct (pruneFreeList_covers _ g Hg) as (y & Hy & Hgy).
  exists y. split; [exact Hy|].
  pose proof Hinv as [[_ HW] [_ HH] _ _ _ _].
  apply (within_cellIn px py g y); [|exact Hcg].
  apply (isContainedIn_within _ _ g y HW HH); [| |exact Hgy].
  - by apply (split_list_inBin s r g).
  - apply (split_list_inBin s r y Hinv Hr).
    eapply elem_of_sublist; [exact Hy | apply pruneFreeList_sublist].
Qed.

Lemma insertAll_covered reqs :
  forall s, packInv s -> covered s -> Forall Request.positive reqs ->
    covered (insertAll reqs s).
Proof.
  unfold insertAll.
  induction reqs as [|q reqs IH]; intros s Hinv Hcov Hpos; cbn [fold_left]; [exact Hcov|].
  inversion Hpos as [|? ? [Hqw Hqh] Hrest]; subst.
  apply IH; [apply insert_inv; [exact Hinv | lia | lia] | | exact Hrest].
  destruct (Z.eq_dec (Rect.height (findPosition (Request.method q) s
              (Request.width q) (Request.height q))) 0) as [Hz | Hnz].
  - by rewrite (insert_early_return _ _ _ _ Hz).
  - rewrite (insert_placeRect _ _ _ _ Hnz). cbn [snd].
    apply place_covered; [exact Hinv | exact Hcov|].
    apply findPosition_inBin; [exact Hinv | lia | lia | exact Hnz].
Qed.

Lemma init_covered W H : covered (init W H).
Proof.
  intros px py Hpx Hpy. cbn in *. right. exists (Rect.mk 0 0 W H).
  split; [left | unfold cellIn; cbn; lia].
Qed.

(** X3. In a packer initialised with positive [int] bin sides, after any
    sequence of [insert] calls with positive [int] sides, every unit cell of
    the bin lies in a used rectangle or in a free rectangle, and never in
    both: the free rectangles cover exactly the area the used ones leave. *)
Theorem free_rectangles_cover_the_rest (W H : Z) (reqs : list Request.t) :
  0 < W <= Int.INT_MAX -> 0 < H <= Int.INT_MAX ->
  Forall Request.positive reqs ->
  let s := insertAll reqs (init W H) in
  forall px py, 0 <= px < W -> 0 <= py < H ->
    ((exists u, u ∈ usedRectangles s /\ cellIn px py u)
     \/ (exists f, f ∈ freeRectangles s /\ cellIn px py f))
    /\ ~ ((exists u, u ∈ usedRectangles s /\ cellIn px py u)
          /\ (exists f, f ∈ freeRectangles s /\ cellIn px py f)).
Proof.
  intros HW HH Hpos s px py Hpx Hpy.
  pose proof (insertAll_inv reqs (init W H) (init_inv W H HW HH) Hpos) as Hinv.
  pose proof (insertAll_covered reqs (init W H) (init_inv W H HW HH)
                (init_covered W H) Hpos) as Hcov.
  destruct (insertAll_bin reqs (init W H)) as [HbW HbH]. cbn in HbW, HbH.
  fold s in Hinv, Hcov, HbW, HbH. split.
  - apply Hcov; by rewrite ?HbW, ?HbH.
  - intros [(u & Hu & Hcu) (f & Hf & Hcf)].
    destruct Hinv as [_ _ _ _ Hfu _]. rewrite Forall_forall in Hfu.
    pose proof (Hfu f Hf) as Hfa. rewrite Forall_forall in Hfa.
    by apply (cellIn_not_apart px py f u Hcf Hcu), Hfa.
Qed.

(** After an 8 by 3 rectangle in a 10 by 10 bin, the cell in the far
    corner. *)
Lemma free_rectangles_cover_the_rest_witness :
  let s := insertAll [Request.mk 8 3 RectBestAreaFit] (init 10 10) in
  (exists u, u ∈ usedRectangles s /\ cellIn 9 9 u)
  \/ (exists f, f ∈ freeRectangles s /\ cellIn 9 9 f).
Proof.
  refine (proj1 (free_rectangles_cover_the_rest 10 10 [Request.mk 8 3 RectBestAreaFit]
    _ _ _ 9 9 _ _)).
  - unfold Int.INT_MAX; lia.
  - unfold Int.INT_MAX; lia.
  - repeat constructor; cbn; unfold Int.INT_MAX; lia.
  - lia.
  - lia.
Defined.

(** X4. In such a packer the free list is empty exactly when the used
    rectangles cover every unit cell of the bin, and with an empty free list
    every [insert], whatever its arguments, returns the all-zero rectangle
    and changes nothing. *)
Theorem free_list_empty_iff_bin_full (W H : Z) (reqs : list Request.t) :
  0 < W <= Int.INT_MAX -> 0 < H <= Int.INT_MAX ->
  Forall Request.positive reqs ->
  let s := insertAll reqs (init W H) in
  (freeRectangles s = [] <-> binFull s)
  /\ (freeRectangles s = [] ->
      forall w h m, insert w h m s = (Rect.zero, s)).
Proof.
  intros HW HH Hpos s.
  pose proof (insertAll_inv reqs (init W H) (init_inv W H HW HH) Hpos) as Hinv.
  pose proof (insertAll_covered reqs (init W H) (init_inv W H HW HH)
                (init_covered W H) Hpos) as Hcov.
  fold s in Hinv, Hcov. split; [split|].
  - intros Hnil px py Hpx Hpy.
    destruct (Hcov px py Hpx Hpy) as [Hu | (f & Hf & _)]; [exact Hu|].
    rewrite Hnil in Hf. by apply elem_of_nil in Hf.
  - intros Hfull. destruct (freeRectangles s) as [|f free] eqn:Hfree; [reflexivity|].
    exfalso. destruct Hinv as [_ _ Hfb _ Hfu _]. rewrite Hfree in Hfb, Hfu.
    apply Forall_inv in Hfb. apply Forall_inv in Hfu.
    destruct Hfb as (?&?&?&?&?&?).
    destruct (Hfull (Rect.x f) (Rect.y f)) as (u & Hu & Hcu); [lia | lia|].
    rewrite Forall_forall in Hfu.
    apply (cellIn_not_apart (Rect.x f) (Rect.y f) f u); [unfold cellIn; lia | exact Hcu|].
    by apply Hfu.
  - intros Hnil w h m.
    assert (Hz : findPosition m s w h = Rect.zero).
    { destruct (findPosition_cases m s w h) as [Hz | (f & Hf & _)]; [exact Hz|].
      rewrite Hnil in Hf. by apply elem_of_nil in Hf. }
    rewrite insert_early_return by (rewrite Hz; reflexivity). by rewrite Hz.
Qed.

(** A 4 by 4 bin filled by one 4 by 4 rectangle. *)
Lemma free_list_empty_iff_bin_full_witness :
  let s := insertAll [Request.mk 4 4 RectBestShortSideFit] (init 4 4) in
  freeRectangles s = [] /\ binFull s.
Proof.
  cbn zeta. split; [reflexivity|].
  refine (proj1 (proj1 (free_list_empty_iff_bin_full 4 4
    [Request.mk 4 4 RectBestShortSideFit] _ _ _)) eq_refl).
  - unfold Int.INT_MAX; lia.
  - unfold Int.INT_MAX; lia.
  - repeat constructor; cbn; unfold Int.INT_MAX; lia.
Defined.

(** ** The used surface area *)

Lemma slab_succ W H n r :
  inBin W H r -> 0 <= n ->
  slab (n + 1) r = slab n r + part (inRow n) Rect.x (fun r => Rect.x r + Rect.width r) 0 W r.
Proof.
  intros (?&?&?&?&?&?) Hn. unfold slab, part, inRow.
  assert (Hw : overlap (Rect.x r) (Rect.x r + Rect.width r) 0 W = Rect.width r)
    by (unfold overlap; lia).
  rewrite Hw.
  destruct (Z.leb_spec (Rect.y r) n); destruct (Z.ltb_spec n (Rect.y r + Rect.height r));
    cbn [andb].
  - replace (overlap (Rect.y r) (Rect.y r + Rect.height r) 0 (n + 1))
      with (overlap (Rect.y r) (Rect.y r + Rect.height r) 0 n + 1)
      by (unfold overlap; lia).
    lia.
  - replace (overlap (Rect.y r) (Rect.y r + Rect.height r) 0 (n + 1))
      with (overlap (Rect.y r) (Rect.y r + Rect.height r) 0 n)
      by (unfold overlap; lia).
    lia.
  - replace (overlap (Rect.y r) (Rect.y r + Rect.height r) 0 (n + 1))
      with (overlap (Rect.y r) (Rect.y r + Rect.height r) 0 n)
      by (unfold overlap; lia).
    lia.
  - lia.
Qed.

(** Rectangles in the bin that are pairwise apart have, in the first [n]
    rows, no more area than these rows. *)
Lemma slab_sum_bound W H l :
  0 <= W -> Forall (inBin W H) l -> pairwise apart l ->
  forall n, 0 <= n -> sumOver (slab n) l <= W * n.
Proof.
  intros HW Hl Hp.
  apply natlike_ind.
  - rewrite sumOver_zero; [lia|]. eapply Forall_impl; [exact Hl|].
    intros r (?&?&?&?&?&?). unfold slab, overlap. lia.
  - intros n Hn IH. change (Z.succ n) with (n + 1).
    rewrite (sumOver_ext (slab (n + 1))
      (fun r => slab n r
                + part (inRow n) Rect.x (fun r => Rect.x r + Rect.width r) 0 W r)).
    2:{ eapply Forall_impl; [exact Hl|]. intros r Hr. by eapply slab_succ. }
    rewrite sumOver_add.
    assert (Hrow : sumOver (part (inRow n) Rect.x (fun r => Rect.x r + Rect.width r) 0 W) l
                   <= W - 0).
    { apply separate_overlap_sum; [| |lia].
      - eapply Forall_impl; [exact Hl|]. intros r (?&?&?&?&?&?). cbn. lia.
      - apply (pairwise_impl apart _ (inBin W H)); [|exact Hl | exact Hp].
        intros a b (?&?&?&?&?&?) (?&?&?&?&?&?) Hab Ha Hb.
        unfold inRow in Ha, Hb. unfold apart in Hab. bool_to_prop. lia. }
    lia.
Qed.

Lemma area_sum_bound W H l :
  0 <= W -> 0 <= H -> Forall (inBin W H) l -> pairwise apart l ->
  0 <= sumOver area l <= W * H.
Proof.
  intros HW HH Hl Hp. split.
  - apply sumOver_nonneg. eapply Forall_impl; [exact Hl|].
    intros r (?&?&?&?&?&?). unfold area. nia.
  - rewrite (sumOver_ext area (slab H)); [by apply (slab_sum_bound W H)|].
    eapply Forall_impl; [exact Hl|]. intros r (?&?&?&?&?&?). unfold area, slab.
    f_equal. unfold overlap. lia.
Qed.

Lemma usedSurfaceArea_exact M l :
  Int.INT_MAX < M ->
  Forall (fun r => 0 < Rect.width r /\ 0 < Rect.height r) l ->
  sumOver area l <= Int.INT_MAX ->
  usedSurfaceArea M l = sumOver area l.
Proof.
  intros HM Hl Hsum. unfold usedSurfaceArea.
  assert (Hgen : forall z, 0 <= z -> z + sumOver area l <= Int.INT_MAX ->
    fold_left (fun acc r => (acc + Int.mul (Rect.width r) (Rect.height r) mod M) mod M) l z
    = z + sumOver area l).
  { clear Hsum. induction Hl as [|r l [Hw Hh] Hl IH]; intros z Hz Hsum;
      cbn [fold_left sumOver fold_right] in *; [lia|].
    fold (sumOver area l) in *.
    assert (Hrest : 0 <= sumOver area l).
    { apply sumOver_nonneg. eapply Forall_impl; [exact Hl|].
      intros r' [? ?]. unfold area. nia. }
    assert (Ha : 0 < area r) by (unfold area; nia).
    assert (Hmul : Int.mul (Rect.width r) (Rect.height r) = area r).
    { unfold Int.mul. fold (area r). apply wrap_id.
      unfold Int.in_range, Int.INT_MIN, Int.INT_MAX in *. lia. }
    rewrite Hmul. unfold Int.INT_MAX in *.
    rewrite (Z.mod_small (area r)) by lia.
    rewrite (Z.mod_small (z + area r)) by lia.
    rewrite IH by lia. lia. }
  rewrite Hgen; lia.
Qed.

(** X5. In a packer initialised with positive bin sides whose product fits
    an [int], after any sequence of [insert] calls with positive [int] sides,
    the two integers [occupancy] divides are exact (no wrap-around, for an
    [unsigned long] of 32 bits or more): the first is the sum of the areas of
    the used rectangles, the second is the area of the bin, which is
    positive, and the first is between zero and the second. *)
Theorem occupancy_operands (M W H : Z) (reqs : list Request.t) :
  Int.INT_MAX < M -> 0 < W -> 0 < H -> W * H <= Int.INT_MAX ->
  Forall Request.positive reqs ->
  let s := insertAll reqs (init W H) in
  occupancyOperands M s = (sumOver area (usedRectangles s), W * H)
  /\ 0 <= sumOver area (usedRectangles s) <= W * H
  /\ 0 < W * H.
Proof.
  intros HM HW HH HWH Hpos s.
  assert (HWmax : 0 < W <= Int.INT_MAX) by nia.
  assert (HHmax : 0 < H <= Int.INT_MAX) by nia.
  pose proof (insertAll_inv reqs (init W H) (init_inv W H HWmax HHmax) Hpos) as Hinv.
  destruct (insertAll_bin reqs (init W H)) as [HbW HbH]. cbn in HbW, HbH.
  fold s in Hinv, HbW, HbH.
  destruct Hinv as [_ _ _ Hused _ Hdisj]. rewrite HbW, HbH in Hused.
  assert (Hb : 0 <= sumOver area (usedRectangles s) <= W * H)
    by (apply area_sum_bound; [lia | lia | exact Hused | exact Hdisj]).
  split; [|split; [exact Hb | nia]].
  unfold occupancyOperands. rewrite HbW, HbH. f_equal.
  - apply usedSurfaceArea_exact; [exact HM | | lia].
    eapply Forall_impl; [exact Hused|]. intros r (?&?&?&?&?&?). by split.
  - unfold Int.mul. apply wrap_id. unfold Int.in_range, Int.INT_MIN, Int.INT_MAX in *. nia.
Qed.

(** Scenario A of the specification, with a 32-bit [unsigned long]: three 2
    by 2 rectangles in a 4 by 4 bin. *)
Lemma occupancy_operands_witness :
  occupancyOperands 4294967296
    (insertAll [Request.mk 2 2 RectBestShortSideFit;
                Request.mk 2 2 RectBestShortSideFit;
                Request.mk 2 2 RectBestShortSideFit] (init 4 4)) = (12, 16).
Proof.
  refine (eq_trans (proj1 (occupancy_operands 4294967296 4 4
    [Request.mk 2 2 RectBestShortSideFit;
     Request.mk 2 2 RectBestShortSideFit;
     Request.mk 2 2 RectBestShortSideFit] _ _ _ _ _)) _).
  - unfold Int.INT_MAX; lia.
  - lia.
  - lia.
  - unfold Int.INT_MAX; lia.
  - repeat constructor; cbn; unfold Int.INT_MAX; lia.
  - reflexivity.
Defined.

(** ** The rotation signal and its reading in [main] *)

(** X6. For a texture of positive width [w] and any height [h], in any
    packer state and under any heuristic, the rotation [main] derives from
    the rectangle [insert] returns is 90 exactly when that rectangle is [h]
    wide and [w] high with [w <> h], and 0 exactly when it is [w] wide and [h]
    high, provided its height is not zero; for a rectangle of height zero
    (the pack is full) the rotation is 0. *)
Theorem rotation_detected (s : MaxRectsBinPack) (w h : Z) (m : FreeRectChoiceHeuristic) :
  0 < w ->
  let r := (insert w h m s).1 in
  (Rect.height r <> 0 ->
     (rotationOf w r = 90 <-> Rect.width r = h /\ Rect.height r = w /\ w <> h)
     /\ (rotationOf w r = 0 <-> Rect.width r = w /\ Rect.height r = h))
  /\ (Rect.height r = 0 -> rotationOf w r = 0).
Proof.
  intros Hw r.
  assert (Hr : r = findPosition m s w h).
  { subst r. unfold insert. destruct (_ =? 0); reflexivity. }
  pose proof (findPosition_size m s w h) as Hsz. cbn zeta in Hsz. rewrite <- Hr in Hsz.
  unfold rotationOf. split.
  - intros Hnz.
    destruct (Z.eqb_spec w (Rect.height r)); destruct (Z.eqb_spec (Rect.width r) (Rect.height r));
      cbn [andb negb]; split; split; intros; lia.
  - intros Hz. destruct (Z.eqb_spec w (Rect.height r)); [lia | reflexivity].
Qed.

(** Scenario C of the specification: the 3 by 8 request comes back 8 wide
    and 3 high. *)
Lemma rotation_detected_witness :
  let s := insertAll [Request.mk 8 3 RectBestAreaFit] (init 10 10) in
  (insert 3 8 RectBestAreaFit s).1 = Rect.mk 0 3 8 3
  /\ rotationOf 3 (insert 3 8 RectBestAreaFit s).1 = 90.
Proof.
  cbn zeta. split; [reflexivity|].
  refine (proj2 (proj1 (proj1 (rotation_detected
    (insertAll [Request.mk 8 3 RectBestAreaFit] (init 10 10)) 3 8 RectBestAreaFit _) _)) _).
  - lia.
  - vm_compute. discriminate.
  - vm_compute. repeat split; discriminate.
Defined.

(** ** A rejected size stays rejected *)

Lemma within_fits g f w h : within g f -> fits g w h = true -> fits f w h = true.
Proof.
  unfold within, fits. rewrite !Z.geb_leb, !andb_true_iff, !Z.leb_le. lia.
Qed.

Lemma insert_noRoom s q w h :
  packInv s -> Request.positive q -> noRoom s w h ->
  noRoom (insert (Request.width q) (Request.height q) (Request.method q) s).2 w h.
Proof.
  intros Hinv [Hqw Hqh] Hno.
  destruct (Z.eq_dec (Rect.height (findPosition (Request.method q) s
              (Request.width q) (Request.height q))) 0) as [Hz | Hnz].
  { by rewrite (insert_early_return _ _ _ _ Hz). }
  rewrite (insert_placeRect _ _ _ _ Hnz). cbn [snd]. intros g Hg.
  destruct (findPosition_inBin s _ _ _ Hinv (proj1 Hqw) (proj1 Hqh) Hnz) as [Hb _].
  destruct (free_after_place_elem s _ g Hinv Hb Hg) as (f & Hf & Hwi & _).
  destruct (Hno f Hf) as [F1 F2].
  split.
  - destruct (fits g w h) eqn:G; [|reflexivity].
    rewrite (within_fits g f w h Hwi G) in F1. discriminate.
  - destruct (fits g h w) eqn:G; [|reflexivity].
    rewrite (within_fits g f h w Hwi G) in F2. discriminate.
Qed.

Lemma insertAll_noRoom reqs w h :
  forall s, packInv s -> Forall Request.positive reqs -> noRoom s w h ->
    noRoom (insertAll reqs s) w h.
Proof.
  unfold insertAll.
  induction reqs as [|q reqs IH]; intros s Hinv Hpos Hno; cbn [fold_left]; [exact Hno|].
  inversion Hpos as [|? ? Hq Hrest]; subst.
  apply IH; [|exact Hrest | by apply insert_noRoom].
  destruct Hq as [Hqw Hqh]. apply insert_inv; [exact Hinv | lia | lia].
Qed.

Lemma noRoom_findPosition s w h m : noRoom s w h -> findPosition m s w h = Rect.zero.
Proof.
  intros Hno.
  destruct (findPosition_cases m s w h) as [Hz | (f & Hf & [[F _] | [F _]])];
    [exact Hz | |]; destruct (Hno f Hf); congruence.
Qed.

(** X7. In a packer initialised with positive [int] bin sides, a request
    with positive sides that [insert] rejects is rejected again after any
    further [insert] calls with positive [int] sides, under whatever
    heuristic it is tried again: the room for a size never grows.  When the
    first try is under the contact-point heuristic the perimeter of the bin
    is assumed to fit an [int]. *)
Theorem rejected_stays_rejected (W H : Z) (before later : list Request.t)
    (w h : Z) (m m' : FreeRectChoiceHeuristic) :
  0 < W <= Int.INT_MAX -> 0 < H <= Int.INT_MAX ->
  Forall Request.positive before -> Forall Request.positive later ->
  0 < w -> 0 < h ->
  (m = RectContactPointRule -> 2 * (W + H) <= Int.INT_MAX) ->
  let s := insertAll before (init W H) in
  Rect.height (insert w h m s).1 = 0 ->
  insert w h m' (insertAll later s) = (Rect.zero, insertAll later s).
Proof.
  intros HW HH Hb Hl Hw Hh Hper s Hz.
  pose proof (insertAll_inv before (init W H) (init_inv W H HW HH) Hb) as Hinv.
  destruct (insertAll_bin before (init W H)) as [HbW HbH]. cbn in HbW, HbH.
  fold s in Hinv, HbW, HbH.
  assert (Hr : (insert w h m s).1 = findPosition m s w h).
  { unfold insert. destruct (_ =? 0); reflexivity. }
  rewrite Hr in Hz.
  assert (Hno : noRoom s w h).
  { intros f Hf.
    destruct (fits f w h) eqn:F1; [|destruct (fits f h w) eqn:F2; [|done]];
      exfalso; revert Hz;
      (apply findPosition_fit;
        [exact Hinv | exact Hw | exact Hh | by rewrite HbW, HbH | exists f; auto]). }
  pose proof (insertAll_noRoom later w h s Hinv Hl Hno) as Hno'.
  pose proof (noRoom_findPosition _ w h m' Hno') as Hz'.
  rewrite insert_early_return by (rewrite Hz'; reflexivity). by rewrite Hz'.
Qed.

(** A 3 by 3 request has no room beside a 2 by 2 rectangle in a 4 by 4 bin,
    and none after a further 2 by 2 rectangle. *)
Lemma rejected_stays_rejected_witness :
  let s := insertAll [Request.mk 2 2 RectBottomLeftRule] (init 4 4) in
  let s' := insertAll [Request.mk 2 2 RectBestAreaFit] s in
  insert 3 3 RectBestShortSideFit s' = (Rect.zero, s').
Proof.
  refine (rejected_stays_rejected 4 4 [Request.mk 2 2 RectBottomLeftRule]
    [Request.mk 2 2 RectBestAreaFit] 3 3 RectContactPointRule RectBestShortSideFit
    _ _ _ _ _ _ _ _).
  - unfold Int.INT_MAX; lia.
  - unfold Int.INT_MAX; lia.
  - repeat constructor; cbn; unfold Int.INT_MAX; lia.
  - repeat constructor; cbn; unfold Int.INT_MAX; lia.
  - lia.
  - lia.
  - intros _. unfold Int.INT_MAX; lia.
  - reflexivity.
Defined.

(** ** What the four two-score scorers choose *)

Lemma lexLt_spec a b :
  lexLt a b = true <-> a.1 < b.1 \/ (a.1 = b.1 /\ a.2 < b.2).
Proof.
  unfold lexLt. rewrite orb_true_iff, andb_true_iff, !Z.ltb_lt, Z.eqb_eq. tauto.
Qed.

Lemma lexLt_false a b : lexLt a b = false <-> lexLe b a.
Proof.
  unfold lexLe. split.
  - intros Hf. destruct (Z.lt_trichotomy b.1 a.1) as [? | [? | ?]].
    + by left.
    + right. split; [done|]. destruct (Z.le_gt_cases b.2 a.2); [done|].
      assert (lexLt a b = true) by (apply lexLt_spec; lia). congruence.
    + assert (lexLt a b = true) by (apply lexLt_spec; lia). congruence.
  - intros Hle. destruct (lexLt a b) eqn:E; [|reflexivity].
    apply lexLt_spec in E. lia.
Qed.

Lemma lexTry_best key w h met b f :
  lexBest met b ->
  lexBest (fun k n => met k n \/ (fits f w h = true /\ k = key f w h /\ n = placeAt f w h))
    (lexTry key w h b f).
Proof.
  intros (Hmin & Hmax & Hbest). unfold lexTry.
  destruct (fits f w h) eqn:F.
  - destruct (lexLt (key f w h) (best1 b, best2 b)) eqn:L.
    + apply lexLt_spec in L. cbn [fst snd] in L.
      unfold lexBest, lexLe in *. cbn [best1 best2 bestNode fst snd] in *.
      split; [|split].
      * intros k n [Hk | (_ & -> & _)]; [specialize (Hmin k n Hk); lia | lia].
      * lia.
      * right. split; [right; by destruct (key f w h)|].
        apply lexLt_spec. cbn [fst snd]. lia.
    + apply lexLt_false in L. split; [|split; [exact Hmax|]].
      * intros k n [Hk | (_ & -> & _)]; [by eapply Hmin | exact L].
      * destruct Hbest as [Hb | [Hb1 Hb2]]; [by left | right; split; [by left | exact Hb2]].
  - split; [|split; [exact Hmax|]].
    + intros k n [Hk | (? & _)]; [by eapply Hmin | discriminate].
    + destruct Hbest as [Hb | [Hb1 Hb2]]; [by left | right; split; [by left | exact Hb2]].
Qed.

Lemma lexBest_iff met met' b :
  (forall k n, met k n <-> met' k n) -> lexBest met b -> lexBest met' b.
Proof.
  intros Hiff (Hmin & Hmax & Hbest). split; [|split; [exact Hmax|]].
  - intros k n Hk. apply (Hmin k n). by apply Hiff.
  - destruct Hbest as [Hb | [Hb1 Hb2]]; [by left | right; split; [by apply Hiff | exact Hb2]].
Qed.

Lemma keyed_snoc key l f w h k n :
  keyed key (l ++ [f]) w h k n <->
  (keyed key l w h k n \/ (fits f w h = true /\ k = key f w h /\ n = placeAt f w h))
  \/ (fits f h w = true /\ k = key f h w /\ n = placeAt f h w).
Proof.
  unfold keyed. split.
  - intros (g & Hg & Hc). apply elem_of_app in Hg as [Hg | Hg].
    + left. left. by exists g.
    + apply list_elem_of_singleton in Hg as ->. tauto.
  - intros [[(g & Hg & Hc) | Hc] | Hc].
    + exists g. split; [apply elem_of_app; by left | exact Hc].
    + exists f. split; [apply elem_of_app; right; by apply list_elem_of_singleton | by left].
    + exists f. split; [apply elem_of_app; right; by apply list_elem_of_singleton | by right].
Qed.

(** A loop whose body is the two tests, upright then turned, ends with the
    best of all candidates. *)
Lemma lexFold_best key body w h :
  (forall b f, body b f = lexTry key h w (lexTry key w h b f) f) ->
  forall l seen b,
    lexBest (keyed key seen w h) b ->
    lexBest (keyed key (seen ++ l) w h) (fold_left body l b).
Proof.
  intros Hbody l. induction l as [|f l IH]; intros seen b Hb; cbn [fold_left].
  - by rewrite app_nil_r.
  - replace (seen ++ f :: l) with ((seen ++ [f]) ++ l)
      by (rewrite <- app_assoc; reflexivity).
    apply IH. rewrite Hbody.
    pose proof (lexTry_best key h w _ _ f (lexTry_best key w h _ b f Hb)) as H2.
    eapply lexBest_iff; [|exact H2].
    intros k n. cbv beta. rewrite keyed_snoc. tauto.
Qed.

Lemma lexBest_init key w h :
  lexBest (keyed key [] w h) (mkBest Rect.zero Int.INT_MAX Int.INT_MAX).
Proof.
  split; [|split; [|by left]].
  - intros k n (f & Hf & _). by apply elem_of_nil in Hf.
  - unfold lexLe. cbn. lia.
Qed.

Lemma bestShortSideFitBody_tries w h b f :
  bestShortSideFitBody w h b f
  = lexTry shortLongKey h w (lexTry shortLongKey w h b f) f.
Proof.
  destruct b as [n k1 k2].
  unfold bestShortSideFitBody, lexTry, lexLt, shortLongKey, fits, placeAt.
  cbn [fst snd best1 best2].
  repeat match goal with
  | |- context [if ?c then _ else _] => destruct c; cbn [fst snd best1 best2]
  end; reflexivity.
Qed.

Lemma bestLongSideFitBody_tries w h b f :
  bestLongSideFitBody w h b f
  = lexTry longShortKey h w (lexTry longShortKey w h b f) f.
Proof.
  destruct b as [n k1 k2].
  unfold bestLongSideFitBody, lexTry, lexLt, longShortKey, fits, placeAt.
  cbn [fst snd best1 best2].
  repeat match goal with
  | |- context [if ?c then _ else _] => destruct c; cbn [fst snd best1 best2]
  end; reflexivity.
Qed.

Lemma bestAreaFitBody_tries w h b f :
  bestAreaFitBody w h b f = lexTry areaKey h w (lexTry areaKey w h b f) f.
Proof.
  destruct b as [n k1 k2].
  unfold bestAreaFitBody, lexTry, lexLt, areaKey, fits, placeAt.
  assert (Hc : Int.mul h w = Int.mul w h) by (unfold Int.mul; f_equal; lia).
  rewrite Hc. cbn [fst snd best1 best2].
  repeat match goal with
  | |- context [if ?c then _ else _] => destruct c; cbn [fst snd best1 best2]
  end; reflexivity.
Qed.

Lemma bottomLeftBody_tries w h b f :
  bottomLeftBody w h b f = lexTry bottomLeftKey h w (lexTry bottomLeftKey w h b f) f.
Proof.
  destruct b as [n k1 k2].
  unfold bottomLeftBody, lexTry, lexLt, bottomLeftKey, fits, placeAt.
  cbn [fst snd best1 best2].
  repeat match goal with
  | |- context [if ?c then _ else _] => destruct c; cbn [fst snd best1 best2]
  end; reflexivity.
Qed.

Lemma lexScorer_best key body w h l :
  (forall b f, body b f = lexTry key h w (lexTry key w h b f) f) ->
  lexBest (keyed key l w h)
    (fold_left body l (mkBest Rect.zero Int.INT_MAX Int.INT_MAX)).
Proof.
  intros Hbody.
  exact (lexFold_best key body w h Hbody l [] _ (lexBest_init key w h)).
Qed.

(** X11. The best-short-side-fit scorer, for any free list and request:
    the scores it reports (short-side leftover, then long-side leftover) are
    not above those of any candidate, in the order "short side first, long
    side on ties"; and it returns the all-zero rectangle with both scores
    [INT_MAX], or a candidate together with that candidate's scores. *)
Theorem bestShortSideFit_minimal (l : list Rect.t) (w h : Z) :
  let res := findPositionForNewNodeBestShortSideFit l w h in
  (forall k n, keyed shortLongKey l w h k n -> lexLe (res.1.2, res.2) k)
  /\ (res = (Rect.zero, Int.INT_MAX, Int.INT_MAX)
      \/ keyed shortLongKey l w h (res.1.2, res.2) res.1.1).
Proof.
  cbn zeta. unfold findPositionForNewNodeBestShortSideFit. cbn [fst snd].
  destruct (lexScorer_best shortLongKey (bestShortSideFitBody w h) w h l
              (bestShortSideFitBody_tries w h)) as (Hmin & _ & Hbest).
  split; [exact Hmin|].
  destruct Hbest as [-> | [Hb _]]; [by left | by right].
Qed.

(** X12. The best-long-side-fit scorer, for any free list and request: the
    scores it reports are not above those of any candidate, in the order
    "long-side leftover first, short-side leftover on ties"; and it returns
    the all-zero rectangle with both scores [INT_MAX], or a candidate together
    with that candidate's scores.  The second component of the result is the
    short-side score, the third the long-side score. *)
Theorem bestLongSideFit_minimal (l : list Rect.t) (w h : Z) :
  let res := findPositionForNewNodeBestLongSideFit l w h in
  (forall k n, keyed longShortKey l w h k n -> lexLe (res.2, res.1.2) k)
  /\ (res = (Rect.zero, Int.INT_MAX, Int.INT_MAX)
      \/ keyed longShortKey l w h (res.2, res.1.2) res.1.1).
Proof.
  cbn zeta. unfold findPositionForNewNodeBestLongSideFit. cbn [fst snd].
  destruct (lexScorer_best longShortKey (bestLongSideFitBody w h) w h l
              (bestLongSideFitBody_tries w h)) as (Hmin & _ & Hbest).
  split; [exact Hmin|].
  destruct Hbest as [-> | [Hb _]]; [by left | by right].
Qed.

(** X13. The best-area-fit scorer, for any free list and request: the
    scores it reports (area of the free rectangle minus area of the request
    in [int] arithmetic, then short-side leftover) are not above those of any
    candidate, area first; and it returns the all-zero rectangle with both
    scores [INT_MAX], or a candidate together with that candidate's
    scores. *)
Theorem bestAreaFit_minimal (l : list Rect.t) (w h : Z) :
  let res := findPositionForNewNodeBestAreaFit l w h in
  (forall k n, keyed areaKey l w h k n -> lexLe (res.1.2, res.2) k)
  /\ (res = (Rect.zero, Int.INT_MAX, Int.INT_MAX)
      \/ keyed areaKey l w h (res.1.2, res.2) res.1.1).
Proof.
  cbn zeta. unfold findPositionForNewNodeBestAreaFit. cbn [fst snd].
  destruct (lexScorer_best areaKey (bestAreaFitBody w h) w h l
              (bestAreaFitBody_tries w h)) as (Hmin & _ & Hbest).
  split; [exact Hmin|].
  destruct Hbest as [-> | [Hb _]]; [by left | by right].
Qed.

(** X14. The bottom-left scorer, for any free list and request: the scores
    it reports ([y] of the far side of the placement, then [x]) are not above
    those of any candidate, the [y] first; and it returns the all-zero
    rectangle with both scores [INT_MAX], or a candidate together with that
    candidate's scores. *)
Theorem bottomLeft_minimal (l : list Rect.t) (w h : Z) :
  let res := findPositionForNewNodeBottomLeft l w h in
  (forall k n, keyed bottomLeftKey l w h k n -> lexLe (res.1.2, res.2) k)
  /\ (res = (Rect.zero, Int.INT_MAX, Int.INT_MAX)
      \/ keyed bottomLeftKey l w h (res.1.2, res.2) res.1.1).
Proof.
  cbn zeta. unfold findPositionForNewNodeBottomLeft. cbn [fst snd].
  destruct (lexScorer_best bottomLeftKey (bottomLeftBody w h) w h l
              (bottomLeftBody_tries w h)) as (Hmin & _ & Hbest).
  split; [exact Hmin|].
  destruct Hbest as [-> | [Hb _]]; [by left | by right].
Qed.

(** ** The batch insert and the single insert *)

Lemma nodeOf_findPosition s m r :
  nodeOf s m r = findPosition m s (RectSize.width r) (RectSize.height r).
Proof.
  unfold nodeOf, scoreRect, findPosition.
  destruct m.
  - destruct (findPositionForNewNodeBestShortSideFit _ _ _) as [[n a] c].
    cbn [fst snd]. destruct (_ =? 0); reflexivity.
  - destruct (findPositionForNewNodeBestLongSideFit _ _ _) as [[n a] c].
    cbn [fst snd]. destruct (_ =? 0); reflexivity.
  - destruct (findPositionForNewNodeBestAreaFit _ _ _) as [[n a] c].
    cbn [fst snd]. destruct (_ =? 0); reflexivity.
  - destruct (findPositionForNewNodeBottomLeft _ _ _) as [[n a] c].
    cbn [fst snd]. destruct (_ =? 0); reflexivity.
  - destruct (findPositionForNewNodeContactPoint _ _ _) as [n a].
    cbn [fst snd]. destruct (_ =? 0); reflexivity.
Qed.

(** A round that goes on: the size it takes and what it does with it. *)
Lemma batchRound_some m b b' :
  batchRound m b = Some b' ->
  exists (k : nat) (r : RectSize.t),
    rects b !! k = Some r
    /\ b' = mkBatch (placeRect (nodeOf (packer b) m r) (packer b))
                    (delete k (rects b)) (dst b)
    /\ Rect.height (nodeOf (packer b) m r) <> 0.
Proof.
  unfold batchRound. intros Hround.
  assert (Hspec : bestOfSeen (packer b) m (rects b)
            (bestOfRects (packer b) m 0 (rects b) Int.INT_MAX Int.INT_MAX (-1)
               Rect.zero)).
  { apply (bestOfRects_spec (packer b) m (rects b) []
             (Int.INT_MAX, Int.INT_MAX, -1, Rect.zero)).
    split; [intros j r Hj; by destruct j | by left]. }
  destruct (bestOfRects _ _ _ _ _ _ _ _) as [[[b1 b2] idx] node].
  destruct Hspec as [_ Hidx].
  destruct (rects b) as [|r0 rest] eqn:Hrects; [discriminate|].
  destruct (Z.eqb_spec idx (-1)) as [Hm1 | Hne]; [discriminate|].
  injection Hround as <-.
  destruct Hidx as [(Hidx & _) | (k & r & -> & Hlk & -> & Hs & Hlt)]; [contradiction|].
  exists k, r. rewrite Nat2Z.id. split; [exact Hlk|]. split; [reflexivity|].
  intros Hz. rewrite (scoresOf_sentinel _ _ _ Hz) in Hs. injection Hs as -> ->. lia.
Qed.

(** X8. A round of the batch [insert] that commits a pending size [r]
    leaves the packer exactly as the single-rectangle [insert] of [r] under
    the same heuristic does, which succeeds; [r] is erased from the pending
    sizes and [dst] is not touched. *)
Theorem batchRound_is_insert (m : FreeRectChoiceHeuristic) (b b' : Batch) :
  batchRound m b = Some b' ->
  exists (k : nat) (r : RectSize.t),
    rects b !! k = Some r
    /\ rects b' = delete k (rects b)
    /\ dst b' = dst b
    /\ packer b' = (insert (RectSize.width r) (RectSize.height r) m (packer b)).2
    /\ Rect.height (insert (RectSize.width r) (RectSize.height r) m (packer b)).1 <> 0.
Proof.
  intros Hround. destruct (batchRound_some m b b' Hround) as (k & r & Hk & -> & Hnz).
  exists k, r. rewrite nodeOf_findPosition in *.
  rewrite (insert_placeRect _ _ _ _ Hnz). cbn [fst snd rects dst packer]. done.
Qed.

(** A 4 by 4 bin with the sizes 1 by 1 and 4 by 4 pending. *)
Lemma batchRound_is_insert_witness :
  let b := mkBatch (init 4 4) [RectSize.mk 1 1; RectSize.mk 4 4] [] in
  exists (k : nat) (r : RectSize.t) b',
    batchRound RectBestShortSideFit b = Some b'
    /\ rects b !! k = Some r
    /\ packer b' = (insert (RectSize.width r) (RectSize.height r)
                      RectBestShortSideFit (packer b)).2.
Proof.
  cbn zeta.
  destruct (batchRound_is_insert RectBestShortSideFit
    (mkBatch (init 4 4) [RectSize.mk 1 1; RectSize.mk 4 4] [])
    (mkBatch (placeRect (Rect.mk 0 0 4 4) (init 4 4)) [RectSize.mk 1 1] [])
    eq_refl) as (k & r & Hk & _ & _ & Hp & _).
  exists k, r, (mkBatch (placeRect (Rect.mk 0 0 4 4) (init 4 4)) [RectSize.mk 1 1] []).
  split; [reflexivity|]. split; [exact Hk | exact Hp].
Defined.

Lemma batchRound_inv m b b' :
  packInv (packer b) -> Forall positiveSize (rects b) ->
  batchRound m b = Some b' ->
  packInv (packer b') /\ Forall positiveSize (rects b')
  /\ rects b' `sublist_of` rects b
  /\ (length (usedRectangles (packer b')) + length (rects b')
      = length (usedRectangles (packer b)) + length (rects b))%nat.
Proof.
  intros Hinv Hpos Hround.
  destruct (batchRound_some m b b' Hround) as (k & r & Hk & -> & Hnz).
  cbn [packer rects]. rewrite nodeOf_findPosition in *.
  assert (Hr : positiveSize r).
  { rewrite Forall_forall in Hpos. apply Hpos. by eapply list_elem_of_lookup_2. }
  destruct Hr as [Hrw Hrh].
  destruct (findPosition_inBin _ _ _ _ Hinv (proj1 Hrw) (proj1 Hrh) Hnz) as [Hb Ha].
  split; [by apply place_inv|].
  split; [eapply sublist_Forall; [apply sublist_delete | exact Hpos]|].
  split; [apply sublist_delete|].
  cbn [placeRect usedRectangles]. rewrite length_app, length_delete; cbn [length].
  - apply lookup_lt_Some in Hk. lia.
  - by eexists.
Qed.

Lemma batchLoop_inv fuel m :
  forall b, packInv (packer b) -> Forall positiveSize (rects b) ->
    packInv (packer (batchLoop fuel m b))
    /\ Forall positiveSize (rects (batchLoop fuel m b))
    /\ rects (batchLoop fuel m b) `sublist_of` rects b
    /\ (length (usedRectangles (packer (batchLoop fuel m b)))
        + length (rects (batchLoop fuel m b))
        = length (usedRectangles (packer b)) + length (rects b))%nat.
Proof.
  induction fuel as [|fuel IH]; intros b Hinv Hpos; cbn [batchLoop]; [done|].
  destruct (batchRound m b) as [b'|] eqn:Hr; [|done].
  destruct (batchRound_inv m b b' Hinv Hpos Hr) as (Hinv' & Hpos' & Hsub & Hlen).
  destruct (IH b' Hinv' Hpos') as (H1 & H2 & H3 & H4).
  split; [exact H1|]. split; [exact H2|]. split; [by etransitivity | lia].
Qed.

Lemma batchLoop_bin fuel m :
  forall b, binWidth (packer (batchLoop fuel m b)) = binWidth (packer b)
            /\ binHeight (packer (batchLoop fuel m b)) = binHeight (packer b).
Proof.
  induction fuel as [|fuel IH]; intros b; cbn [batchLoop]; [done|].
  destruct (batchRound m b) as [b'|] eqn:Hr; [|done].
  destruct (batchRound_some m b b' Hr) as (k & r & _ & -> & _).
  destruct (IH (mkBatch (placeRect (nodeOf (packer b) m r) (packer b))
                  (delete k (rects b)) (dst b))) as [-> ->]. done.
Qed.

(** X9. The batch [insert] keeps what the single one keeps: in a packer
    initialised with positive [int] bin sides, after any single inserts and
    then a batch insert, all with positive [int] sides, two used rectangles at
    different indices are disjoint and every used rectangle has positive sides
    and lies in the bin. *)
Theorem batch_placements_disjoint (W H : Z) (reqs : list Request.t)
    (sizes : list RectSize.t) (dst0 : list Rect.t) (m : FreeRectChoiceHeuristic) :
  0 < W <= Int.INT_MAX -> 0 < H <= Int.INT_MAX ->
  Forall Request.positive reqs -> Forall positiveSize sizes ->
  let used := usedRectangles (packer (insertBatch sizes dst0 m (insertAll reqs (init W H)))) in
  (forall i j a b, i <> j -> used !! i = Some a -> used !! j = Some b ->
     DisjointRectCollection.disjoint2 a b = true)
  /\ Forall (inBin W H) used.
Proof.
  intros HW HH Hpos Hsizes used.
  pose proof (insertAll_inv reqs (init W H) (init_inv W H HW HH) Hpos) as Hinv.
  destruct (insertAll_bin reqs (init W H)) as [HbW HbH]. cbn in HbW, HbH.
  destruct (batchLoop_inv (S (length sizes)) m
              (mkBatch (insertAll reqs (init W H)) sizes []) Hinv Hsizes)
    as ([_ _ _ Hused _ Hdisj] & _).
  destruct (batchLoop_bin (S (length sizes)) m
              (mkBatch (insertAll reqs (init W H)) sizes [])) as [HW' HH'].
  cbn [packer] in HW', HH'. rewrite HW', HH', HbW, HbH in Hused.
  fold (insertBatch sizes dst0 m (insertAll reqs (init W H))) in Hused, Hdisj.
  fold used in Hused, Hdisj.
  split; [|exact Hused].
  intros i j a b Hij Hi Hj.
  assert (Ha : inBin W H a).
  { rewrite Forall_forall in Hused. apply Hused. by eapply list_elem_of_lookup_2. }
  assert (Hb : inBin W H b).
  { rewrite Forall_forall in Hused. apply Hused. by eapply list_elem_of_lookup_2. }
  apply (disjoint2_apart W H); [lia | lia | exact Ha | exact Hb |].
  destruct (Nat.lt_trichotomy i j) as [Hlt | [-> | Hgt]]; [| congruence |].
  - by eapply (pairwise_lookup apart used Hdisj i j).
  - apply apart_sym. by eapply (pairwise_lookup apart used Hdisj j i).
Qed.

(** Three sizes for a 4 by 4 bin, of which two find room. *)
Lemma batch_placements_disjoint_witness :
  let b := insertBatch [RectSize.mk 3 3; RectSize.mk 4 1; RectSize.mk 2 2] []
             RectBestAreaFit (insertAll [] (init 4 4)) in
  usedRectangles (packer b) = [Rect.mk 0 0 3 3; Rect.mk 0 3 4 1]
  /\ rects b = [RectSize.mk 2 2]
  /\ Forall (inBin 4 4) (usedRectangles (packer b)).
Proof.
  cbn zeta. split; [reflexivity|]. split; [reflexivity|].
  refine (proj2 (batch_placements_disjoint 4 4 []
    [RectSize.mk 3 3; RectSize.mk 4 1; RectSize.mk 2 2] [] RectBestAreaFit _ _ _ _)).
  - unfold Int.INT_MAX; lia.
  - unfold Int.INT_MAX; lia.
  - constructor.
  - repeat constructor; cbn; unfold Int.INT_MAX; lia.
Defined.

(** A size for which [scoreRect] returns a rectangle of non-zero height has
    scores below the initial ones, so that the batch loop can choose it. *)
Lemma scoresOf_strict s m r :
  Rect.height (nodeOf s m r) <> 0 ->
  lexLt (scoresOf s m r) (Int.INT_MAX, Int.INT_MAX) = true.
Proof.
  intros Hnz. destruct m.
  - revert Hnz. unfold nodeOf, scoresOf, scoreRect, findPositionForNewNodeBestShortSideFit.
    destruct (lexScorer_best shortLongKey (bestShortSideFitBody (RectSize.width r)
      (RectSize.height r)) _ _ (freeRectangles s) (bestShortSideFitBody_tries _ _))
      as (_ & _ & Hbest).
    destruct (fold_left _ _ _) as [n k1 k2]. cbn [fst snd bestNode best1 best2] in *.
    destruct (Z.eqb_spec (Rect.height n) 0); cbn [fst snd]; [contradiction|]. intros _.
    destruct Hbest as [[= -> _ _] | [_ Hlt]]; [contradiction | exact Hlt].
  - revert Hnz. unfold nodeOf, scoresOf, scoreRect, findPositionForNewNodeBestLongSideFit.
    destruct (lexScorer_best longShortKey (bestLongSideFitBody (RectSize.width r)
      (RectSize.height r)) _ _ (freeRectangles s) (bestLongSideFitBody_tries _ _))
      as (_ & _ & Hbest).
    destruct (fold_left _ _ _) as [n k1 k2]. cbn [fst snd bestNode best1 best2] in *.
    destruct (Z.eqb_spec (Rect.height n) 0); cbn [fst snd]; [contradiction|]. intros _.
    destruct Hbest as [[= -> _ _] | [_ Hlt]]; [contradiction | exact Hlt].
  - revert Hnz. unfold nodeOf, scoresOf, scoreRect, findPositionForNewNodeBestAreaFit.
    destruct (lexScorer_best areaKey (bestAreaFitBody (RectSize.width r)
      (RectSize.height r)) _ _ (freeRectangles s) (bestAreaFitBody_tries _ _))
      as (_ & _ & Hbest).
    destruct (fold_left _ _ _) as [n k1 k2]. cbn [fst snd bestNode best1 best2] in *.
    destruct (Z.eqb_spec (Rect.height n) 0); cbn [fst snd]; [contradiction|]. intros _.
    destruct Hbest as [[= -> _ _] | [_ Hlt]]; [contradiction | exact Hlt].
  - revert Hnz. unfold nodeOf, scoresOf, scoreRect, findPositionForNewNodeBottomLeft.
    destruct (lexScorer_best bottomLeftKey (bottomLeftBody (RectSize.width r)
      (RectSize.height r)) _ _ (freeRectangles s) (bottomLeftBody_tries _ _))
      as (_ & _ & Hbest).
    destruct (fold_left _ _ _) as [n k1 k2]. cbn [fst snd bestNode best1 best2] in *.
    destruct (Z.eqb_spec (Rect.height n) 0); cbn [fst snd]; [contradiction|]. intros _.
    destruct Hbest as [[= -> _ _] | [_ Hlt]]; [contradiction | exact Hlt].
  - rewrite (scoresOf_contact _ _ Hnz). rewrite nodeOf_contact in Hnz.
    destruct (scoreRect_contact s _ _ Hnz) as [_ Hcs].
    apply lexLt_spec. cbn [fst snd]. unfold contactScoreOf, Int.INT_MAX. lia.
Qed.

(** A round that stops: no pending size gets a rectangle of non-zero
    height. *)
Lemma batchRound_none m b :
  batchRound m b = None ->
  forall r, r ∈ rects b -> Rect.height (nodeOf (packer b) m r) = 0.
Proof.
  unfold batchRound. intros Hround r Hr.
  assert (Hspec : bestOfSeen (packer b) m (rects b)
            (bestOfRects (packer b) m 0 (rects b) Int.INT_MAX Int.INT_MAX (-1)
               Rect.zero)).
  { apply (bestOfRects_spec (packer b) m (rects b) []
             (Int.INT_MAX, Int.INT_MAX, -1, Rect.zero)).
    split; [intros j r' Hj; by destruct j | by left]. }
  destruct (bestOfRects _ _ _ _ _ _ _ _) as [[[b1 b2] idx] node].
  destruct Hspec as [Hle Hidx].
  destruct (rects b) as [|r0 rest] eqn:Hrects; [by apply elem_of_nil in Hr|].
  destruct (Z.eqb_spec idx (-1)) as [Hm1 | Hne]; [|discriminate].
  destruct Hidx as [(_ & -> & ->) | (k & ? & Hk & _)]; [|lia].
  apply list_elem_of_lookup in Hr as [j Hj]. pose proof (Hle j r Hj) as Hl.
  destruct (Z.eq_dec (Rect.height (nodeOf (packer b) m r)) 0) as [Hz | Hnz]; [exact Hz|].
  apply scoresOf_strict, lexLt_spec in Hnz. unfold lexLe in Hl. cbn [fst snd] in *. lia.
Qed.

(** X10. When the batch [insert] returns, in a packer initialised with
    positive [int] bin sides and with pending sizes of positive [int] sides,
    no free rectangle has room, in either orientation, for any size left in
    [rects]; what is left in [rects] is a sub-list of the sizes passed in, and
    each size that left it added one used rectangle.  For the contact-point
    heuristic the perimeter of the bin is assumed to fit an [int]. *)
Theorem batch_stops_when_nothing_fits (W H : Z) (reqs : list Request.t)
    (sizes : list RectSize.t) (dst0 : list Rect.t) (m : FreeRectChoiceHeuristic) :
  0 < W <= Int.INT_MAX -> 0 < H <= Int.INT_MAX ->
  Forall Request.positive reqs -> Forall positiveSize sizes ->
  (m = RectContactPointRule -> 2 * (W + H) <= Int.INT_MAX) ->
  let s := insertAll reqs (init W H) in
  let b := insertBatch sizes dst0 m s in
  (forall r, r ∈ rects b -> noRoom (packer b) (RectSize.width r) (RectSize.height r))
  /\ rects b `sublist_of` sizes
  /\ (length (usedRectangles (packer b)) + length (rects b)
      = length (usedRectangles s) + length sizes)%nat.
Proof.
  intros HW HH Hpos Hsizes Hper s b.
  pose proof (insertAll_inv reqs (init W H) (init_inv W H HW HH) Hpos) as Hinv.
  destruct (insertAll_bin reqs (init W H)) as [HbW HbH]. cbn in HbW, HbH.
  fold s in Hinv, HbW, HbH.
  destruct (batchLoop_inv (S (length sizes)) m (mkBatch s sizes []) Hinv Hsizes)
    as (Hinv' & Hpos' & Hsub & Hlen).
  destruct (batchLoop_bin (S (length sizes)) m (mkBatch s sizes [])) as [HW' HH'].
  pose proof (batchLoop_exit (S (length sizes)) m (mkBatch s sizes [])
                ltac:(cbn; lia)) as Hexit.
  fold (insertBatch sizes dst0 m s) in Hinv', Hpos', Hsub, Hlen, HW', HH', Hexit.
  fold b in Hinv', Hpos', Hsub, Hlen, HW', HH', Hexit. cbn [packer rects] in *.
  split; [|split; [exact Hsub | exact Hlen]].
  intros r Hr f Hf.
  pose proof (batchRound_none m b Hexit r Hr) as Hz.
  rewrite nodeOf_findPosition in Hz.
  rewrite Forall_forall in Hpos'. destruct (Hpos' r Hr) as [Hrw Hrh].
  destruct (fits f (RectSize.width r) (RectSize.height r)) eqn:F1;
    [|destruct (fits f (RectSize.height r) (RectSize.width r)) eqn:F2; [|done]];
    exfalso; revert Hz;
    (apply findPosition_fit;
      [exact Hinv' | lia | lia | intros Hm; rewrite HW', HH', HbW, HbH; by apply Hper
      | exists f; auto]).
Qed.

(** Three sizes for a 4 by 4 bin: the 2 by 2 one is left over. *)
Lemma batch_stops_when_nothing_fits_witness :
  let b := insertBatch [RectSize.mk 3 3; RectSize.mk 4 1; RectSize.mk 2 2] []
             RectContactPointRule (insertAll [] (init 4 4)) in
  rects b = [RectSize.mk 2 2]
  /\ forall r, r ∈ rects b -> noRoom (packer b) (RectSize.width r) (RectSize.height r).
Proof.
  cbn zeta. split; [reflexivity|].
  refine (proj1 (batch_stops_when_nothing_fits 4 4 []
    [RectSize.mk 3 3; RectSize.mk 4 1; RectSize.mk 2 2] [] RectContactPointRule
    _ _ _ _ _)).
  - unfold Int.INT_MAX; lia.
  - unfold Int.INT_MAX; lia.
  - constructor.
  - repeat constructor; cbn; unfold Int.INT_MAX; lia.
  - intros _. unfold Int.INT_MAX; lia.
Defined.

(** ** Rect.h: the disjoint-rectangle collection *)

Lemma add_cases acc r :
  (DisjointRectCollection.add acc r = (true, acc) /\ nonDegenerate r = false)
  \/ (DisjointRectCollection.add acc r = (false, acc) /\ nonDegenerate r = true)
  \/ (DisjointRectCollection.add acc r = (true, acc ++ [r]) /\ nonDegenerate r = true
      /\ Forall (fun a => DisjointRectCollection.disjoint2 a r = true) acc).
Proof.
  unfold DisjointRectCollection.add, DisjointRectCollection.disjoint, nonDegenerate.
  destruct ((Rect.width r =? 0) || (Rect.height r =? 0)); cbn [negb]; [by left|].
  right.
  destruct (forallb (fun rect => DisjointRectCollection.disjoint2 rect r) acc) eqn:Hall;
    cbn [negb]; [right | by left].
  split; [reflexivity|]. split; [reflexivity|].
  apply Forall_forall. intros a Ha. rewrite forallb_forall in Hall.
  apply Hall. by apply list_elem_of_In.
Qed.

Lemma addAll_from l :
  forall ok0 acc,
  pairwise (fun a b => DisjointRectCollection.disjoint2 a b = true) acc ->
  Forall (fun r => nonDegenerate r = true) acc ->
  let res := fold_left
      (fun acc r =>
         let '(ok, rects) := DisjointRectCollection.add acc.2 r in (acc.1 && ok, rects))
      l (ok0, acc) in
  pairwise (fun a b => DisjointRectCollection.disjoint2 a b = true) res.2
  /\ Forall (fun r => nonDegenerate r = true) res.2
  /\ (exists kept, kept `sublist_of` l /\ res.2 = acc ++ kept)
  /\ (res.1 = true -> ok0 = true /\ res.2 = acc ++ List.filter nonDegenerate l).
Proof.
  induction l as [|r l IH]; intros ok0 acc Hp Hnd; cbn [fold_left].
  - cbn zeta. cbn [fst snd List.filter]. rewrite app_nil_r.
    repeat split; try assumption. exists []. by rewrite app_nil_r.
  - cbn [fst snd List.filter].
    destruct (add_cases acc r) as [[-> Hd] | [[-> Hd] | (-> & Hd & Hall)]]; rewrite Hd.
    + destruct (IH (ok0 && true) acc Hp Hnd) as (H1 & H2 & (kept & Hk & Hres) & H4).
      cbn zeta in *. split; [exact H1|]. split; [exact H2|].
      split; [exists kept; split; [by apply sublist_cons | exact Hres]|].
      intros Hok. destruct (H4 Hok) as [Hok0 Heq]. split; [|exact Heq].
      by rewrite andb_true_r in Hok0.
    + destruct (IH (ok0 && false) acc Hp Hnd) as (H1 & H2 & (kept & Hk & Hres) & H4).
      cbn zeta in *. split; [exact H1|]. split; [exact H2|].
      split; [exists kept; split; [by apply sublist_cons | exact Hres]|].
      intros Hok. destruct (H4 Hok) as [Hok0 _].
      rewrite andb_false_r in Hok0. discriminate.
    + assert (Hp' : pairwise (fun a b => DisjointRectCollection.disjoint2 a b = true)
                      (acc ++ [r])) by (by apply pairwise_snoc).
      assert (Hnd' : Forall (fun r => nonDegenerate r = true) (acc ++ [r])).
      { apply Forall_app. split; [exact Hnd|]. by constructor. }
      destruct (IH (ok0 && true) (acc ++ [r]) Hp' Hnd')
        as (H1 & H2 & (kept & Hk & Hres) & H4).
      cbn zeta in *. split; [exact H1|]. split; [exact H2|]. split.
      * exists (r :: kept). split; [by apply sublist_skip|].
        rewrite Hres, <- app_assoc. reflexivity.
      * intros Hok. destruct (H4 Hok) as [Hok0 Heq].
        split; [by rewrite andb_true_r in Hok0|].
        rewrite Heq, <- app_assoc. reflexivity.
Qed.

(** X15. A [DisjointRectCollection] that starts empty and is fed any list
    of rectangles through [add] holds, in their order, some of the rectangles
    fed; those it holds are pairwise disjoint and none has a zero side; and
    when every [add] returned [true] it holds exactly the rectangles fed that
    have no zero side. *)
Theorem disjoint_collection_invariant (l : list Rect.t) :
  let ok := (addAll l).1 in
  let rects := (addAll l).2 in
  (forall i j a b, i <> j -> rects !! i = Some a -> rects !! j = Some b ->
     DisjointRectCollection.disjoint2 a b = true)
  /\ Forall (fun r => Rect.width r <> 0 /\ Rect.height r <> 0) rects
  /\ rects `sublist_of` l
  /\ (ok = true -> rects = List.filter nonDegenerate l).
Proof.
  cbn zeta. unfold addAll.
  destruct (addAll_from l true [] I (List.Forall_nil _)) as (Hp & Hnd & (kept & Hk & Hres) & Hok).
  cbn zeta in *. cbn [app] in *. split; [|split; [|split]].
  - intros i j a b Hij Hi Hj.
    destruct (Nat.lt_trichotomy i j) as [Hlt | [-> | Hgt]]; [| congruence |].
    + exact (pairwise_lookup _ _ Hp i j a b Hlt Hi Hj).
    + pose proof (pairwise_lookup _ _ Hp j i b a Hgt Hj Hi) as Hd.
      revert Hd. unfold DisjointRectCollection.disjoint2.
      destruct (Z.leb_spec (Int.add (Rect.x a) (Rect.width a)) (Rect.x b)),
        (Z.leb_spec (Int.add (Rect.x b) (Rect.width b)) (Rect.x a)),
        (Z.leb_spec (Int.add (Rect.y a) (Rect.height a)) (Rect.y b)),
        (Z.leb_spec (Int.add (Rect.y b) (Rect.height b)) (Rect.y a)); cbn; congruence.
  - eapply Forall_impl; [exact Hnd|]. intros r Hr. unfold nonDegenerate in Hr.
    apply negb_true_iff, orb_false_iff in Hr as [H1 H2].
    apply Z.eqb_neq in H1. apply Z.eqb_neq in H2. by split.
  - by rewrite Hres.
  - intros H. by destruct (Hok H).
Qed.

(** ** commonIntervalLength *)

(** X16. [commonIntervalLength] does not depend on the order of its two
    intervals, and for two intervals with [int] bounds that are not negative
    and in order it is the length of their intersection: zero when they do not
    overlap, never negative and never more than either interval's length. *)
Theorem commonIntervalLength_is_overlap (s1 e1 s2 e2 : Z) :
  0 <= s1 <= e1 -> e1 <= Int.INT_MAX -> 0 <= s2 <= e2 -> e2 <= Int.INT_MAX ->
  commonIntervalLength s1 e1 s2 e2 = commonIntervalLength s2 e2 s1 e1
  /\ commonIntervalLength s1 e1 s2 e2 = Z.max 0 (Z.min e1 e2 - Z.max s1 s2)
  /\ 0 <= commonIntervalLength s1 e1 s2 e2 <= Z.min (e1 - s1) (e2 - s2)
  /\ (e1 <= s2 \/ e2 <= s1 -> commonIntervalLength s1 e1 s2 e2 = 0).
Proof.
  intros H1 H2 H3 H4.
  rewrite (commonIntervalLength_overlap s1 e1 s2 e2) by lia.
  rewrite (commonIntervalLength_overlap s2 e2 s1 e1) by lia.
  unfold overlap. repeat split; lia.
Qed.

Lemma commonIntervalLength_is_overlap_witness :
  commonIntervalLength 0 4 2 9 = Z.max 0 (Z.min 4 9 - Z.max 0 2).
Proof.
  refine (proj1 (proj2 (commonIntervalLength_is_overlap 0 4 2 9 _ _ _ _)));
    unfold Int.INT_MAX; lia.
Defined.

(** ** Pruning loses no free area *)

(** X19. [pruneFreeList] leaves a free list as it is exactly when no entry
    of the list is contained in another entry; and whatever it erases is
    contained in an entry it keeps, so that for rectangles in a bin whose
    sides are [int]s every unit cell of an entry of the list lies in an entry
    of the pruned list. *)
Theorem pruneFreeList_keeps_area (W H : Z) (l : list Rect.t) :
  W <= Int.INT_MAX -> H <= Int.INT_MAX -> Forall (inBin W H) l ->
  (pruneFreeList l = l <-> pairwise incomparable l)
  /\ (forall x, x ∈ l -> exists y, y ∈ pruneFreeList l /\ isContainedIn x y = true)
  /\ (forall x px py, x ∈ l -> cellIn px py x ->
        exists y, y ∈ pruneFreeList l /\ cellIn px py y).
Proof.
  intros HW HH Hl. split; [split|split].
  - intros Heq. rewrite <- Heq. apply pruneFreeList_antichain.
  - apply pruneFreeList_fix.
  - intros x Hx. by apply pruneFreeList_covers.
  - intros x px py Hx Hc. destruct (pruneFreeList_covers l x Hx) as (y & Hy & Hxy).
    exists y. split; [exact Hy|]. apply (within_cellIn px py x y); [|exact Hc].
    rewrite Forall_forall in Hl.
    apply (isContainedIn_within W H x y HW HH); [by apply Hl | | exact Hxy].
    apply Hl. eapply elem_of_sublist; [exact Hy | apply pruneFreeList_sublist].
Qed.

Lemma pruneFreeList_keeps_area_witness :
  let l := [Rect.mk 1 0 2 2; Rect.mk 0 0 4 2; Rect.mk 0 0 2 4] in
  pruneFreeList l = [Rect.mk 0 0 4 2; Rect.mk 0 0 2 4]
  /\ exists y, y ∈ pruneFreeList l /\ cellIn 2 1 y.
Proof.
  cbn zeta. split; [reflexivity|].
  refine (proj2 (proj2 (pruneFreeList_keeps_area 4 4
    [Rect.mk 1 0 2 2; Rect.mk 0 0 4 2; Rect.mk 0 0 2 4] _ _ _))
    (Rect.mk 1 0 2 2) 2 1 _ _).
  - unfold Int.INT_MAX; lia.
  - unfold Int.INT_MAX; lia.
  - repeat constructor; cbn; lia.
  - left.
  - unfold cellIn; cbn; lia.
Defined.

(** ** main.cpp: what the sheet description holds *)

Lemma mainStep_spec M method s images errors t :
  Int.INT_MAX < M -> packInv s -> positiveTexture t ->
  exists pack img errors',
    mainStep M method (s, images, errors) t = (pack, images ++ [img], errors')
    /\ packInv pack
    /\ binWidth pack = binWidth s /\ binHeight pack = binHeight s
    /\ ((Image.height img = 0 /\ img = Image.mk 0 0 0 0 0 /\ pack = s
         /\ errors' = S errors)
        \/ (Image.height img <> 0 /\ usedRectangles pack = usedRectangles s ++ [Image.rect img]
            /\ errors' = errors
            /\ inBin (binWidth s) (binHeight s) (Image.rect img)
            /\ (Image.rotation img = 0 \/ Image.rotation img = 90))).
Proof.
  intros HM Hinv [Hw Hh]. unfold mainStep.
  set (r := findPosition method s t.1 t.2).
  destruct (Z.eq_dec (Rect.height r) 0) as [Hz | Hnz].
  - rewrite (insert_early_return _ _ _ _ Hz). fold r.
    assert (Hr : r = Rect.zero).
    { subst r. destruct (findPosition_cases method s t.1 t.2)
        as [Hr | (f & _ & [[_ Hr] | [_ Hr]])]; [exact Hr | |];
        rewrite Hr in Hz; cbn in Hz; lia. }
    rewrite Hr.
    assert (Hrot : rotationOf t.1 Rect.zero = 0).
    { unfold rotationOf. cbn. destruct (Z.eqb_spec t.1 0); [lia | reflexivity]. }
    rewrite Hrot. unfold Rect.zero. cbn [Rect.x Rect.y Rect.width Rect.height].
    rewrite Z.mod_0_l by (unfold Int.INT_MAX in HM; lia).
    eexists _, _, _. split; [reflexivity|]. split; [exact Hinv|].
    split; [reflexivity|]. split; [reflexivity|]. left. by cbn.
  - rewrite (insert_placeRect _ _ _ _ Hnz). fold r.
    destruct (findPosition_inBin s _ _ _ Hinv (proj1 Hw) (proj1 Hh) Hnz) as [Hb Ha].
    fold r in Hb, Ha.
    pose proof Hinv as [[_ HW] [_ HH] _ _ _ _].
    pose proof Hb as (Hx & Hy & Hrw & Hrh & HxW & HyH).
    unfold Int.INT_MAX in *.
    rewrite !(Z.mod_small (Rect.x r)), !(Z.mod_small (Rect.y r)),
      !(Z.mod_small (Rect.width r)), !(Z.mod_small (Rect.height r)) by lia.
    assert (Hrot : rotationOf t.1 r = 0 \/ rotationOf t.1 r = 90).
    { unfold rotationOf. destruct (_ && _); auto. }
    rewrite (Z.mod_small (rotationOf t.1 r)) by lia.
    destruct (Z.leb_spec (Rect.height r) 0); [lia|].
    eexists _, _, _. split; [reflexivity|].
    split; [by apply place_inv|]. split; [reflexivity|]. split; [reflexivity|].
    right. cbn [Image.height Image.rect Image.x Image.y Image.width Image.rotation].
    split; [lia|]. destruct r as [rx ry rw rh]. cbn in *. done.
Qed.

Lemma mainLoop_from M method textures :
  Int.INT_MAX < M ->
  forall s images errors,
    packInv s -> Forall positiveTexture textures ->
    exists pack added errors',
      fold_left (mainStep M method) textures (s, images, errors)
      = (pack, images ++ added, errors')
      /\ length added = length textures
      /\ usedRectangles pack
         = usedRectangles s
           ++ List.filter (fun r => negb (Rect.height r =? 0)) (map Image.rect added)
      /\ (errors' + length (usedRectangles pack)
          = errors + length (usedRectangles s) + length textures)%nat
      /\ Forall (fun i => Image.height i = 0 -> i = Image.mk 0 0 0 0 0) added
      /\ Forall (fun i => Image.height i <> 0 ->
                   inBin (binWidth s) (binHeight s) (Image.rect i)
                   /\ (Image.rotation i = 0 \/ Image.rotation i = 90)) added.
Proof.
  intros HM. induction textures as [|t textures IH]; intros s images errors Hinv Hpos;
    cbn [fold_left].
  - exists s, [], errors. rewrite !app_nil_r. cbn. repeat split; try constructor; lia.
  - inversion Hpos as [|? ? Ht Hrest]; subst.
    destruct (mainStep_spec M method s images errors t HM Hinv Ht)
      as (pack1 & img & errors1 & -> & Hinv1 & HW1 & HH1 & Hcase).
    destruct (IH pack1 (images ++ [img]) errors1 Hinv1 Hrest)
      as (pack & added & errors' & -> & Hlen & Hused & Herr & Hzero & Hnz).
    exists pack, (img :: added), errors'.
    split; [by rewrite <- app_assoc|]. split; [cbn; lia|].
    rewrite HW1, HH1 in Hnz. cbn [map List.filter length].
    destruct Hcase as [(Hz & -> & -> & ->) | (Hn & Hu & -> & Hb & Hrot)].
    + cbn [Image.rect Image.x Image.y Image.width Image.height Rect.height Z.eqb negb].
      split; [exact Hused|]. split; [lia|].
      split; constructor; try assumption; [done | intros Hc; by cbn in Hc].
    + assert (Hh : (Rect.height (Image.rect img) =? 0) = false)
        by (apply Z.eqb_neq; exact Hn).
      rewrite Hh. cbn [negb].
      split; [rewrite Hused, Hu, <- app_assoc; reflexivity|].
      rewrite Hu, length_app in Herr. cbn [length] in Herr.
      split; [lia|]. split; constructor; try assumption; [intros; contradiction | done].
Qed.

(** X18. For a sheet with positive [int] sides and textures with positive
    [int] sides (and a [size_t] of 32 bits or more), the loop of [main]
    records one [Image] per texture, also for a texture that found no room;
    the rectangles of the images with non-zero height are, in order, the used
    rectangles of the packer, each in the sheet and with rotation 0 or 90; an
    image with zero height is recorded with all numbers zero; and the number
    of "pack is full" lines is the number of these. *)
Theorem main_records_every_texture (M W H : Z) (method : FreeRectChoiceHeuristic)
    (textures : list (Z * Z)) :
  Int.INT_MAX < M -> 0 < W <= Int.INT_MAX -> 0 < H <= Int.INT_MAX ->
  Forall positiveTexture textures ->
  let pack := (mainLoop M W H method textures).1.1 in
  let images := (mainLoop M W H method textures).1.2 in
  let errors := (mainLoop M W H method textures).2 in
  length images = length textures
  /\ List.filter (fun r => negb (Rect.height r =? 0)) (map Image.rect images)
     = usedRectangles pack
  /\ (errors + length (usedRectangles pack) = length textures)%nat
  /\ Forall (fun i => Image.height i = 0 -> i = Image.mk 0 0 0 0 0) images
  /\ Forall (fun i => Image.height i <> 0 ->
               inBin W H (Image.rect i)
               /\ (Image.rotation i = 0 \/ Image.rotation i = 90)) images.
Proof.
  intros HM HW HH Hpos. cbn zeta. unfold mainLoop.
  destruct (mainLoop_from M method textures HM (init W H) [] 0%nat
              (init_inv W H HW HH) Hpos)
    as (pack & added & errors & -> & Hlen & Hused & Herr & Hzero & Hnz).
  cbn [fst snd app usedRectangles init length binWidth binHeight] in *.
  split; [exact Hlen|]. split; [by rewrite Hused|]. split; [lia|]. by split.
Qed.

(** Three 3 by 3 textures on a 4 by 4 sheet: only the first finds room. *)
Lemma main_records_every_texture_witness :
  mainLoop 4294967296 4 4 RectBestShortSideFit [(3, 3); (3, 3); (3, 3)]
  = (insertAll [Request.mk 3 3 RectBestShortSideFit] (init 4 4),
     [Image.mk 0 0 3 3 0; Image.mk 0 0 0 0 0; Image.mk 0 0 0 0 0], 2%nat)
  /\ length (mainLoop 4294967296 4 4 RectBestShortSideFit
               [(3, 3); (3, 3); (3, 3)]).1.2 = 3%nat.
Proof.
  split; [reflexivity|].
  refine (proj1 (main_records_every_texture 4294967296 4 4 RectBestShortSideFit
    [(3, 3); (3, 3); (3, 3)] _ _ _ _)).
  - unfold Int.INT_MAX; lia.
  - unfold Int.INT_MAX; lia.
  - unfold Int.INT_MAX; lia.
  - repeat constructor; cbn; unfold Int.INT_MAX; lia.
Defined.

(** ** Where a rectangle is placed and what the free list becomes *)

(** X20. In any packer state, for any request and heuristic, the rectangle
    [insert] returns is the all-zero one or sits at the corner [(x, y)] of a
    free rectangle of the list, with the requested size or the requested size
    turned by 90 degrees, in an orientation for which that free rectangle has
    room; so its extent, taken in exact integers, lies within that of the
    free rectangle. *)
Theorem insert_places_at_free_corner (s : MaxRectsBinPack) (w h : Z)
    (m : FreeRectChoiceHeuristic) :
  let r := (insert w h m s).1 in
  r = Rect.zero
  \/ exists f, f ∈ freeRectangles s
       /\ Rect.x r = Rect.x f /\ Rect.y r = Rect.y f
       /\ ((Rect.width r = w /\ Rect.height r = h /\ fits f w h = true)
           \/ (Rect.width r = h /\ Rect.height r = w /\ fits f h w = true))
       /\ within r f.
Proof.
  cbn zeta.
  assert (Hr : (insert w h m s).1 = findPosition m s w h).
  { unfold insert. destruct (_ =? 0); reflexivity. }
  rewrite Hr.
  destruct (findPosition_cases m s w h) as [Hz | (f & Hf & Hc)]; [by left|].
  right. exists f. split; [exact Hf|].
  destruct Hc as [[F ->] | [F ->]]; cbn [placeAt Rect.x Rect.y Rect.width Rect.height];
    (split; [reflexivity|]); (split; [reflexivity|]);
    (split; [auto | by apply fits_placeAt_within]).
Qed.

(** X21. In a packer initialised with positive [int] bin sides and taken
    through [insert] calls with positive [int] sides, a further such call
    that returns a rectangle [r] of non-zero height appends [r] to the used
    list and makes the free list the pruning of: the free rectangles disjoint
    from [r], in their order, followed by the residuals (the slivers of
    positive area above, below, left of and right of [r]) of the free
    rectangles that intersect [r], in their order. *)
Theorem insert_updates_lists (W H : Z) (reqs : list Request.t) (q : Request.t) :
  0 < W <= Int.INT_MAX -> 0 < H <= Int.INT_MAX ->
  Forall Request.positive reqs -> Request.positive q ->
  let s := insertAll reqs (init W H) in
  let r := (insert (Request.width q) (Request.height q) (Request.method q) s).1 in
  let s' := (insert (Request.width q) (Request.height q) (Request.method q) s).2 in
  Rect.height r <> 0 ->
  usedRectangles s' = usedRectangles s ++ [r]
  /\ freeRectangles s'
     = pruneFreeList
         (List.filter (fun f => DisjointRectCollection.disjoint2 f r) (freeRectangles s)
          ++ flat_map (fun f => if DisjointRectCollection.disjoint2 f r then []
                                else residuals f r) (freeRectangles s)).
Proof.
  intros HW HH Hpos [Hqw Hqh] s r s' Hnz.
  pose proof (insertAll_inv reqs (init W H) (init_inv W H HW HH) Hpos) as Hinv.
  fold s in Hinv.
  assert (Hr : r = findPosition (Request.method q) s (Request.width q) (Request.height q)).
  { subst r. unfold insert. destruct (_ =? 0); reflexivity. }
  rewrite Hr in Hnz. subst s'. rewrite (insert_placeRect _ _ _ _ Hnz).
  cbn [snd placeRect usedRectangles freeRectangles]. rewrite <- Hr.
  split; [reflexivity|]. rewrite splitLoop_all. f_equal.
  destruct (findPosition_inBin s _ _ _ Hinv (proj1 Hqw) (proj1 Hqh) Hnz) as [Hb _].
  rewrite <- Hr in Hb. destruct Hinv as [[_ HWs] [_ HHs] Hfree _ _ _].
  by apply (split_list_as_residuals (binWidth s) (binHeight s)).
Qed.

(** A 2 by 2 rectangle in the corner of a 4 by 4 bin. *)
Lemma insert_updates_lists_witness :
  freeRectangles (insert 2 2 RectBottomLeftRule (insertAll [] (init 4 4))).2
  = pruneFreeList ([] ++ residuals (Rect.mk 0 0 4 4) (Rect.mk 0 0 2 2) ++ []).
Proof.
  refine (proj2 (insert_updates_lists 4 4 [] (Request.mk 2 2 RectBottomLeftRule)
    _ _ _ _ _)).
  - unfold Int.INT_MAX; lia.
  - unfold Int.INT_MAX; lia.
  - constructor.
  - split; cbn; unfold Int.INT_MAX; lia.
  - vm_compute. discriminate.
Defined.

(** X22. The first rectangle goes to the origin: in a packer just
    initialised with positive [int] bin sides, a request with positive sides
    that fits the bin in one orientation or the other is placed at [(0, 0)],
    with the requested size or the requested size turned by 90 degrees, under
    any heuristic (for the contact-point heuristic the perimeter of the bin
    is assumed to fit an [int]); a request that fits in neither orientation
    gets the all-zero rectangle. *)
Theorem first_insert_at_origin (W H w h : Z) (m : FreeRectChoiceHeuristic) :
  0 < W <= Int.INT_MAX -> 0 < H <= Int.INT_MAX -> 0 < w -> 0 < h ->
  (m = RectContactPointRule -> 2 * (W + H) <= Int.INT_MAX) ->
  let r := (insert w h m (init W H)).1 in
  ((w <= W /\ h <= H) \/ (h <= W /\ w <= H) ->
   (r = Rect.mk 0 0 w h /\ w <= W /\ h <= H)
   \/ (r = Rect.mk 0 0 h w /\ h <= W /\ w <= H))
  /\ (~ ((w <= W /\ h <= H) \/ (h <= W /\ w <= H)) -> r = Rect.zero).
Proof.
  intros HW HH Hw Hh Hper r.
  assert (Hr : r = findPosition m (init W H) w h).
  { subst r. unfold insert. destruct (_ =? 0); reflexivity. }
  assert (Hfits : forall a b, fits (Rect.mk 0 0 W H) a b = true <-> a <= W /\ b <= H).
  { intros a b. unfold fits. cbn. rewrite !Z.geb_leb, andb_true_iff, !Z.leb_le. tauto. }
  assert (Hcases : r = Rect.zero
                   \/ (r = Rect.mk 0 0 w h /\ w <= W /\ h <= H)
                   \/ (r = Rect.mk 0 0 h w /\ h <= W /\ w <= H)).
  { rewrite Hr. destruct (findPosition_cases m (init W H) w h)
      as [Hz | (f & Hf & Hc)]; [by left | right].
    cbn in Hf. apply list_elem_of_singleton in Hf as ->.
    destruct Hc as [[F ->] | [F ->]]; apply Hfits in F; [left | right]; by split. }
  split.
  - intros Hroom.
    assert (Hnz : Rect.height (findPosition m (init W H) w h) <> 0).
    { apply findPosition_fit; [by apply init_inv | exact Hw | exact Hh | exact Hper|].
      exists (Rect.mk 0 0 W H). split; [left|].
      destruct Hroom as [Hroom | Hroom]; [left | right]; by apply Hfits. }
    rewrite <- Hr in Hnz.
    destruct Hcases as [Hz | Hc]; [|exact Hc]. rewrite Hz in Hnz. cbn in Hnz. lia.
  - intros Hno. destruct Hcases as [Hz | [(_ & Hc) | (_ & Hc)]]; [exact Hz | |];
      exfalso; apply Hno; tauto.
Qed.

(** A 3 by 5 request in a fresh 6 by 4 bin is turned. *)
Lemma first_insert_at_origin_witness :
  (insert 3 5 RectContactPointRule (init 6 4)).1 = Rect.mk 0 0 5 3
  /\ ((insert 3 5 RectContactPointRule (init 6 4)).1 = Rect.mk 0 0 3 5 /\ 3 <= 6 /\ 5 <= 4
      \/ (insert 3 5 RectContactPointRule (init 6 4)).1 = Rect.mk 0 0 5 3
         /\ 5 <= 6 /\ 3 <= 4).
Proof.
  split; [reflexivity|].
  refine (proj1 (first_insert_at_origin 6 4 3 5 RectContactPointRule _ _ _ _ _) _).
  - unfold Int.INT_MAX; lia.
  - unfold Int.INT_MAX; lia.
  - lia.
  - lia.
  - intros _. unfold Int.INT_MAX; lia.
  - right. lia.
Defined.
